(** * ThreadWeaver: the weaver core and job collections

    A shallow embedding of [WeaverImpl.cpp] and [JobCollection.cpp].

    The weaver, the jobs it points to, the queue policies and the signals it
    emits are gathered in one [World] record which every operation passes on
    explicitly.  A [JobPointer] is a shared pointer: it is either null or the
    identity of a live job, so the job store is a total function.  C++ [int]
    counters are unbounded integers here: every counter of the weaver is
    bounded by the length of a list it owns.  The one [int] product of the
    code, in the constructor, is taken with its wrap-around. *)

From Stdlib Require Import ZArith List Bool Lia PeanoNat Sorted Permutation.
Import ListNotations.

Local Open Scope Z_scope.

(** ** Identities and enumerations *)

Definition JobId := nat.
Definition ThreadId := nat.
Definition PolicyId := nat.

(** A [JobPointer] may be null. *)
Definition JobPointer := option JobId.

(** The weaver a collection is queued in ([QueueAPI*]); there is one weaver
    in a [World]. *)
Inductive QueueAPI := TheWeaver.

(** Modelled from the spec: the [Job::Status] enumeration, declared in a
    header that is not part of the sources. *)
Inductive Status :=
| Status_New
| Status_Queued
| Status_Running
| Status_Success
| Status_Failed
| Status_Aborted.

Inductive StateId :=
| InConstruction
| WorkingHard
| Suspending
| Suspended
| ShuttingDown
| Destructed.

Definition StateId_eqb (a b : StateId) : bool :=
  match a, b with
  | InConstruction, InConstruction
  | WorkingHard, WorkingHard
  | Suspending, Suspending
  | Suspended, Suspended
  | ShuttingDown, ShuttingDown
  | Destructed, Destructed => true
  | _, _ => false
  end.

(** ** Jobs *)

(** [JobCollection::Private]. *)
Record CollectionPrivate := mkPrivate {
  elements : list JobPointer;
  api : option QueueAPI;
  jobCounter : Z;
  jobsStarted : Z;
  self : JobPointer;
  selfIsExecuting : bool }.

(** A job; [collection] holds the private part of a [JobCollection] and is
    [None] for any other job. *)
Record Job := mkJob {
  priority : Z;
  status : Status;
  queuePolicies : list PolicyId;
  collection : option CollectionPrivate }.

(** ** Signals, wake-ups and calls into collaborators *)

Inductive Event :=
| EvCanRun (p : PolicyId) (job : JobPointer) (granted : bool)
| EvRelease (p : PolicyId) (job : JobPointer)
| EvFree (p : PolicyId) (job : JobPointer)
| EvAboutToBeQueued (job : JobId)
| EvAboutToBeDequeued (job : JobId)
| EvJobAvailableWakeAll
| EvJobFinishedWakeAll
| EvFinished
| EvActivated (id : StateId)
| EvSuspended
| EvStateChanged (id : StateId)
| EvStartThread (th : ThreadId)
| EvThreadSuspended (th : ThreadId)
| EvWaitJobAvailable (th : ThreadId)
| EvApiEnqueue (jobs : list JobPointer)
| EvApiDequeue (job : JobPointer)
| EvDefaultEnd (job : JobPointer) (th : ThreadId).

(** ** C++ [int] *)

Definition INT_MIN : Z := - 2 ^ 31.
Definition INT_MAX : Z := 2 ^ 31 - 1.

Definition int_range (x : Z) : Prop := INT_MIN <= x <= INT_MAX.

(** The value that an [int] operation leaves on the target when the exact
    result is [x]: 32 bits, two's complement. *)
Definition int_wrap (x : Z) : Z := (x - INT_MIN) mod 2 ^ 32 + INT_MIN.

(** ** Results of code that may recurse or misbehave *)

(** [Deadlock]: the call never returns, because the calling thread waits for
    a mutex that it holds itself. *)
Inductive Res (A : Type) : Type :=
| Done (a : A)
| OutOfFuel
| Undefined
| Deadlock.

Arguments Done {A} a.
Arguments OutOfFuel {A}.
Arguments Undefined {A}.
Arguments Deadlock {A}.

Definition bind {A B : Type} (r : Res A) (k : A -> Res B) : Res B :=
  match r with
  | Done a => k a
  | OutOfFuel => OutOfFuel
  | Undefined => Undefined
  | Deadlock => Deadlock
  end.

Notation "x <- r ;; k" := (bind r (fun x => k))
  (at level 61, r at next level, right associativity).

(** ** Qt containers *)

Module QList.

(** [indexOf]: the first position of [x], [None] for -1. *)
Fixpoint indexOf (l : list JobId) (x : JobId) : option nat :=
  match l with
  | [] => None
  | y :: l' =>
      if Nat.eqb y x then Some 0%nat
      else match indexOf l' x with
           | Some i => Some (S i)
           | None => None
           end
  end.

(** [removeAt] and the list left by [takeAt]; nothing happens out of
    range. *)
Fixpoint removeAt {A : Type} (i : nat) (l : list A) : list A :=
  match l, i with
  | [], _ => []
  | _ :: l', O => l'
  | y :: l', S i' => y :: removeAt i' l'
  end.

(** [insert(i, x)]. *)
Definition insert {A : Type} (i : nat) (x : A) (l : list A) : list A :=
  firstn i l ++ x :: skipn i l.

Definition isEmpty {A : Type} (l : list A) : bool :=
  match l with
  | [] => true
  | _ :: _ => false
  end.

End QList.

(** ** Queue policies

    [QueuePolicy] is an interface implemented outside of the weaver; [PS] is
    whatever state the policies of a program keep. *)

Class QueuePolicy (PS : Type) := {
  canRun : PolicyId -> JobPointer -> PS -> bool * PS;
  free : PolicyId -> JobPointer -> PS -> PS;
  release : PolicyId -> JobPointer -> PS -> PS }.

Section Weaver.

Context {PS : Type} `{QueuePolicy PS}.

(** ** The world: the weaver's members, the jobs, the policies, the signals *)

Record World := mkWorld {
  m_active : Z;
  m_inventoryMax : Z;
  m_inventory : list ThreadId;
  m_assignments : list JobId;
  m_state : StateId;
  m_createdThreads : nat;
  jobStore : JobId -> Job;
  policyState : PS;
  trace : list Event }.

Definition set_active (v : Z) (w : World) : World :=
  mkWorld v (m_inventoryMax w) (m_inventory w) (m_assignments w) (m_state w)
          (m_createdThreads w) (jobStore w) (policyState w) (trace w).

Definition set_inventoryMax (v : Z) (w : World) : World :=
  mkWorld (m_active w) v (m_inventory w) (m_assignments w) (m_state w)
          (m_createdThreads w) (jobStore w) (policyState w) (trace w).

Definition set_inventory (v : list ThreadId) (w : World) : World :=
  mkWorld (m_active w) (m_inventoryMax w) v (m_assignments w) (m_state w)
          (m_createdThreads w) (jobStore w) (policyState w) (trace w).

Definition set_assignments (v : list JobId) (w : World) : World :=
  mkWorld (m_active w) (m_inventoryMax w) (m_inventory w) v (m_state w)
          (m_createdThreads w) (jobStore w) (policyState w) (trace w).

Definition set_state (v : StateId) (w : World) : World :=
  mkWorld (m_active w) (m_inventoryMax w) (m_inventory w) (m_assignments w) v
          (m_createdThreads w) (jobStore w) (policyState w) (trace w).

Definition set_createdThreads (v : nat) (w : World) : World :=
  mkWorld (m_active w) (m_inventoryMax w) (m_inventory w) (m_assignments w)
          (m_state w) v (jobStore w) (policyState w) (trace w).

Definition set_jobStore (v : JobId -> Job) (w : World) : World :=
  mkWorld (m_active w) (m_inventoryMax w) (m_inventory w) (m_assignments w)
          (m_state w) (m_createdThreads w) v (policyState w) (trace w).

Definition set_policyState (v : PS) (w : World) : World :=
  mkWorld (m_active w) (m_inventoryMax w) (m_inventory w) (m_assignments w)
          (m_state w) (m_createdThreads w) (jobStore w) v (trace w).

Definition emit (e : Event) (w : World) : World :=
  mkWorld (m_active w) (m_inventoryMax w) (m_inventory w) (m_assignments w)
          (m_state w) (m_createdThreads w) (jobStore w) (policyState w)
          (trace w ++ [e]).

(** Writing through a job pointer. *)
Definition updJob (j : JobId) (f : Job -> Job) (w : World) : World :=
  set_jobStore (fun k => if Nat.eqb k j then f (jobStore w k) else jobStore w k) w.

Definition setStatus (j : JobId) (s : Status) (w : World) : World :=
  updJob j (fun job => mkJob (priority job) s (queuePolicies job) (collection job)) w.

Definition updPrivate (c : JobId) (f : CollectionPrivate -> CollectionPrivate)
  (w : World) : World :=
  updJob c (fun job =>
    mkJob (priority job) (status job) (queuePolicies job)
          (option_map f (collection job))) w.

Definition set_api (v : option QueueAPI) (d : CollectionPrivate) :=
  mkPrivate (elements d) v (jobCounter d) (jobsStarted d) (self d) (selfIsExecuting d).

Definition set_jobCounter (v : Z) (d : CollectionPrivate) :=
  mkPrivate (elements d) (api d) v (jobsStarted d) (self d) (selfIsExecuting d).

Definition set_self (v : JobPointer) (d : CollectionPrivate) :=
  mkPrivate (elements d) (api d) (jobCounter d) (jobsStarted d) v (selfIsExecuting d).

Definition set_selfIsExecuting (v : bool) (d : CollectionPrivate) :=
  mkPrivate (elements d) (api d) (jobCounter d) (jobsStarted d) (self d) v.

Definition getPrivate (c : JobId) (w : World) : Res CollectionPrivate :=
  match collection (jobStore w c) with
  | Some d => Done d
  | None => Undefined
  end.

(** ** WeaverImpl *)

(** The constructor; [idealThreadCount] is what [QThread::idealThreadCount]
    answers, and [2 * QThread::idealThreadCount()] is a product of [int]s.
    It passes through [InConstruction] and ends in [WorkingHard]. *)
Definition WeaverImpl (idealThreadCount : Z) (store : JobId -> Job) (ps : PS)
  : World :=
  mkWorld 0 (Z.max 4 (int_wrap (2 * idealThreadCount))) [] [] WorkingHard 0
          store ps
          [EvActivated InConstruction; EvStateChanged InConstruction;
           EvActivated WorkingHard; EvStateChanged WorkingHard].

(** [setState_p]; after the constructor [m_state] is never null.  What
    [activated] does belongs to the state objects and is recorded as a
    signal. *)
Definition setState_p (id : StateId) (w : World) : World :=
  let previous := m_state w in
  let w1 := set_state id w in
  if StateId_eqb previous id then w1
  else
    let w2 := emit (EvActivated id) w1 in
    let w3 := if StateId_eqb id Suspended then emit EvSuspended w2 else w2 in
    emit (EvStateChanged id) w3.

Definition setMaximumNumberOfThreads_p (cap : Z) (w : World) : World :=
  set_inventoryMax cap w.

Definition maximumNumberOfThreads_p (w : World) : Z := m_inventoryMax w.

Definition currentNumberOfThreads_p (w : World) : Z :=
  Z.of_nat (length (m_inventory w)).

Definition isEmpty_p (w : World) : bool := QList.isEmpty (m_assignments w).

Definition isIdle_p (w : World) : bool := isEmpty_p w && (m_active w =? 0).

Definition queueLength_p (w : World) : Z :=
  Z.of_nat (length (m_assignments w)).

Definition reschedule (w : World) : World := emit EvJobAvailableWakeAll w.

(** [new Thread(this)]: the threads created so far are numbered in the order
    of their creation. *)
Definition createThread (w : World) : ThreadId := m_createdThreads w.

Fixpoint adjustInventory_loop (n : nat) (w : World) : World :=
  match n with
  | O => w
  | S n' =>
      let th := createThread w in
      let w1 := set_inventory (m_inventory w ++ [th]) w in
      let w2 := emit (EvStartThread th) w1 in
      adjustInventory_loop n' (set_createdThreads (S (m_createdThreads w2)) w2)
  end.

Definition adjustInventory (numberOfNewJobs : Z) (w : World) : World :=
  let reserve := m_inventoryMax w - Z.of_nat (length (m_inventory w)) in
  if 0 <? reserve
  then adjustInventory_loop (Z.to_nat (Z.min reserve numberOfNewJobs)) w
  else w.

(** Modelled from the spec: [Job.cpp] is not part of the sources; the callback
    [aboutToBeQueued] of a job notifies the job and leaves the weaver alone.
    A [JobCollection] overrides it to bind itself to the weaver. *)
Definition aboutToBeQueued (job : JobId) (w : World) : World :=
  updPrivate job (set_api (Some TheWeaver)) (emit (EvAboutToBeQueued job) w).

(** The [while] loop of [enqueue_p] that walks [i] down from the size. *)
Fixpoint insertPosition (w : World) (job : JobId) (i : nat) : nat :=
  match i with
  | O => O
  | S i' =>
      match nth_error (m_assignments w) i' with
      | Some c =>
          if priority (jobStore w c) <? priority (jobStore w job)
          then insertPosition w job i'
          else i
      | None => i
      end
  end.

(** The body of the [Q_FOREACH] of [enqueue_p] for a job that is not null.
    [Q_ASSERT(job->status() == Job::Status_New)] is a debug assertion and
    does nothing in a release build. *)
Definition enqueueJob (job : JobId) (w : World) : World :=
  let w1 := adjustInventory 1 w in
  let w2 := aboutToBeQueued job w1 in
  let i := length (m_assignments w2) in
  let w3 :=
    if (0 <? i)%nat
    then set_assignments
           (QList.insert (insertPosition w2 job i) job (m_assignments w2)) w2
    else set_assignments (m_assignments w2 ++ [job]) w2 in
  reschedule (setStatus job Status_Queued w3).

Fixpoint enqueue_loop (jobs : list JobPointer) (w : World) : World :=
  match jobs with
  | [] => w
  | Some job :: rest => enqueue_loop rest (enqueueJob job w)
  | None :: rest => enqueue_loop rest w
  end.

Definition enqueue_p (jobs : list JobPointer) (w : World) : World :=
  if QList.isEmpty jobs then w else enqueue_loop jobs w.

(** Modelled from the spec: the state objects are not part of the sources;
    [enqueue] is forwarded to [enqueue_p] in WorkingHard, Suspending and
    Suspended and dropped in the other states. *)
Definition enqueueAccepted (s : StateId) : bool :=
  match s with
  | WorkingHard | Suspending | Suspended => true
  | InConstruction | ShuttingDown | Destructed => false
  end.

(** [WeaverImpl::enqueue], through the state object. *)
Definition enqueue (jobs : list JobPointer) (w : World) : World :=
  if enqueueAccepted (m_state w) then enqueue_p jobs w else w.

(** Modelled from the spec: [dequeue] is rejected in InConstruction and
    Destructed and forwarded to [dequeue_p] in the other states. *)
Definition dequeueAccepted (s : StateId) : bool :=
  match s with
  | InConstruction | Destructed => false
  | WorkingHard | Suspending | Suspended | ShuttingDown => true
  end.

(** Modelled from the spec: [Job::freeQueuePolicyResources] is not part of the
    sources; it releases the queue-policy resources held for [job] by calling
    [free] on every policy of the job. *)
Fixpoint freeAll (policies : list PolicyId) (job : JobPointer) (w : World)
  : World :=
  match policies with
  | [] => w
  | p :: rest =>
      freeAll rest job
        (emit (EvFree p job) (set_policyState (free p job (policyState w)) w))
  end.

Definition freeQueuePolicyResources (c : JobId) (job : JobPointer) (w : World)
  : World :=
  freeAll (queuePolicies (jobStore w c)) job w.

(** [JobCollection::finalCleanup]. *)
Definition finalCleanup (c : JobId) (w : World) : Res World :=
  d <- getPrivate c w ;;
  let w1 := freeQueuePolicyResources c (self d) w in
  Done (updPrivate c (set_api None) (setStatus c Status_Success w1)).

(** [JobCollection::dequeueElements], with [dq] the dequeue operation that
    [queueApiIsLocked] selects.  No callee writes [elements], so the loop
    runs over the vector as it is read on entry. *)
Definition dequeueEach (dq : JobPointer -> World -> Res (bool * World))
  : list JobPointer -> World -> Res World :=
  fix go (elems : list JobPointer) (w : World) : Res World :=
    match elems with
    | [] => Done w
    | e :: rest =>
        r <- dq e (emit (EvApiDequeue e) w) ;;
        go rest (snd r)
    end.

Definition dequeueElements_with (dq : JobPointer -> World -> Res (bool * World))
  (c : JobId) (w : World) : Res World :=
  d <- getPrivate c w ;;
  match api d with
  | None => Done w
  | Some _ =>
      w1 <- dequeueEach dq (elements d) w ;;
      d1 <- getPrivate c w1 ;;
      let jobCount := jobCounter d1 in
      let w2 := updPrivate c (set_jobCounter 0) w1 in
      if jobCount =? 0 then Done w2 else finalCleanup c w2
  end.

(** Modelled from the spec: [Job.cpp] is not part of the sources; the callback
    [aboutToBeDequeued] of a job notifies the job and leaves the weaver and
    the status of the job alone.  A [JobCollection] overrides it to dequeue
    its elements and to drop its binding to the weaver. *)
Definition aboutToBeDequeued_with
  (dq : JobPointer -> World -> Res (bool * World))
  (job : JobId) (w : World) : Res World :=
  let w1 := emit (EvAboutToBeDequeued job) w in
  match collection (jobStore w1 job) with
  | None => Done w1
  | Some _ =>
      w2 <- dequeueElements_with dq job w1 ;;
      Done (updPrivate job (set_api None) w2)
  end.

(** [dequeue_p(JobPointer)].  The callback of a collection calls back into
    [dequeue_p] for its elements; [fuel] bounds the depth of that nesting.
    A null pointer is never in the assignments, so [indexOf] answers -1 for
    it; [takeAt(-1)] is out of range. *)
Fixpoint dequeue_p (fuel : nat) (job : JobPointer) (w : World)
  : Res (bool * World) :=
  match job with
  | None => Done (false, w)
  | Some j =>
      match QList.indexOf (m_assignments w) j with
      | None => Done (false, w)
      | Some position =>
          match fuel with
          | O => OutOfFuel
          | S fuel' =>
              w1 <- aboutToBeDequeued_with (dequeue_p fuel') j w ;;
              match QList.indexOf (m_assignments w1) j with
              | None => Undefined
              | Some newPosition =>
                  let w2 :=
                    set_assignments
                      (QList.removeAt newPosition (m_assignments w1)) w1 in
                  let w3 := setStatus j Status_New w2 in
                  Done (true, emit EvJobFinishedWakeAll w3)
              end
          end
      end
  end.

Definition aboutToBeDequeued (fuel : nat) (job : JobId) (w : World)
  : Res World :=
  aboutToBeDequeued_with (dequeue_p fuel) job w.

(** [WeaverImpl::dequeue(job)], through the state object. *)
Definition dequeue (fuel : nat) (job : JobPointer) (w : World)
  : Res (bool * World) :=
  if dequeueAccepted (m_state w) then dequeue_p fuel job w
  else Done (false, w).

Definition dequeueElements (fuel : nat) (queueApiIsLocked : bool) (c : JobId)
  (w : World) : Res World :=
  dequeueElements_with
    (if queueApiIsLocked then dequeue_p fuel else dequeue fuel) c w.

(** [dequeue_p()]: the loop reads the size of the list again at every turn;
    [n] counts the turns that are left. *)
Fixpoint dequeueAll_loop (fuel : nat) (n : nat) (index : nat) (w : World)
  : Res World :=
  match nth_error (m_assignments w) index with
  | None => Done w
  | Some j =>
      match n with
      | O => OutOfFuel
      | S n' =>
          w1 <- aboutToBeDequeued fuel j w ;;
          dequeueAll_loop fuel n' (S index) w1
      end
  end.

Definition dequeue_p_all (fuel : nat) (w : World) : Res World :=
  w1 <- dequeueAll_loop fuel (length (m_assignments w)) 0 w ;;
  Done (set_assignments [] w1).

(** [WeaverImpl::dequeue()], through the state object. *)
Definition dequeue_all (fuel : nat) (w : World) : Res World :=
  if dequeueAccepted (m_state w) then dequeue_p_all fuel w else Done w.

(** [canBeExecuted]: the first loop asks the policies, the second releases
    the ones acquired so far.  A policy sees and changes the state of the
    policies only. *)
Fixpoint acquire (policies : list PolicyId) (job : JobPointer)
  (acquired : list PolicyId) (w : World) : bool * list PolicyId * World :=
  match policies with
  | [] => (true, acquired, w)
  | p :: rest =>
      let r := canRun p job (policyState w) in
      let w1 := emit (EvCanRun p job (fst r)) (set_policyState (snd r) w) in
      if fst r then acquire rest job (acquired ++ [p]) w1
      else (false, acquired, w1)
  end.

Fixpoint releaseAll (acquired : list PolicyId) (job : JobPointer) (w : World)
  : World :=
  match acquired with
  | [] => w
  | p :: rest =>
      releaseAll rest job
        (emit (EvRelease p job)
              (set_policyState (release p job (policyState w)) w))
  end.

Definition canBeExecuted (job : JobId) (w : World) : bool * World :=
  let policies := queuePolicies (jobStore w job) in
  if QList.isEmpty policies then (true, w)
  else
    let '(success, acquired, w1) := acquire policies (Some job) [] w in
    if success then (true, w1)
    else (false, releaseAll acquired (Some job) w1).

Definition adjustActiveThreadCount (diff : Z) (w : World) : World :=
  let w1 := set_active (m_active w + diff) w in
  if QList.isEmpty (m_assignments w1) && (m_active w1 =? 0)
  then emit EvFinished w1
  else w1.

Definition incActiveThreadCount (w : World) : World :=
  adjustActiveThreadCount 1 w.

Definition decActiveThreadCount (w : World) : World :=
  emit EvJobFinishedWakeAll (adjustActiveThreadCount (-1) w).

Definition blockThreadUntilJobsAreBeingAssigned_locked (th : ThreadId)
  (w : World) : World :=
  emit (EvWaitJobAvailable th) (emit (EvThreadSuspended th) w).

(** The [for] loop of [takeFirstAvailableJobOrSuspendOrWait]: the first
    candidate that can be executed, with its index. *)
Fixpoint firstAvailable (candidates : list JobId) (index : nat) (w : World)
  : option (JobId * nat) * World :=
  match candidates with
  | [] => (None, w)
  | candidate :: rest =>
      let r := canBeExecuted candidate w in
      if fst r then (Some (candidate, index), snd r)
      else firstAvailable rest (S index) (snd r)
  end.

Definition takeFirstAvailableJobOrSuspendOrWait (th : ThreadId)
  (threadWasBusy suspendIfInactive justReturning : bool) (w : World)
  : JobPointer * World :=
  let w1 := if threadWasBusy then decActiveThreadCount w else w in
  if suspendIfInactive && (m_active w1 =? 0)
     && StateId_eqb (m_state w1) Suspending
  then (None, setState_p Suspended w1)
  else if negb (StateId_eqb (m_state w1) WorkingHard) || justReturning
  then (None, w1)
  else
    match firstAvailable (m_assignments w1) 0 w1 with
    | (Some (next, index), w2) =>
        (Some next,
         incActiveThreadCount
           (set_assignments (QList.removeAt index (m_assignments w2)) w2))
    | (None, w2) => (None, blockThreadUntilJobsAreBeingAssigned_locked th w2)
    end.

(** Every candidate of the list is asked in turn and refused; the world is
    the one left by the policies. *)
Fixpoint refusedInTurn (candidates : list JobId) (w : World) : option World :=
  match candidates with
  | [] => Some w
  | candidate :: rest =>
      let r := canBeExecuted candidate w in
      if fst r then None else refusedInTurn rest (snd r)
  end.

(** ** JobCollection *)

Definition enqueueElements (c : JobId) (w : World) : Res World :=
  d <- getPrivate c w ;;
  let w1 :=
    updPrivate c (set_jobCounter (Z.of_nat (length (elements d)) + 1)) w in
  match api d with
  | None => Undefined
  | Some _ => Done (enqueue (elements d) (emit (EvApiEnqueue (elements d)) w1))
  end.

(** The second half of [elementFinished]: the decrement of [jobCounter] and
    what happens when it reaches zero.  The call of [defaultEnd] on the
    executor, which is not part of the sources, is recorded as a signal. *)
Definition countDown (c : JobId) (thread : ThreadId) (w1 : World) : Res World :=
  d1 <- getPrivate c w1 ;;
  let remainingJobs := jobCounter d1 - 1 in
  let w2 := updPrivate c (set_jobCounter remainingJobs) w1 in
  if remainingJobs =? 0
  then
    w3 <- finalCleanup c w2 ;;
    d3 <- getPrivate c w3 ;;
    Done (updPrivate c (set_self None) (emit (EvDefaultEnd (self d3) thread) w3))
  else Done w2.

Definition elementFinished (c : JobId) (job : JobPointer) (thread : ThreadId)
  (w : World) : Res World :=
  d <- getPrivate c w ;;
  w1 <- (if selfIsExecuting d
         then w' <- enqueueElements c w ;;
              Done (updPrivate c (set_selfIsExecuting false) w')
         else Done w) ;;
  countDown c thread w1.

(** Modelled from the spec: [Job.cpp] is not part of the sources.  Every job
    has a mutex of its own; the callback [aboutToBeDequeued] that
    [dequeue_p] calls for a job of the assignments takes the mutex of that
    job and then calls [aboutToBeDequeued_locked], which asserts
    [!mutex()->tryLock()]: its caller holds the mutex, and the mutex is not
    recursive.

    [WeaverImpl::dequeue(job)] called by a thread that holds the mutex of
    [holder]: when the call comes to the callback of [holder] itself, the
    thread waits for the mutex that it holds, and the call never returns.
    The callbacks of all other jobs take other mutexes. *)
Definition dequeue_holding (holder : JobId) (fuel : nat) (job : JobPointer)
  (w : World) : Res (bool * World) :=
  if dequeueAccepted (m_state w)
  then
    match job with
    | Some j =>
        if Nat.eqb j holder
        then
          match QList.indexOf (m_assignments w) j with
          | Some position => Deadlock
          | None => Done (false, w)
          end
        else dequeue_p fuel job w
    | None => dequeue_p fuel job w
    end
  else Done (false, w).

(** [JobCollection::stop].  [QMutexLocker l(mutex())] holds the mutex of the
    collection until the call returns, so both [d->api->dequeue(this)] and
    the calls of [dequeueElements(false)] are made with that mutex held. *)
Definition stop (fuel : nat) (c : JobId) (job : JobPointer) (w : World)
  : Res World :=
  d <- getPrivate c w ;;
  match api d with
  | None => Done w
  | Some _ =>
      r <- dequeue_holding c fuel (Some c) (emit (EvApiDequeue (Some c)) w) ;;
      if fst r then Done (snd r)
      else dequeueElements_with (dequeue_holding c fuel) c (snd r)
  end.

(** ** Properties of the queue and of the job store *)

Definition prio (w : World) (j : JobId) : Z := priority (jobStore w j).

(** Sorted by priority, descending. *)
Definition prio_sorted (w : World) : Prop :=
  StronglySorted (fun a b => prio w b <= prio w a) (m_assignments w).

(** The elements of [c]; a job that is not a collection has none. *)
Definition elementsOf (w : World) (c : JobId) : list JobPointer :=
  match collection (jobStore w c) with
  | Some d => elements d
  | None => []
  end.

(** Collections nest without cycles: [rk] ranks every element strictly below
    the collection that holds it. *)
Definition well_nested (rk : JobId -> nat) (w : World) : Prop :=
  forall c e, In (Some e) (elementsOf w c) -> (rk e < rk c)%nat.

End Weaver.

Arguments World PS : clear implicits.

Inductive sublist {A : Type} : list A -> list A -> Prop :=
| sublist_nil : sublist [] []
| sublist_skip x l1 l2 : sublist l1 l2 -> sublist l1 (x :: l2)
| sublist_cons x l1 l2 : sublist l1 l2 -> sublist (x :: l1) (x :: l2).

(** ** The weaver and its worker threads as a transition system *)

Section System.

Context {PS : Type} `{QueuePolicy PS}.

(** Modelled from the spec: [Thread] is not part of the sources.  A worker
    loops requesting work, executing the job and reporting back; [busy] lists
    the workers that hold a job, which is what they pass as [wasBusy]. *)
Record Sys := mkSys {
  world : World PS;
  busy : list ThreadId }.

Definition wasBusy (th : ThreadId) (s : Sys) : bool :=
  existsb (Nat.eqb th) (busy s).

Definition nextBusy (th : ThreadId) (job : JobPointer) (b : list ThreadId)
  : list ThreadId :=
  match job with
  | Some _ => th :: remove Nat.eq_dec th b
  | None => remove Nat.eq_dec th b
  end.

(** What jobs, policies and observers do outside of the weaver: the members
    of the weaver and the priorities of the jobs stay as they are, and so
    does the status of a job as long as it is queued. *)
Definition sameWeaver (w w' : World PS) : Prop :=
  m_active w' = m_active w /\
  m_inventoryMax w' = m_inventoryMax w /\
  m_inventory w' = m_inventory w /\
  m_assignments w' = m_assignments w /\
  m_state w' = m_state w /\
  m_createdThreads w' = m_createdThreads w /\
  (forall j, prio w' j = prio w j) /\
  (forall j, In j (m_assignments w) ->
             status (jobStore w' j) = status (jobStore w j)).

(** The assertion of [enqueue_p], [job->status() == Job::Status_New], at every
    turn of its loop. *)
Fixpoint assertsHold (w : World PS) (jobs : list JobPointer) : Prop :=
  match jobs with
  | [] => True
  | Some job :: rest =>
      status (jobStore w job) = Status_New /\ assertsHold (enqueueJob job w) rest
  | None :: rest => assertsHold w rest
  end.

(** One call into the weaver.  [capAllowed] says which calls of
    [setMaximumNumberOfThreads] are considered and [jobsAllowed] which calls
    of [enqueue].  Shutting down is left out.
    Modelled from the spec: [suspend] leads from WorkingHard to Suspending
    and [resume] from Suspending or Suspended to WorkingHard. *)
Inductive step (capAllowed : World PS -> Z -> Prop)
  (jobsAllowed : World PS -> list JobPointer -> Prop) : Sys -> Sys -> Prop :=
| step_enqueue s jobs :
    jobsAllowed (world s) jobs ->
    step capAllowed jobsAllowed s (mkSys (enqueue jobs (world s)) (busy s))
| step_dequeue s fuel job b w' :
    dequeue fuel job (world s) = Done (b, w') ->
    step capAllowed jobsAllowed s (mkSys w' (busy s))
| step_dequeue_all s fuel w' :
    dequeue_all fuel (world s) = Done w' ->
    step capAllowed jobsAllowed s (mkSys w' (busy s))
| step_setMaximumNumberOfThreads s cap :
    capAllowed (world s) cap ->
    step capAllowed jobsAllowed s (mkSys (setMaximumNumberOfThreads_p cap (world s)) (busy s))
| step_applyForWork s th suspendIfInactive justReturning job w' :
    In th (m_inventory (world s)) ->
    takeFirstAvailableJobOrSuspendOrWait
      th (wasBusy th s) suspendIfInactive justReturning (world s) = (job, w') ->
    step capAllowed jobsAllowed s (mkSys w' (nextBusy th job (busy s)))
| step_suspend s :
    m_state (world s) = WorkingHard ->
    step capAllowed jobsAllowed s (mkSys (setState_p Suspending (world s)) (busy s))
| step_resume s :
    m_state (world s) = Suspending \/ m_state (world s) = Suspended ->
    step capAllowed jobsAllowed s (mkSys (setState_p WorkingHard (world s)) (busy s))
| step_environment s w' :
    sameWeaver (world s) w' ->
    step capAllowed jobsAllowed s (mkSys w' (busy s)).

Inductive reachable (capAllowed : World PS -> Z -> Prop)
  (jobsAllowed : World PS -> list JobPointer -> Prop) : Sys -> Prop :=
| reachable_init idealThreadCount store ps :
    reachable capAllowed jobsAllowed
      (mkSys (WeaverImpl idealThreadCount store ps) [])
| reachable_step s s' :
    reachable capAllowed jobsAllowed s -> step capAllowed jobsAllowed s s' ->
    reachable capAllowed jobsAllowed s'.

(** Every cap that [setMaximumNumberOfThreads] asserts to be fine. *)
Definition anyCap (w : World PS) (cap : Z) : Prop := 0 < cap.

(** The caps that do not fall below the threads that exist. *)
Definition capAboveInventory (w : World PS) (cap : Z) : Prop :=
  0 < cap /\ currentNumberOfThreads_p w <= cap.

(** Every batch of jobs, whatever their status. *)
Definition anyJobs (w : World PS) (jobs : list JobPointer) : Prop := True.

End System.

Arguments Sys PS : clear implicits.

(** ** Predicates used to state the properties *)

Section Predicates.

Context {PS : Type} `{QueuePolicy PS}.

Implicit Types w : World PS.

(** What [policyState] is left and which fields stay: asking and releasing
    touch the policies and the trace only. *)
Definition onlyPolicies w w' : Prop :=
  m_active w' = m_active w /\
  m_inventoryMax w' = m_inventoryMax w /\
  m_inventory w' = m_inventory w /\
  m_assignments w' = m_assignments w /\
  m_state w' = m_state w /\
  m_createdThreads w' = m_createdThreads w /\
  jobStore w' = jobStore w.

Definition granted (job : JobPointer) (p : PolicyId) : Event :=
  EvCanRun p job true.

Definition released (job : JobPointer) (p : PolicyId) : Event :=
  EvRelease p job.

Definition freed (job : JobPointer) (p : PolicyId) : Event :=
  EvFree p job.

(** The policies of the list admit [job] one after the other, each one asked
    in the state that the one before it has left: the state in which all
    of them are acquired, and [None] as soon as one refuses. *)
Fixpoint admitInTurn (job : JobPointer) (policies : list PolicyId) (ps : PS)
  : option PS :=
  match policies with
  | [] => Some ps
  | p :: rest =>
      if fst (canRun p job ps) then admitInTurn job rest (snd (canRun p job ps))
      else None
  end.

(** [release] called for the policies of the list, in the order of the
    list. *)
Definition releaseInTurn (job : JobPointer) (acquired : list PolicyId)
  (ps : PS) : PS :=
  fold_left (fun s p => release p job s) acquired ps.

(** What stays of a job whatever the weaver does with it. *)
Definition staticOf (job : Job)
  : Z * list PolicyId * option (list JobPointer) :=
  (priority job, queuePolicies job, option_map elements (collection job)).

(** The bookkeeping of a collection that queueing leaves alone. *)
Definition countersOf (job : Job)
  : option (Z * Z * JobPointer * bool) :=
  option_map
    (fun d => (jobCounter d, jobsStarted d, self d, selfIsExecuting d))
    (collection job).

Definition keeps {T : Type} (f : Job -> T) w w' : Prop :=
  forall j, f (jobStore w' j) = f (jobStore w j).

(** The members of the weaver other than the assignments, the inventory and
    the count of created threads. *)
Definition sameControl w w' : Prop :=
  m_active w' = m_active w /\
  m_inventoryMax w' = m_inventoryMax w /\
  m_state w' = m_state w.

(** What dequeueing may change when collections are ranked by [rk]: jobs of
    rank [bs] and above keep their record, jobs of rank [bl] and above keep
    their place in the assignments, which only shrink. *)
Definition dequeueFrame (rk : JobId -> nat) (bs bl : nat) w w' : Prop :=
  sameControl w w' /\
  m_inventory w' = m_inventory w /\
  m_createdThreads w' = m_createdThreads w /\
  sublist (m_assignments w') (m_assignments w) /\
  keeps staticOf w w' /\
  (forall x, (bs <= rk x)%nat -> jobStore w' x = jobStore w x) /\
  (forall x, (bl <= rk x)%nat ->
             In x (m_assignments w) -> In x (m_assignments w')) /\
  (exists evs, trace w' = trace w ++ evs).

(** The job pointed to is in the assignments. *)
Definition queued (job : JobPointer) w : Prop :=
  match job with
  | Some j => In j (m_assignments w)
  | None => False
  end.

(** The signals of [enqueue_p]. *)
Definition enqueueEvent (e : Event) : Prop :=
  match e with
  | EvStartThread _ | EvAboutToBeQueued _ | EvJobAvailableWakeAll => True
  | _ => False
  end.

(** What queueing does to the world around the assignments: threads are
    added at the end of the inventory, up to the cap. *)
Definition grows w w' : Prop :=
  (exists n,
     m_inventory w' = m_inventory w ++ seq (m_createdThreads w) n /\
     m_createdThreads w' = (m_createdThreads w + n)%nat /\
     (n = 0%nat \/ Z.of_nat (length (m_inventory w)) + Z.of_nat n
                   <= m_inventoryMax w)) /\
  keeps staticOf w w' /\ keeps countersOf w w' /\ sameControl w w' /\
  (exists evs, trace w' = trace w ++ evs /\ Forall enqueueEvent evs).

(** What any dequeue that returns has done, ranked or not. *)
Definition shrinks w w' : Prop :=
  sameControl w w' /\
  m_inventory w' = m_inventory w /\
  m_createdThreads w' = m_createdThreads w /\
  sublist (m_assignments w') (m_assignments w) /\
  keeps staticOf w w'.

Definition shrinking
  (dq : JobPointer -> World PS -> Res (bool * World PS)) : Prop :=
  forall e w b w', dq e w = Done (b, w') -> shrinks w w'.

(** A dequeue operation after which the job is gone, where the state of the
    weaver lets jobs be dequeued and the job was queued at most once. *)
Definition removing
  (dq : JobPointer -> World PS -> Res (bool * World PS)) : Prop :=
  forall e w b w',
    dq (Some e) w = Done (b, w') ->
    NoDup (m_assignments w) -> dequeueAccepted (m_state w) = true ->
    ~ In e (m_assignments w').

(** Every job is queued at most once and the queued jobs have the status
    Queued. *)
Definition queueInv w : Prop :=
  NoDup (m_assignments w) /\
  forall j, In j (m_assignments w) -> status (jobStore w j) = Status_Queued.

(** The jobs that are still queued have the record they had, the job [skip]
    aside. *)
Definition keepsQueued (skip : JobPointer) w w' : Prop :=
  forall x, In x (m_assignments w') -> Some x <> skip ->
            jobStore w' x = jobStore w x.

Definition sparing
  (dq : JobPointer -> World PS -> Res (bool * World PS)) : Prop :=
  forall e w b w',
    dq e w = Done (b, w') -> NoDup (m_assignments w) -> keepsQueued None w w'.

Definition rankAbove (rk : JobId -> nat) (job : JobPointer) : nat :=
  match job with
  | Some j => S (rk j)
  | None => 0%nat
  end.

(** A dequeue operation that answers for every job of rank below [n]. *)
Definition answers (rk : JobId -> nat)
  (dq : JobPointer -> World PS -> Res (bool * World PS)) (n : nat) : Prop :=
  forall e w, well_nested rk w -> (rankAbove rk e <= n)%nat ->
    exists b w', dq e w = Done (b, w') /\
                 dequeueFrame rk (rankAbove rk e) (rankAbove rk e) w w'.

End Predicates.

(** The count of active workers is the number of workers that hold a job,
    and those are threads of the inventory. *)
Definition workersInv {PS : Type} (s : Sys PS) : Prop :=
  m_active (world s) = Z.of_nat (length (busy s)) /\
  NoDup (busy s) /\
  incl (busy s) (m_inventory (world s)).

(** ** More of the weaver and of the collections *)

Section MoreCode.

Context {PS : Type} `{QueuePolicy PS}.

Implicit Types w : World PS.



(** The destructor of [JobCollection]: a collection that is still bound to
    a weaver dequeues its elements. *)
Definition JobCollection_dtor (fuel : nat) (c : JobId) w : Res (World PS) :=
  d <- getPrivate c w ;;
  match api d with
  | None => Done w
  | Some _ => dequeueElements fuel false c w
  end.

(** [elementFinished] called once for every job of the list. *)
Fixpoint elementsFinished (c : JobId) (thread : ThreadId)
  (jobs : list JobPointer) w : Res (World PS) :=
  match jobs with
  | [] => Done w
  | job :: rest =>
      w1 <- elementFinished c job thread w ;;
      elementsFinished c thread rest w1
  end.

(** *** Words to state what this code does *)

(** The jobs of a vector that are not null. *)
Definition nonNull (jobs : list JobPointer) : list JobId :=
  flat_map (fun p => match p with Some j => [j] | None => [] end) jobs.

(** Stable insertion into a list sorted by priority, descending: the job
    goes in front of the first job of lower priority. *)
Fixpoint insertByPriority (pr : JobId -> Z) (job : JobId) (l : list JobId)
  : list JobId :=
  match l with
  | [] => [job]
  | x :: l' =>
      if pr x <? pr job then job :: l else x :: insertByPriority pr job l'
  end.

Definition insertAll (pr : JobId -> Z) (jobs l : list JobId) : list JobId :=
  fold_left (fun acc job => insertByPriority pr job acc) jobs l.

(** The number of threads after [k] jobs were queued with [c] threads and
    the cap [cap]. *)
Definition threadsAfter (c cap k : Z) : Z := Z.max c (Z.min cap (c + k)).

Definition isDefaultEnd (e : Event) : bool :=
  match e with
  | EvDefaultEnd _ _ => true
  | _ => false
  end.

Definition defaultEnds (evs : list Event) : nat :=
  length (filter isDefaultEnd evs).

(** The calls that [canBeExecuted] makes for [job]. *)
Definition policyEventFor (job : JobPointer) (e : Event) : Prop :=
  match e with
  | EvCanRun _ j _ | EvRelease _ j => j = job
  | _ => False
  end.

Definition policyEvent (e : Event) : Prop :=
  match e with
  | EvCanRun _ _ _ | EvRelease _ _ => True
  | _ => False
  end.

End MoreCode.

(** ** A policy and a few worlds to run the code on *)

Module Example.

(** The grants that are held: policy [p] admits at most [p] jobs at a
    time. *)
Definition Grants := list (PolicyId * JobPointer).

Definition held (p : PolicyId) (g : Grants) : nat :=
  length (filter (fun x => Nat.eqb (fst x) p) g).

Definition sameJob (a b : JobPointer) : bool :=
  match a, b with
  | Some x, Some y => Nat.eqb x y
  | None, None => true
  | _, _ => false
  end.

Fixpoint giveBack (p : PolicyId) (job : JobPointer) (g : Grants) : Grants :=
  match g with
  | [] => []
  | x :: g' =>
      if Nat.eqb (fst x) p && sameJob (snd x) job then g'
      else x :: giveBack p job g'
  end.

#[global] Instance capPolicy : QueuePolicy Grants := {
  canRun p job g :=
    if (held p g <? p)%nat then (true, (p, job) :: g) else (false, g);
  free := giveBack;
  release := giveBack }.

Definition plainJob (prio : Z) (s : Status) (policies : list PolicyId) : Job :=
  mkJob prio s policies None.

Definition collectionJob (s : Status) (policies : list PolicyId)
  (elems : list JobPointer) (a : option QueueAPI) (counter : Z)
  (me : JobPointer) (executing : bool) : Job :=
  mkJob 0 s policies (Some (mkPrivate elems a counter 0 me executing)).

(** Every job is a plain new job of priority 0 unless said otherwise. *)
Definition noJobs : JobId -> Job := fun _ => plainJob 0 Status_New [].

Definition store (l : list (JobId * Job)) : JobId -> Job :=
  fun k =>
    match find (fun x => Nat.eqb (fst x) k) l with
    | Some x => snd x
    | None => noJobs k
    end.

Definition fresh : World Grants := WeaverImpl 1 noJobs [].

(** A weaver in state [st] with [queue] as its assignments. *)
Definition weaverWith (st : StateId) (act : Z) (queue : list JobId)
  (js : JobId -> Job) : World Grants :=
  mkWorld act 4 [0%nat] queue st 1 js [] [].

(** Two queued jobs and the threads made for them, then a cap of one. *)
Definition twoQueued : Sys Grants :=
  mkSys (enqueue [Some 0%nat; Some 1%nat] fresh) [].

Definition overCap : Sys Grants :=
  mkSys (setMaximumNumberOfThreads_p 1 (world twoQueued)) [].

(** A queued collection (job 0) whose only element (job 1) is queued in
    front of it, and one more job. *)
Definition nestedJobs : JobId -> Job :=
  store [(0%nat, collectionJob Status_Queued [] [Some 1%nat] (Some TheWeaver)
                               0 None false);
         (1%nat, plainJob 0 Status_Queued []);
         (2%nat, plainJob 0 Status_Queued [])].

Definition nested : World Grants :=
  weaverWith Suspended 0 [1%nat; 0%nat; 2%nat] nestedJobs.

Definition nestedRank (j : JobId) : nat :=
  match j with
  | O => 1%nat
  | S _ => 0%nat
  end.

(** One plain job in the queue. *)
Definition oneQueued : World Grants :=
  weaverWith Suspended 0 [7%nat]
    (store [(7%nat, plainJob 0 Status_Queued [])]).

(** Priorities 5 and 3 in the queue, and a new job of priority 5. *)
Definition sortedQueue : World Grants :=
  weaverWith WorkingHard 0 [1%nat; 2%nat]
    (store [(1%nat, plainJob 5 Status_Queued []);
            (2%nat, plainJob 3 Status_Queued []);
            (3%nat, plainJob 5 Status_New [])]).

(** A collection (job 0) that a worker has picked up and whose own run is
    over: [elementFinished] is about to be called for it. *)
Definition pickedUp : World Grants :=
  weaverWith WorkingHard 1 []
    (store [(0%nat, collectionJob Status_Running [3%nat]
                      [Some 1%nat; Some 2%nat] (Some TheWeaver) 0
                      (Some 0%nat) true)]).

(** The same collection later: its two elements are queued and none has
    finished. *)
Definition elementsQueued : World Grants :=
  weaverWith WorkingHard 0 [1%nat; 2%nat]
    (store [(0%nat, collectionJob Status_Running [3%nat]
                      [Some 1%nat; Some 2%nat] (Some TheWeaver) 2
                      (Some 0%nat) false);
            (1%nat, plainJob 0 Status_Queued []);
            (2%nat, plainJob 0 Status_Queued [])]).

End Example.

(** ** More worlds *)

Module MoreExamples.

(** Priorities 5 and 3 in the queue of a working weaver; policy 0 admits no
    job at all, so the first job is refused whenever it is asked. *)
Definition refusing : World Example.Grants :=
  Example.weaverWith WorkingHard 0 [1%nat; 2%nat]
    (Example.store [(1%nat, Example.plainJob 5 Status_Queued [0%nat]);
                    (2%nat, Example.plainJob 3 Status_Queued [])]).

(** The last busy worker of a weaver whose queue is empty. *)
Definition lastWorker : World Example.Grants :=
  Example.weaverWith WorkingHard 1 [] Example.noJobs.

(** Priorities 5 and 3 in the queue, and a new job of priority 9. *)
Definition urgent : World Example.Grants :=
  Example.weaverWith WorkingHard 0 [1%nat; 2%nat]
    (Example.store [(1%nat, Example.plainJob 5 Status_Queued []);
                    (2%nat, Example.plainJob 3 Status_Queued []);
                    (3%nat, Example.plainJob 9 Status_New [])]).

(** A queued job with four policies: policies 2 and 1 admit it, policy 0
    admits nothing and refuses, and policy 3 comes after it. *)
Definition policed : World Example.Grants :=
  Example.weaverWith WorkingHard 0 [1%nat]
    (Example.store
       [(1%nat, Example.plainJob 0 Status_Queued
                  [2%nat; 1%nat; 0%nat; 3%nat])]).

End MoreExamples.

(** * Proofs *)

Lemma StateId_eqb_spec a b : reflect (a = b) (StateId_eqb a b).
Proof. destruct a, b; simpl; constructor; congruence. Qed.

Lemma StateId_eqb_eq a b : StateId_eqb a b = true <-> a = b.
Proof. destruct (StateId_eqb_spec a b); split; congruence. Qed.

Lemma isEmpty_true {A : Type} (l : list A) : QList.isEmpty l = true <-> l = [].
Proof. destruct l; simpl; split; congruence. Qed.

Section Basics.

Context {PS : Type} `{QueuePolicy PS}.

Implicit Types w : World PS.

(** C9: [isIdle_p] answers true exactly when the assignments are empty and no
    worker is active, that is, when the queue length and the active count are
    both zero. *)
Theorem isIdle_p_iff w :
  (isIdle_p w = true <-> m_assignments w = [] /\ m_active w = 0) /\
  (isIdle_p w = true <-> queueLength_p w = 0 /\ m_active w = 0).
Proof.
  unfold isIdle_p, isEmpty_p, queueLength_p.
  rewrite andb_true_iff, isEmpty_true, Z.eqb_eq.
  split; [reflexivity|].
  destruct (m_assignments w); simpl; split; intros [? ?]; split;
    try congruence; lia.
Qed.

End Basics.

(** ** Lists: sublists and sortedness *)

Section ListFacts.

Context {A : Type}.

Implicit Types l : list A.

Lemma sublist_refl l : sublist l l.
Proof. induction l; constructor; assumption. Qed.

Lemma sublist_trans l1 l2 l3 : sublist l1 l2 -> sublist l2 l3 -> sublist l1 l3.
Proof.
  intros H12 H23. revert l1 H12.
  induction H23 as [|x l2 l3 _ IH|x l2 l3 _ IH]; intros l1 H12.
  - exact H12.
  - constructor. apply IH, H12.
  - inversion H12; subst.
    + constructor. apply IH. assumption.
    + apply sublist_cons. apply IH. assumption.
Qed.

Lemma sublist_nil_l l : sublist [] l.
Proof. induction l; constructor; assumption. Qed.

Lemma sublist_In l1 l2 x : sublist l1 l2 -> In x l1 -> In x l2.
Proof.
  induction 1 as [|y l1 l2 _ IH|y l1 l2 _ IH]; simpl; intuition.
Qed.

Lemma sublist_Forall (P : A -> Prop) l1 l2 :
  sublist l1 l2 -> Forall P l2 -> Forall P l1.
Proof.
  intros Hs Hf. rewrite Forall_forall in *.
  intros x Hx. apply Hf. eapply sublist_In; eassumption.
Qed.

Lemma sublist_NoDup l1 l2 : sublist l1 l2 -> NoDup l2 -> NoDup l1.
Proof.
  induction 1 as [|y l1 l2 Hs IH|y l1 l2 Hs IH]; intros Hnd.
  - constructor.
  - inversion Hnd; subst. auto.
  - inversion Hnd; subst. constructor; [|auto].
    intro Hin. eapply sublist_In in Hin; eauto.
Qed.

Lemma sublist_StronglySorted (R : A -> A -> Prop) l1 l2 :
  sublist l1 l2 -> StronglySorted R l2 -> StronglySorted R l1.
Proof.
  induction 1 as [|y l1 l2 Hs IH|y l1 l2 Hs IH]; intros Hso.
  - constructor.
  - apply StronglySorted_inv in Hso. apply IH, Hso.
  - apply StronglySorted_inv in Hso. destruct Hso as [Hso Hall].
    constructor; [auto|]. eapply sublist_Forall; eassumption.
Qed.

Lemma removeAt_sublist i : forall l, sublist (QList.removeAt i l) l.
Proof.
  induction i as [|i IH]; intros [|x l]; simpl.
  - constructor.
  - apply sublist_skip, sublist_refl.
  - constructor.
  - apply sublist_cons, IH.
Qed.

Lemma firstn_succ_nth l : forall i c,
  nth_error l i = Some c -> firstn (S i) l = firstn i l ++ [c].
Proof.
  induction l as [|x l IH]; intros [|i] c Hn; simpl in *; try discriminate.
  - congruence.
  - f_equal. apply IH, Hn.
Qed.

Lemma StronglySorted_ext (R R' : A -> A -> Prop) l :
  (forall a b, R a b -> R' a b) -> StronglySorted R l -> StronglySorted R' l.
Proof.
  intros HR. induction 1 as [|a l _ IH Hall]; constructor; [exact IH|].
  eapply Forall_impl; [|exact Hall]. apply HR.
Qed.

Lemma StronglySorted_insert (R : A -> A -> Prop) l1 l2 a :
  StronglySorted R (l1 ++ l2) ->
  Forall (fun x => R x a) l1 -> Forall (R a) l2 ->
  StronglySorted R (l1 ++ a :: l2).
Proof.
  induction l1 as [|x l1 IH]; simpl; intros Hso H1 H2.
  - constructor; assumption.
  - apply StronglySorted_inv in Hso. destruct Hso as [Hso Hall].
    inversion H1; subst.
    constructor; [auto|].
    apply Forall_app in Hall. destruct Hall as [Ha1 Ha2].
    apply Forall_app. split; [exact Ha1|]. constructor; assumption.
Qed.

Lemma StronglySorted_before (R : A -> A -> Prop) l : forall k c,
  StronglySorted R l -> nth_error l k = Some c ->
  Forall (fun x => R x c) (firstn k l).
Proof.
  induction l as [|x l IH]; intros [|k] c Hso Hn; simpl in *;
    try discriminate; try constructor.
  - apply StronglySorted_inv in Hso. destruct Hso as [_ Hall].
    rewrite Forall_forall in Hall. apply Hall.
    eapply nth_error_In; eassumption.
  - apply StronglySorted_inv in Hso. apply IH; tauto.
Qed.

End ListFacts.

(** ** Asking the queue policies *)

Section Policies.

Context {PS : Type} `{QueuePolicy PS}.

Implicit Types w : World PS.

Lemma onlyPolicies_refl w : onlyPolicies w w.
Proof. repeat split. Qed.

Lemma onlyPolicies_trans w1 w2 w3 :
  onlyPolicies w1 w2 -> onlyPolicies w2 w3 -> onlyPolicies w1 w3.
Proof. unfold onlyPolicies; intuition congruence. Qed.

Lemma acquire_spec policies : forall job acquired w,
  let r := acquire policies job acquired w in
  onlyPolicies w (snd r) /\
  ((fst (fst r) = true /\
    snd (fst r) = acquired ++ policies /\
    trace (snd r) = trace w ++ map (granted job) policies)
   \/
   (fst (fst r) = false /\
    exists admitted refusing rest,
      policies = admitted ++ refusing :: rest /\
      snd (fst r) = acquired ++ admitted /\
      trace (snd r) =
        trace w ++ map (granted job) admitted ++ [EvCanRun refusing job false])).
Proof.
  induction policies as [|p rest IH]; intros job acquired w; simpl.
  - split; [apply onlyPolicies_refl|]. left.
    rewrite !app_nil_r. auto.
  - destruct (canRun p job (policyState w)) as [ok ps'] eqn:E; simpl.
    destruct ok.
    + specialize (IH job (acquired ++ [p])
                     (emit (EvCanRun p job true) (set_policyState ps' w))).
      simpl in IH. destruct IH as [Hf IH]. split.
      * eapply onlyPolicies_trans; [|exact Hf]. repeat split.
      * destruct IH as [(Hok & Hacq & Htr) | (Hok & adm & refu & rs & Hp & Hacq & Htr)].
        -- left. split; [exact Hok|]. split.
           ++ etransitivity; [exact Hacq|]. now rewrite <- app_assoc.
           ++ etransitivity; [exact Htr|]. now rewrite <- app_assoc.
        -- right. split; [exact Hok|].
           exists (p :: adm), refu, rs. split; [now rewrite Hp|]. split.
           ++ etransitivity; [exact Hacq|]. now rewrite <- app_assoc.
           ++ etransitivity; [exact Htr|]. now rewrite <- !app_assoc.
    + split; [repeat split|]. right. split; [reflexivity|].
      exists [], p, rest. simpl. rewrite app_nil_r. auto.
Qed.

Lemma releaseAll_spec acquired : forall job w,
  onlyPolicies w (releaseAll acquired job w) /\
  trace (releaseAll acquired job w) = trace w ++ map (released job) acquired.
Proof.
  induction acquired as [|p rest IH]; intros job w; simpl.
  - split; [apply onlyPolicies_refl | now rewrite app_nil_r].
  - destruct (IH job (emit (EvRelease p job)
                        (set_policyState (release p job (policyState w)) w)))
      as [Hf Htr].
    split.
    + eapply onlyPolicies_trans; [|exact Hf]. repeat split.
    + rewrite Htr. simpl. rewrite <- app_assoc. reflexivity.
Qed.

Lemma canBeExecuted_frame job w : onlyPolicies w (snd (canBeExecuted job w)).
Proof.
  unfold canBeExecuted.
  destruct (QList.isEmpty (queuePolicies (jobStore w job))).
  - apply onlyPolicies_refl.
  - pose proof (acquire_spec (queuePolicies (jobStore w job)) (Some job) [] w)
      as [Hf _].
    destruct (acquire (queuePolicies (jobStore w job)) (Some job) [] w)
      as [[ok acq] w1]. simpl in *.
    destruct ok; simpl; [exact Hf|].
    eapply onlyPolicies_trans; [exact Hf|]. apply releaseAll_spec.
Qed.

(** The answers of the policies and the state they leave. *)
Lemma acquire_states policies : forall job acquired w,
  let r := acquire policies job acquired w in
  (fst (fst r) = true /\
   admitInTurn job policies (policyState w) = Some (policyState (snd r)) /\
   trace (snd r) = trace w ++ map (granted job) policies)
  \/
  (fst (fst r) = false /\
   exists admitted refusing rest ps1,
     policies = admitted ++ refusing :: rest /\
     snd (fst r) = acquired ++ admitted /\
     admitInTurn job admitted (policyState w) = Some ps1 /\
     canRun refusing job ps1 = (false, policyState (snd r)) /\
     trace (snd r) =
       trace w ++ map (granted job) admitted ++ [EvCanRun refusing job false]).
Proof.
  induction policies as [|p rest IH]; intros job acquired w.
  - left. simpl. rewrite app_nil_r. auto.
  - cbn [acquire admitInTurn]. cbv zeta.
    destruct (canRun p job (policyState w)) as [ok ps'] eqn:E.
    cbn [fst snd]. destruct ok.
    + specialize (IH job (acquired ++ [p])
                     (emit (EvCanRun p job true) (set_policyState ps' w))).
      cbv zeta in IH.
      replace (policyState
                 (emit (EvCanRun p job true) (set_policyState ps' w)))
        with ps' in IH by reflexivity.
      replace (trace (emit (EvCanRun p job true) (set_policyState ps' w)))
        with (trace w ++ [EvCanRun p job true]) in IH by reflexivity.
      destruct IH as [(Hok & Hadm & Htr)
                     | (Hok & adm & refu & rs & ps1 & Hp & Hacq & Hadm & Hrun
                        & Htr)].
      * left. split; [exact Hok|]. split; [exact Hadm|].
        rewrite Htr, <- app_assoc. reflexivity.
      * right. split; [exact Hok|].
        exists (p :: adm), refu, rs, ps1.
        split; [now rewrite Hp|].
        split; [rewrite Hacq, <- app_assoc; reflexivity|].
        split; [cbn [admitInTurn]; rewrite E; exact Hadm|].
        split; [exact Hrun|].
        rewrite Htr, <- !app_assoc. reflexivity.
    + right. split; [reflexivity|].
      exists [], p, rest, (policyState w).
      split; [reflexivity|]. split; [now rewrite app_nil_r|].
      split; [reflexivity|]. split; [exact E|]. reflexivity.
Qed.

Lemma releaseAll_state acquired : forall job w,
  policyState (releaseAll acquired job w)
  = releaseInTurn job acquired (policyState w).
Proof.
  induction acquired as [|p rest IH]; intros job w; simpl; [reflexivity|].
  rewrite IH. reflexivity.
Qed.

(** C3: [canBeExecuted] asks the policies of the job in the order of the
    list, each one in the state that the one before it has left.  Either
    all of them admit the job: then the answer is true, every policy was
    asked once, in order, none was released, and the policies are left in
    the state in which all of them are acquired (so with no policy at all
    the answer is true and nothing happens).  Or there is a first policy
    that refuses: then the answer is false, the policies after it were not
    asked, and [release] was called for exactly the policies that admitted
    the job before it, after the refusal.  Nothing but the policies is
    touched. *)
Theorem canBeExecuted_policy_order (job : JobId) w :
  let policies := queuePolicies (jobStore w job) in
  let r := canBeExecuted job w in
  (policies = [] -> r = (true, w)) /\
  ((exists ps',
      admitInTurn (Some job) policies (policyState w) = Some ps' /\
      fst r = true /\
      policyState (snd r) = ps' /\
      trace (snd r) = trace w ++ map (granted (Some job)) policies)
   \/
   (exists admitted refusing rest ps1 ps2,
      policies = admitted ++ refusing :: rest /\
      admitInTurn (Some job) admitted (policyState w) = Some ps1 /\
      canRun refusing (Some job) ps1 = (false, ps2) /\
      fst r = false /\
      policyState (snd r) = releaseInTurn (Some job) admitted ps2 /\
      trace (snd r) =
        trace w ++ map (granted (Some job)) admitted
                ++ [EvCanRun refusing (Some job) false]
                ++ map (released (Some job)) admitted)) /\
  onlyPolicies w (snd r).
Proof.
  intros policies r. subst r.
  split; [|split; [|apply canBeExecuted_frame]].
  - unfold canBeExecuted. fold policies. intros ->. reflexivity.
  - unfold canBeExecuted. fold policies.
    destruct policies as [|p rest] eqn:Ep.
    + left. exists (policyState w). simpl. rewrite app_nil_r. auto.
    + rewrite <- Ep. replace (QList.isEmpty policies) with false
        by (rewrite Ep; reflexivity).
      pose proof (acquire_states policies (Some job) [] w) as Hacq.
      destruct (acquire policies (Some job) [] w) as [[ok acq] w1].
      cbv zeta in Hacq. cbn [fst snd] in Hacq.
      destruct Hacq as [(Hok & Hadm & Htr)
                       | (Hok & adm & refu & rs & ps1 & Hp & Hacq & Hadm
                          & Hrun & Htr)];
        subst ok; cbn [fst snd].
      * left. exists (policyState w1). auto.
      * right. exists adm, refu, rs, ps1, (policyState w1).
        split; [exact Hp|]. split; [exact Hadm|]. split; [exact Hrun|].
        split; [reflexivity|].
        cbn [app] in Hacq. subst acq.
        split; [apply releaseAll_state|].
        destruct (releaseAll_spec adm (Some job) w1) as [_ Hrel].
        rewrite Hrel, Htr, <- !app_assoc. reflexivity.
Qed.

End Policies.

(** ** Handing a job to a worker *)

Section WorkerAssignment.

Context {PS : Type} `{QueuePolicy PS}.

Implicit Types w : World PS.

Lemma removeAt_middle {A : Type} (l1 : list A) x l2 :
  QList.removeAt (length l1) (l1 ++ x :: l2) = l1 ++ l2.
Proof. induction l1 as [|y l1 IH]; simpl; [reflexivity | now rewrite IH]. Qed.

Lemma firstAvailable_spec candidates : forall index w,
  let r := firstAvailable candidates index w in
  onlyPolicies w (snd r) /\
  match fst r with
  | Some (next, i) =>
      exists refused rest w2,
        candidates = refused ++ next :: rest /\
        refusedInTurn refused w = Some w2 /\
        canBeExecuted next w2 = (true, snd r) /\
        i = (index + length refused)%nat
  | None => refusedInTurn candidates w = Some (snd r)
  end.
Proof.
  induction candidates as [|c rest IH]; intros index w; simpl.
  - split; [apply onlyPolicies_refl | reflexivity].
  - pose proof (canBeExecuted_frame c w) as Hc.
    destruct (canBeExecuted c w) as [ok w1] eqn:E; simpl in *.
    destruct ok; simpl.
    + split; [exact Hc|].
      exists [], rest, w. simpl. rewrite Nat.add_0_r. auto.
    + destruct (IH (S index) w1) as [Hf IH']. split.
      * eapply onlyPolicies_trans; eassumption.
      * destruct (fst (firstAvailable rest (S index) w1)) as [[next i]|].
        -- destruct IH' as (refused & rs & w2 & Hl & Hr & Hn & Hi).
           exists (c :: refused), rs, w2. simpl. rewrite E. simpl.
           subst rest i. repeat split; auto; lia.
        -- exact IH'.
Qed.

Lemma decActiveThreadCount_fields w :
  let w1 := decActiveThreadCount w in
  m_assignments w1 = m_assignments w /\
  m_state w1 = m_state w /\
  m_active w1 = m_active w - 1 /\
  m_inventory w1 = m_inventory w /\
  m_inventoryMax w1 = m_inventoryMax w /\
  m_createdThreads w1 = m_createdThreads w /\
  jobStore w1 = jobStore w.
Proof.
  unfold decActiveThreadCount, adjustActiveThreadCount. simpl.
  destruct (QList.isEmpty (m_assignments w) && (m_active w + -1 =? 0));
    simpl; repeat split; lia.
Qed.

Lemma incActiveThreadCount_fields w :
  let w1 := incActiveThreadCount w in
  m_assignments w1 = m_assignments w /\
  m_state w1 = m_state w /\
  m_active w1 = m_active w + 1 /\
  m_inventory w1 = m_inventory w /\
  m_inventoryMax w1 = m_inventoryMax w /\
  m_createdThreads w1 = m_createdThreads w /\
  jobStore w1 = jobStore w.
Proof.
  unfold incActiveThreadCount, adjustActiveThreadCount. simpl.
  destruct (QList.isEmpty (m_assignments w) && (m_active w + 1 =? 0));
    simpl; repeat split; lia.
Qed.

Lemma setState_p_fields id w :
  let w1 := setState_p id w in
  m_assignments w1 = m_assignments w /\
  m_state w1 = id /\
  m_active w1 = m_active w /\
  m_inventory w1 = m_inventory w /\
  m_inventoryMax w1 = m_inventoryMax w /\
  m_createdThreads w1 = m_createdThreads w /\
  jobStore w1 = jobStore w.
Proof.
  unfold setState_p.
  destruct (StateId_eqb (m_state w) id); [simpl; repeat split|].
  destruct (StateId_eqb id Suspended); simpl; repeat split.
Qed.

(** C1, as the code has it: [suspendIfInactive] gates the transition to
    Suspended and [justReturning] keeps a worker from being given a job.
    With [w1] the world after the decrement for a worker that was busy:
    if [suspendIfInactive] is set, the state is Suspending and no worker is
    active, the weaver becomes Suspended and no job is returned; otherwise,
    if the state is not WorkingHard or [justReturning] is set, no job is
    returned and nothing else changes; otherwise the candidates are asked in
    the order of the assignments, the first one that can be executed is
    removed, the active count grows by one and that job is returned, and if
    every candidate is refused the worker blocks and no job is returned. *)
Theorem takeFirstAvailableJobOrSuspendOrWait_spec
  (th : ThreadId) (threadWasBusy suspendIfInactive justReturning : bool) w :
  let w1 := if threadWasBusy then decActiveThreadCount w else w in
  let r := takeFirstAvailableJobOrSuspendOrWait
             th threadWasBusy suspendIfInactive justReturning w in
  (m_assignments w1 = m_assignments w /\ m_state w1 = m_state w /\
   m_active w1 = if threadWasBusy then m_active w - 1 else m_active w) /\
  (suspendIfInactive = true -> m_state w = Suspending -> m_active w1 = 0 ->
   r = (None, setState_p Suspended w1) /\
   m_state (snd r) = Suspended /\
   m_assignments (snd r) = m_assignments w) /\
  (suspendIfInactive = false \/ m_state w <> Suspending \/ m_active w1 <> 0 ->
   m_state w <> WorkingHard \/ justReturning = true ->
   r = (None, w1)) /\
  (m_state w = WorkingHard -> justReturning = false ->
   (exists refused next rest w2 w3,
      m_assignments w = refused ++ next :: rest /\
      refusedInTurn refused w1 = Some w2 /\
      canBeExecuted next w2 = (true, w3) /\
      fst r = Some next /\
      m_assignments (snd r) = refused ++ rest /\
      m_active (snd r) = m_active w1 + 1)
   \/
   (exists w2,
      refusedInTurn (m_assignments w) w1 = Some w2 /\
      r = (None, blockThreadUntilJobsAreBeingAssigned_locked th w2) /\
      m_assignments (snd r) = m_assignments w)).
Proof.
  intros w1 r.
  assert (Hw1 : m_assignments w1 = m_assignments w /\ m_state w1 = m_state w /\
                m_active w1 = if threadWasBusy then m_active w - 1 else m_active w).
  { subst w1. destruct threadWasBusy; [|auto].
    pose proof (decActiveThreadCount_fields w) as Hd. simpl in Hd.
    intuition. }
  destruct Hw1 as (Ha & Hs & Hact).
  split; [auto|].
  subst r. unfold takeFirstAvailableJobOrSuspendOrWait. fold w1.
  split; [|split].
  - intros -> Hst H0.
    rewrite H0, Hs, Hst. simpl.
    pose proof (setState_p_fields Suspended w1) as Hf. simpl in Hf.
    intuition congruence.
  - intros Hno Hret.
    replace (suspendIfInactive && (m_active w1 =? 0)
             && StateId_eqb (m_state w1) Suspending) with false.
    + replace (negb (StateId_eqb (m_state w1) WorkingHard) || justReturning)
        with true; [reflexivity|].
      symmetry. apply orb_true_iff. destruct Hret as [Hne | ->]; [left | now right].
      rewrite Hs. destruct (StateId_eqb_spec (m_state w) WorkingHard);
        [contradiction | reflexivity].
    + symmetry. rewrite Hs.
      destruct Hno as [-> | [Hne | Hne]]; [reflexivity | |].
      * destruct (StateId_eqb_spec (m_state w) Suspending);
          [contradiction | now rewrite andb_false_r].
      * apply Z.eqb_neq in Hne. rewrite Hne. now rewrite andb_false_r.
  - intros Hst ->.
    rewrite Hs, Hst. simpl. rewrite andb_false_r. simpl.
    pose proof (firstAvailable_spec (m_assignments w1) 0 w1) as [Hf Hfirst].
    simpl in Hfirst.
    destruct (firstAvailable (m_assignments w1) 0 w1) as [[[next i]|] w2];
      simpl in *.
    + left. destruct Hfirst as (refused & rest & w0 & Hl & Hr & Hc & Hi).
      exists refused, next, rest, w0, w2.
      pose proof (incActiveThreadCount_fields
                    (set_assignments (QList.removeAt i (m_assignments w2)) w2))
        as Hinc. simpl in Hinc.
      destruct Hinc as (Hia & _ & Hiact & _).
      destruct Hf as (Hfa & _ & _ & Hfas & _).
      split; [congruence|]. split; [exact Hr|]. split; [exact Hc|].
      split; [reflexivity|]. split.
      * rewrite Hia, Hfas, Hl, Hi. apply removeAt_middle.
      * rewrite Hiact. congruence.
    + right. exists w2. rewrite <- Ha. repeat split; [exact Hfirst|].
      simpl. apply Hf.
Qed.

Lemma takeFirstAvailableJobOrSuspendOrWait_frame
  (th : ThreadId) (threadWasBusy suspendIfInactive justReturning : bool) w :
  let r := takeFirstAvailableJobOrSuspendOrWait
             th threadWasBusy suspendIfInactive justReturning w in
  sublist (m_assignments (snd r)) (m_assignments w) /\
  jobStore (snd r) = jobStore w /\
  m_inventory (snd r) = m_inventory w /\
  m_inventoryMax (snd r) = m_inventoryMax w /\
  m_createdThreads (snd r) = m_createdThreads w /\
  m_active (snd r) =
    m_active w - (if threadWasBusy then 1 else 0)
    + (match fst r with Some _ => 1 | None => 0 end).
Proof.
  intros r. subst r. unfold takeFirstAvailableJobOrSuspendOrWait.
  set (w1 := if threadWasBusy then decActiveThreadCount w else w).
  assert (H1 : m_assignments w1 = m_assignments w /\
               jobStore w1 = jobStore w /\
               m_inventory w1 = m_inventory w /\
               m_inventoryMax w1 = m_inventoryMax w /\
               m_createdThreads w1 = m_createdThreads w /\
               m_active w1 = m_active w - (if threadWasBusy then 1 else 0)).
  { subst w1. destruct threadWasBusy.
    - pose proof (decActiveThreadCount_fields w) as Hd. cbv zeta in Hd.
      intuition.
    - repeat split. lia. }
  destruct H1 as (Ha & Hj & Hi & Hm & Hc & Hact).
  destruct (suspendIfInactive && (m_active w1 =? 0)
            && StateId_eqb (m_state w1) Suspending).
  { pose proof (setState_p_fields Suspended w1) as Hf. cbv zeta in Hf.
    destruct Hf as (Hfa & _ & Hfact & Hfi & Hfm & Hfc & Hfj). cbn [fst snd].
    rewrite Hfa, Hfj, Hfi, Hfm, Hfc, Hfact, Ha.
    repeat split; auto using sublist_refl. lia. }
  destruct (negb (StateId_eqb (m_state w1) WorkingHard) || justReturning).
  { cbn [fst snd]. rewrite Ha. repeat split; auto using sublist_refl. lia. }
  pose proof (firstAvailable_spec (m_assignments w1) 0 w1) as [Hf _].
  cbv zeta in Hf.
  destruct (firstAvailable (m_assignments w1) 0 w1) as [[[next i]|] w2];
    cbn [fst snd] in *;
    destruct Hf as (Hfact & Hfm & Hfi & Hfa & _ & Hfc & Hfj).
  - pose proof (incActiveThreadCount_fields
                  (set_assignments (QList.removeAt i (m_assignments w2)) w2))
      as Hinc. cbv zeta in Hinc.
    destruct Hinc as (Hia & _ & Hiact & Hii & Him & Hic & Hij).
    rewrite Hia, Hiact, Hii, Him, Hic, Hij. simpl.
    rewrite Hfa, Ha.
    repeat split; try congruence; try lia; apply removeAt_sublist.
  - simpl. rewrite Hfa, Ha.
    repeat split; try congruence; try lia; apply sublist_refl.
Qed.

End WorkerAssignment.

(** The frame of a call of [takeFirstAvailableJobOrSuspendOrWait] that is
    among the hypotheses. *)
Ltac take_frame Hf :=
  match goal with
  | Ht : takeFirstAvailableJobOrSuspendOrWait ?t ?b ?x ?y ?w0 = _ |- _ =>
      pose proof (takeFirstAvailableJobOrSuspendOrWait_frame t b x y w0) as Hf;
      cbv zeta in Hf; rewrite Ht in Hf; cbn [fst snd] in Hf
  end.

(** The fields that [setState_p] leaves alone. *)
Ltac state_frame id w Hf :=
  pose proof (setState_p_fields id w) as Hf; cbv zeta in Hf.

(** C1, as it is worded, fails: in the state Suspending with no worker
    active, a call that does not set [suspendIfInactive] leaves the state as
    it is; and in the state WorkingHard a call that sets [justReturning]
    returns no job although the first candidate could be executed. *)
Lemma takeFirstAvailableJob_flags_matter :
  let w := Example.weaverWith Suspending 0 [] Example.noJobs in
  let w' := Example.weaverWith WorkingHard 0 [5%nat] Example.noJobs in
  (m_state w = Suspending /\ m_active w = 0 /\
   m_state (snd (takeFirstAvailableJobOrSuspendOrWait 0%nat false false false w))
   = Suspending) /\
  (m_state w' = WorkingHard /\ fst (canBeExecuted 5%nat w') = true /\
   takeFirstAvailableJobOrSuspendOrWait 0%nat false false true w' = (None, w')).
Proof. repeat split. Qed.

(** The amended C1 at a queue of two jobs of which the first is refused. *)
Lemma takeFirstAvailableJobOrSuspendOrWait_spec_witness :
  let w := Example.weaverWith WorkingHard 0 [1%nat; 2%nat]
             (Example.store [(1%nat, Example.plainJob 0 Status_Queued [0%nat])]) in
  m_state w = WorkingHard /\
  fst (takeFirstAvailableJobOrSuspendOrWait 0%nat false false false w)
  = Some 2%nat.
Proof.
  intro w. split; [reflexivity|].
  destruct (takeFirstAvailableJobOrSuspendOrWait_spec 0%nat false false false w)
    as (_ & _ & _ & Hwalk).
  destruct (Hwalk eq_refl eq_refl)
    as [(refused & next & rest & w2 & w3 & _ & _ & _ & Hr & _) | (w2 & _ & Hr & _)].
  - rewrite Hr. f_equal. vm_compute in Hr. congruence.
  - vm_compute in Hr. discriminate Hr.
Defined.

(** ** Queueing jobs *)

Section Enqueue.

Context {PS : Type} `{QueuePolicy PS}.

Implicit Types w : World PS.

Lemma insertPosition_le w job i : (insertPosition w job i <= i)%nat.
Proof.
  induction i as [|i IH]; simpl; [lia|].
  destruct (nth_error (m_assignments w) i) as [c|]; [|lia].
  destruct (priority (jobStore w c) <? priority (jobStore w job)); lia.
Qed.

Lemma insertPosition_after w job i :
  (i <= length (m_assignments w))%nat ->
  Forall (fun x => prio w x < prio w job)
         (skipn (insertPosition w job i) (firstn i (m_assignments w))).
Proof.
  induction i as [|i IH]; intros Hi; cbn [insertPosition].
  - constructor.
  - destruct (nth_error (m_assignments w) i) as [c|] eqn:En.
    + destruct (priority (jobStore w c) <? priority (jobStore w job)) eqn:Ep.
      * rewrite (firstn_succ_nth _ _ _ En), skipn_app.
        apply Forall_app. split; [apply IH; lia|].
        rewrite length_firstn.
        pose proof (insertPosition_le w job i).
        replace (insertPosition w job i - Nat.min i (length (m_assignments w)))%nat
          with 0%nat by lia.
        simpl. constructor; [|constructor].
        apply Z.ltb_lt in Ep. exact Ep.
      * assert (Hlen : length (firstn (S i) (m_assignments w)) = S i)
          by (rewrite length_firstn; lia).
        rewrite <- Hlen at 1. rewrite skipn_all. constructor.
    + apply nth_error_None in En. lia.
Qed.

Lemma insertPosition_before w job i :
  (i <= length (m_assignments w))%nat ->
  insertPosition w job i = 0%nat \/
  exists c, nth_error (m_assignments w) (pred (insertPosition w job i)) = Some c
            /\ prio w job <= prio w c.
Proof.
  induction i as [|i IH]; intros Hi; simpl; [now left|].
  destruct (nth_error (m_assignments w) i) as [c|] eqn:En.
  - destruct (priority (jobStore w c) <? priority (jobStore w job)) eqn:Ep.
    + apply IH. lia.
    + right. exists c. simpl. split; [exact En|].
      apply Z.ltb_ge in Ep. exact Ep.
  - apply nth_error_None in En. lia.
Qed.

Lemma keeps_refl {T : Type} (f : Job -> T) w : keeps f w w.
Proof. intro j. reflexivity. Qed.

Lemma keeps_trans {T : Type} (f : Job -> T) w1 w2 w3 :
  keeps f w1 w2 -> keeps f w2 w3 -> keeps f w1 w3.
Proof. intros H12 H23 j. rewrite H23. apply H12. Qed.

Lemma keeps_static_prio w w' j : keeps staticOf w w' -> prio w' j = prio w j.
Proof. intros Hk. specialize (Hk j). unfold staticOf, prio in *. congruence. Qed.

Lemma keeps_static_policies w w' j :
  keeps staticOf w w' ->
  queuePolicies (jobStore w' j) = queuePolicies (jobStore w j).
Proof. intros Hk. specialize (Hk j). unfold staticOf in *. congruence. Qed.

Lemma keeps_static_elements w w' c :
  keeps staticOf w w' -> elementsOf w' c = elementsOf w c.
Proof.
  intros Hk. specialize (Hk c). unfold staticOf, elementsOf in *.
  destruct (collection (jobStore w' c)), (collection (jobStore w c));
    simpl in Hk; congruence.
Qed.

Lemma keeps_static_collection w w' c :
  keeps staticOf w w' ->
  (collection (jobStore w' c) = None <-> collection (jobStore w c) = None).
Proof.
  intros Hk. specialize (Hk c). unfold staticOf in *.
  destruct (collection (jobStore w' c)), (collection (jobStore w c));
    simpl in Hk; split; congruence.
Qed.

Lemma sameControl_refl w : sameControl w w.
Proof. repeat split. Qed.

Lemma sameControl_trans w1 w2 w3 :
  sameControl w1 w2 -> sameControl w2 w3 -> sameControl w1 w3.
Proof. unfold sameControl. intuition congruence. Qed.

Lemma prio_sorted_transfer w w' :
  keeps staticOf w w' -> sublist (m_assignments w') (m_assignments w) ->
  prio_sorted w -> prio_sorted w'.
Proof.
  unfold prio_sorted. intros Hk Hs Hso.
  eapply sublist_StronglySorted in Hso; [|exact Hs].
  eapply StronglySorted_ext; [|exact Hso].
  intros a b. simpl. rewrite !(keeps_static_prio w w') by exact Hk. auto.
Qed.

(** *** The inventory *)

Lemma adjustInventory_loop_spec n : forall w,
  let w' := adjustInventory_loop n w in
  m_inventory w' = m_inventory w ++ seq (m_createdThreads w) n /\
  m_createdThreads w' = (m_createdThreads w + n)%nat /\
  m_assignments w' = m_assignments w /\
  jobStore w' = jobStore w /\
  policyState w' = policyState w /\
  sameControl w w'.
Proof.
  induction n as [|n IH]; intros w; simpl.
  - rewrite app_nil_r, Nat.add_0_r. repeat split.
  - specialize (IH (set_createdThreads (S (m_createdThreads w))
                     (emit (EvStartThread (createThread w))
                        (set_inventory (m_inventory w ++ [createThread w]) w)))).
    simpl in IH. destruct IH as (Hi & Hc & Ha & Hj & Hp & Hs).
    rewrite Hi, Hc, Ha, Hj, Hp. unfold createThread.
    rewrite <- app_assoc. simpl.
    repeat split; try lia; apply Hs.
Qed.

Lemma adjustInventory_spec numberOfNewJobs w :
  let w' := adjustInventory numberOfNewJobs w in
  (exists n,
     m_inventory w' = m_inventory w ++ seq (m_createdThreads w) n /\
     m_createdThreads w' = (m_createdThreads w + n)%nat /\
     (n = 0%nat \/ Z.of_nat (length (m_inventory w)) + Z.of_nat n
                   <= m_inventoryMax w)) /\
  m_assignments w' = m_assignments w /\
  jobStore w' = jobStore w /\
  policyState w' = policyState w /\
  sameControl w w'.
Proof.
  unfold adjustInventory.
  destruct (0 <? m_inventoryMax w - Z.of_nat (length (m_inventory w))) eqn:Er.
  - pose proof (adjustInventory_loop_spec
                  (Z.to_nat (Z.min (m_inventoryMax w
                                    - Z.of_nat (length (m_inventory w)))
                                   numberOfNewJobs)) w) as Hl.
    simpl in Hl. destruct Hl as (Hi & Hc & Hrest).
    split; [|exact Hrest].
    eexists. split; [exact Hi|]. split; [exact Hc|].
    apply Z.ltb_lt in Er. right. lia.
  - split; [|repeat split].
    exists 0%nat. simpl. rewrite app_nil_r, Nat.add_0_r. auto.
Qed.

(** *** One job *)

Lemma insertPosition_split w job :
  let l := m_assignments w in
  let k := insertPosition w job (length l) in
  Forall (fun x => prio w x < prio w job) (skipn k l) /\
  (prio_sorted w -> Forall (fun x => prio w job <= prio w x) (firstn k l)).
Proof.
  intros l k. split.
  - pose proof (insertPosition_after w job (length l) (Nat.le_refl _)) as Ha.
    fold l in Ha. rewrite firstn_all in Ha. exact Ha.
  - intros Hso.
    destruct (insertPosition_before w job (length l) (Nat.le_refl _))
      as [Hk | (c & Hn & Hp)]; fold l k in Hk || fold l k in Hn.
    + rewrite Hk. constructor.
    + destruct k as [|k']; [constructor|]. simpl in Hn.
      rewrite (firstn_succ_nth _ _ _ Hn).
      apply Forall_app. split.
      * pose proof (StronglySorted_before _ _ _ _ Hso Hn) as Hb.
        eapply Forall_impl; [|exact Hb]. simpl. intros x Hx. lia.
      * constructor; [exact Hp | constructor].
Qed.

Lemma updJob_static (j : JobId) (f : Job -> Job) w :
  (forall job, staticOf (f job) = staticOf job) ->
  keeps staticOf w (updJob j f w).
Proof.
  intros Hf k. simpl. destruct (Nat.eqb k j); [apply Hf | reflexivity].
Qed.

Lemma updJob_counters (j : JobId) (f : Job -> Job) w :
  (forall job, countersOf (f job) = countersOf job) ->
  keeps countersOf w (updJob j f w).
Proof.
  intros Hf k. simpl. destruct (Nat.eqb k j); [apply Hf | reflexivity].
Qed.

Lemma updJob_other (j : JobId) (f : Job -> Job) w k :
  k <> j -> jobStore (updJob j f w) k = jobStore w k.
Proof.
  intros Hk. simpl. destruct (Nat.eqb_spec k j); [contradiction | reflexivity].
Qed.

Lemma updJob_same (j : JobId) (f : Job -> Job) w :
  jobStore (updJob j f w) j = f (jobStore w j).
Proof. simpl. now rewrite Nat.eqb_refl. Qed.

Lemma static_private (f : CollectionPrivate -> CollectionPrivate) job :
  (forall d, elements (f d) = elements d) ->
  staticOf (mkJob (priority job) (status job) (queuePolicies job)
                  (option_map f (collection job))) = staticOf job.
Proof.
  intros Hf. unfold staticOf. simpl.
  destruct (collection job); simpl; [rewrite Hf|]; reflexivity.
Qed.

Lemma enqueueJob_spec job w :
  let w' := enqueueJob job w in
  (exists before after,
     m_assignments w = before ++ after /\
     m_assignments w' = before ++ job :: after /\
     Forall (fun x => prio w x < prio w job) after /\
     (prio_sorted w -> Forall (fun x => prio w job <= prio w x) before)) /\
  (exists n,
     m_inventory w' = m_inventory w ++ seq (m_createdThreads w) n /\
     m_createdThreads w' = (m_createdThreads w + n)%nat /\
     (n = 0%nat \/ Z.of_nat (length (m_inventory w)) + Z.of_nat n
                   <= m_inventoryMax w)) /\
  keeps staticOf w w' /\ keeps countersOf w w' /\ sameControl w w' /\
  status (jobStore w' job) = Status_Queued /\
  (forall k, k <> job -> jobStore w' k = jobStore w k).
Proof.
  intros w'. subst w'. unfold enqueueJob.
  pose proof (adjustInventory_spec 1 w) as Hadj. simpl in Hadj.
  destruct Hadj as (Hinv & Ha1 & Hj1 & _ & Hc1).
  set (w1 := adjustInventory 1 w) in *.
  set (w2 := aboutToBeQueued job w1).
  assert (Ha2 : m_assignments w2 = m_assignments w) by (simpl; exact Ha1).
  assert (Hk2 : keeps staticOf w w2).
  { intro k. subst w2. unfold aboutToBeQueued, updPrivate. simpl.
    rewrite Hj1. destruct (Nat.eqb k job); [|reflexivity].
    apply static_private. reflexivity. }
  assert (Hprio : forall x, prio w2 x = prio w x)
    by (intro x; apply keeps_static_prio, Hk2).
  destruct (insertPosition_split w2 job) as [Hafter Hbefore].
  set (k := insertPosition w2 job (length (m_assignments w2))) in *.
  split; [|split; [|split; [|split; [|split; [|split]]]]].
  - exists (firstn k (m_assignments w2)), (skipn k (m_assignments w2)).
    split; [rewrite firstn_skipn; congruence|]. split.
    + destruct (0 <? length (m_assignments w2))%nat eqn:El; simpl.
      * reflexivity.
      * apply Nat.ltb_ge in El.
        assert (Hl : m_assignments w2 = []).
        { destruct (m_assignments w2); simpl in El; [reflexivity | lia]. }
        unfold k. rewrite Hl. simpl in Hl. rewrite Hl. reflexivity.
    + split.
      * eapply Forall_impl; [|exact Hafter]. simpl. intros x.
        now rewrite !Hprio.
      * intros Hso. eapply Forall_impl; [|apply Hbefore].
        -- simpl. intros x. now rewrite !Hprio.
        -- eapply prio_sorted_transfer; [exact Hk2 | | exact Hso].
           rewrite Ha2. apply sublist_refl.
  - destruct (0 <? length (m_assignments w2))%nat; simpl; exact Hinv.
  - intro x. destruct (0 <? length (m_assignments w2))%nat; simpl;
      rewrite Hj1; (destruct (Nat.eqb x job); [|reflexivity]);
      unfold staticOf; simpl;
      destruct (collection (jobStore w x)); reflexivity.
  - intro x. destruct (0 <? length (m_assignments w2))%nat; simpl;
      rewrite Hj1; (destruct (Nat.eqb x job); [|reflexivity]);
      unfold countersOf; simpl;
      destruct (collection (jobStore w x)); reflexivity.
  - destruct (0 <? length (m_assignments w2))%nat; simpl; exact Hc1.
  - destruct (0 <? length (m_assignments w2))%nat; simpl;
      now rewrite Nat.eqb_refl.
  - intros x Hx.
    destruct (0 <? length (m_assignments w2))%nat; simpl;
      rewrite Hj1; destruct (Nat.eqb_spec x job); congruence.
Qed.

End Enqueue.

(** *** A batch of jobs *)

Section EnqueueBatch.

Context {PS : Type} `{QueuePolicy PS}.

Implicit Types w : World PS.

Lemma grows_refl w : grows w w.
Proof.
  unfold grows. split; [|repeat split].
  - exists 0%nat. simpl. rewrite app_nil_r, Nat.add_0_r. auto.
  - exists []. rewrite app_nil_r. auto.
Qed.

Lemma grows_trans w1 w2 w3 : grows w1 w2 -> grows w2 w3 -> grows w1 w3.
Proof.
  intros ((n & Hi & Hc & Hn) & Hk & Hk' & Hs & (e1 & He1 & Hf1))
         ((m & Hi' & Hc' & Hm) & Hk2 & Hk2' & Hs' & (e2 & He2 & Hf2)).
  unfold grows. split; [|split; [|split; [|split]]].
  - exists (n + m)%nat. rewrite Hi', Hc', Hi, Hc.
    rewrite <- app_assoc, seq_app. split; [reflexivity|]. split; [lia|].
    destruct Hs as (_ & Hmax & _).
    rewrite Hi, Hmax in Hm. rewrite length_app, length_seq in Hm.
    destruct Hm as [-> | Hm]; [|right; lia].
    destruct Hn as [-> | Hn]; [now left | right; lia].
  - eapply keeps_trans; eassumption.
  - eapply keeps_trans; eassumption.
  - eapply sameControl_trans; eassumption.
  - exists (e1 ++ e2). rewrite He2, He1, app_assoc. split; [reflexivity|].
    apply Forall_app. auto.
Qed.

Lemma enqueueJob_trace job w :
  exists evs, trace (enqueueJob job w) = trace w ++ evs /\
              Forall enqueueEvent evs.
Proof.
  unfold enqueueJob.
  assert (Hadj : forall n w0, exists evs,
             trace (adjustInventory_loop n w0) = trace w0 ++ evs /\
             Forall enqueueEvent evs).
  { induction n as [|n IH]; intros w0; simpl.
    - exists []. rewrite app_nil_r. auto.
    - destruct (IH (set_createdThreads (S (m_createdThreads w0))
                      (emit (EvStartThread (createThread w0))
                         (set_inventory (m_inventory w0 ++ [createThread w0]) w0))))
        as (evs & He & Hf).
      exists (EvStartThread (createThread w0) :: evs). rewrite He. simpl.
      rewrite <- app_assoc. split; [reflexivity|].
      constructor; [exact I | exact Hf]. }
  assert (Hadj' : exists evs,
             trace (adjustInventory 1 w) = trace w ++ evs /\
             Forall enqueueEvent evs).
  { unfold adjustInventory.
    destruct (0 <? m_inventoryMax w - Z.of_nat (length (m_inventory w))).
    - apply Hadj.
    - exists []. rewrite app_nil_r. auto. }
  destruct Hadj' as (evs & He & Hf).
  exists (evs ++ [EvAboutToBeQueued job; EvJobAvailableWakeAll]).
  split.
  - destruct (0 <? length (m_assignments (aboutToBeQueued job (adjustInventory 1 w))))%nat;
      simpl; rewrite He; rewrite <- !app_assoc; reflexivity.
  - apply Forall_app. split; [exact Hf|]. repeat constructor.
Qed.

Lemma enqueueJob_grows job w : grows w (enqueueJob job w).
Proof.
  pose proof (enqueueJob_spec job w) as Hs. cbv zeta in Hs.
  destruct Hs as (_ & Hinv & Hk & Hk' & Hc & _).
  unfold grows. repeat split; try assumption; try apply Hc.
  apply enqueueJob_trace.
Qed.

Lemma enqueueJob_sorted job w : prio_sorted w -> prio_sorted (enqueueJob job w).
Proof.
  intros Hso. pose proof (enqueueJob_spec job w) as Hs. cbv zeta in Hs.
  destruct Hs as ((before & after & Hl & Hl' & Hafter & Hbefore) & _ & Hk & _).
  unfold prio_sorted in *. rewrite Hl'.
  apply StronglySorted_ext with (R := fun a b => prio w b <= prio w a).
  { intros a b. now rewrite !(keeps_static_prio _ _ _ Hk). }
  apply StronglySorted_insert.
  - now rewrite <- Hl.
  - apply Hbefore. exact Hso.
  - eapply Forall_impl; [|exact Hafter]. simpl. intros x Hx. lia.
Qed.

Lemma enqueue_loop_spec jobs : forall w,
  grows w (enqueue_loop jobs w) /\
  (prio_sorted w -> prio_sorted (enqueue_loop jobs w)).
Proof.
  induction jobs as [|[job|] rest IH]; intros w; simpl.
  - split; [apply grows_refl | auto].
  - destruct (IH (enqueueJob job w)) as [Hg Hso]. split.
    + eapply grows_trans; [apply enqueueJob_grows | exact Hg].
    + intros Hw. apply Hso, enqueueJob_sorted, Hw.
  - apply IH.
Qed.

Lemma enqueue_p_spec jobs w :
  grows w (enqueue_p jobs w) /\
  (prio_sorted w -> prio_sorted (enqueue_p jobs w)).
Proof.
  unfold enqueue_p. destruct (QList.isEmpty jobs).
  - split; [apply grows_refl | auto].
  - apply enqueue_loop_spec.
Qed.

Lemma enqueue_spec jobs w :
  grows w (enqueue jobs w) /\
  (prio_sorted w -> prio_sorted (enqueue jobs w)).
Proof.
  unfold enqueue. destruct (enqueueAccepted (m_state w)).
  - apply enqueue_p_spec.
  - split; [apply grows_refl | auto].
Qed.

(** *** Freeing and writing private data *)

Lemma freeAll_trace policies : forall job w,
  trace (freeAll policies job w) = trace w ++ map (freed job) policies.
Proof.
  induction policies as [|p rest IH]; intros job w; simpl.
  - now rewrite app_nil_r.
  - rewrite IH. simpl. now rewrite <- app_assoc.
Qed.

Lemma freeAll_jobStore policies : forall job w,
  jobStore (freeAll policies job w) = jobStore w.
Proof.
  induction policies as [|p rest IH]; intros job w; simpl;
    [reflexivity | now rewrite IH].
Qed.

Lemma updPrivate_collection c f w :
  collection (jobStore (updPrivate c f w) c)
  = option_map f (collection (jobStore w c)).
Proof. unfold updPrivate. now rewrite updJob_same. Qed.

End EnqueueBatch.

(** ** Dequeueing *)

Section Dequeue.

Context {PS : Type} `{QueuePolicy PS}.

Implicit Types w : World PS.

Variable rk : JobId -> nat.

Lemma dequeueFrame_refl bs bl w : dequeueFrame rk bs bl w w.
Proof.
  unfold dequeueFrame. repeat split; auto using sublist_refl.
  exists []. now rewrite app_nil_r.
Qed.

Lemma dequeueFrame_trans bs bl w1 w2 w3 :
  dequeueFrame rk bs bl w1 w2 -> dequeueFrame rk bs bl w2 w3 ->
  dequeueFrame rk bs bl w1 w3.
Proof.
  intros (Hc & Hi & Ht & Hs & Hk & Hj & Hl & (e1 & He1))
         (Hc' & Hi' & Ht' & Hs' & Hk' & Hj' & Hl' & (e2 & He2)).
  unfold dequeueFrame. split; [eapply sameControl_trans; eassumption|].
  split; [congruence|]. split; [congruence|].
  split; [eapply sublist_trans; eassumption|].
  split; [eapply keeps_trans; eassumption|].
  split; [intros x Hx; rewrite Hj', Hj; auto|].
  split; [auto|].
  exists (e1 ++ e2). rewrite He2, He1. now rewrite app_assoc.
Qed.

Lemma dequeueFrame_weaken bs bl bs' bl' w w' :
  (bs <= bs')%nat -> (bl <= bl')%nat ->
  dequeueFrame rk bs bl w w' -> dequeueFrame rk bs' bl' w w'.
Proof.
  intros Hbs Hbl (Hc & Hi & Ht & Hs & Hk & Hj & Hl & He).
  unfold dequeueFrame. repeat split; try apply Hc; auto.
  - intros x Hx. apply Hj. lia.
  - intros x Hx. apply Hl. lia.
Qed.

Lemma dequeueFrame_well_nested bs bl w w' :
  dequeueFrame rk bs bl w w' -> well_nested rk w -> well_nested rk w'.
Proof.
  intros (_ & _ & _ & _ & Hk & _) Hwn c e Hin.
  apply Hwn. now rewrite <- (keeps_static_elements w w' c Hk).
Qed.

(** Steps that change one job record or the trace. *)
Lemma dequeueFrame_emit bs bl e w : dequeueFrame rk bs bl w (emit e w).
Proof.
  unfold dequeueFrame. simpl. repeat split; auto using sublist_refl.
  now exists [e].
Qed.

Lemma dequeueFrame_updJob bs bl (j : JobId) (f : Job -> Job) w :
  (forall job, staticOf (f job) = staticOf job) -> (rk j < bs)%nat ->
  dequeueFrame rk bs bl w (updJob j f w).
Proof.
  intros Hf Hj. unfold dequeueFrame.
  split; [repeat split|]. split; [reflexivity|]. split; [reflexivity|].
  split; [apply sublist_refl|]. split; [now apply updJob_static|].
  split; [|split; [auto|]].
  - intros x Hx. apply updJob_other. intros ->. lia.
  - exists []. simpl. now rewrite app_nil_r.
Qed.

Lemma dequeueFrame_freeAll bs bl policies : forall job w,
  dequeueFrame rk bs bl w (freeAll policies job w).
Proof.
  induction policies as [|p rest IH]; intros job w; simpl.
  - apply dequeueFrame_refl.
  - eapply dequeueFrame_trans; [|apply IH].
    unfold dequeueFrame. simpl. repeat split; auto using sublist_refl.
    now exists [EvFree p job].
Qed.

Lemma finalCleanup_frame bl c w d :
  collection (jobStore w c) = Some d ->
  exists w', finalCleanup c w = Done w' /\
             dequeueFrame rk (S (rk c)) bl w w'.
Proof.
  intros Hd. unfold finalCleanup, getPrivate. rewrite Hd. cbn [bind].
  eexists. split; [reflexivity|].
  set (w1 := freeQueuePolicyResources c (self d) w).
  apply dequeueFrame_trans with w1; [apply dequeueFrame_freeAll|].
  apply dequeueFrame_trans with (setStatus c Status_Success w1).
  - apply dequeueFrame_updJob; [reflexivity | lia].
  - apply dequeueFrame_updJob; [|lia].
    intro job. now apply static_private.
Qed.

(** *** Positions in the assignments *)

Lemma indexOf_Some l : forall x i,
  QList.indexOf l x = Some i -> nth_error l i = Some x.
Proof.
  induction l as [|y l IH]; intros x i Hi; simpl in *; [discriminate|].
  destruct (Nat.eqb_spec y x).
  - inversion Hi; subst. reflexivity.
  - destruct (QList.indexOf l x) as [i'|] eqn:E; [|discriminate].
    inversion Hi; subst. simpl. now apply IH.
Qed.

Lemma indexOf_In l x i : QList.indexOf l x = Some i -> In x l.
Proof. intros Hi. eapply nth_error_In, indexOf_Some, Hi. Qed.

Lemma indexOf_None l x : QList.indexOf l x = None <-> ~ In x l.
Proof.
  induction l as [|y l IH]; simpl.
  - tauto.
  - destruct (Nat.eqb_spec y x).
    + split; [discriminate | intros Hn; exfalso; auto].
    + destruct (QList.indexOf l x) as [i|].
      * split; [discriminate|]. intros Hn. exfalso. apply Hn. right.
        destruct (in_dec Nat.eq_dec x l) as [Hi|Hi]; [exact Hi|].
        apply IH in Hi. discriminate.
      * split; [|reflexivity]. intros _ [Hy | Hin]; [contradiction|].
        now apply IH.
Qed.

Lemma In_indexOf l x : In x l -> exists i, QList.indexOf l x = Some i.
Proof.
  intros Hin. destruct (QList.indexOf l x) as [i|] eqn:E; [eauto|].
  apply indexOf_None in E. contradiction.
Qed.

Lemma removeAt_In_other {A : Type} (l : list A) : forall i j x,
  nth_error l i = Some j -> In x l -> x <> j -> In x (QList.removeAt i l).
Proof.
  induction l as [|y l IH]; intros [|i] j x Hn Hin Hx; simpl in *;
    try discriminate.
  - inversion Hn; subst. destruct Hin; [congruence | assumption].
  - destruct Hin; [now left | right; eauto].
Qed.

Lemma removeAt_first_NoDup l : forall x i,
  QList.indexOf l x = Some i -> NoDup l -> ~ In x (QList.removeAt i l).
Proof.
  induction l as [|y l IH]; intros x i Hi Hnd; simpl in *; [discriminate|].
  inversion Hnd; subst.
  destruct (Nat.eqb_spec y x).
  - inversion Hi; subst. assumption.
  - destruct (QList.indexOf l x) as [i'|] eqn:E; [|discriminate].
    inversion Hi; subst. simpl. intros [Hy | Hin]; [contradiction|].
    eapply IH; eauto.
Qed.

Lemma dequeueFrame_removeAt bs bl i j w :
  nth_error (m_assignments w) i = Some j -> (rk j < bl)%nat ->
  dequeueFrame rk bs bl w
    (set_assignments (QList.removeAt i (m_assignments w)) w).
Proof.
  intros Hn Hj. unfold dequeueFrame. simpl.
  split; [repeat split|]. split; [reflexivity|]. split; [reflexivity|].
  split; [apply removeAt_sublist|]. split; [intro k; reflexivity|].
  split; [reflexivity|]. split.
  - intros x Hx Hin. eapply removeAt_In_other; eauto. intros ->. lia.
  - exists []. now rewrite app_nil_r.
Qed.

(** *** The nested dequeue *)

Lemma dequeueEach_frame dq n m elems :
  answers rk dq n -> (m <= n)%nat ->
  forall w, well_nested rk w ->
  (forall e, In (Some e) elems -> (rk e < m)%nat) ->
  exists w', dequeueEach dq elems w = Done w' /\ dequeueFrame rk m m w w'.
Proof.
  intros Hdq Hm. induction elems as [|e rest IH]; intros w Hwn Hrk; simpl.
  - eexists. split; [reflexivity | apply dequeueFrame_refl].
  - assert (He : (rankAbove rk e <= m)%nat).
    { destruct e as [e|]; simpl; [|lia]. apply Hrk. now left. }
    pose proof (dequeueFrame_emit m m (EvApiDequeue e) w) as Hem.
    destruct (Hdq e (emit (EvApiDequeue e) w)) as (b & w1 & Hr & Hf1).
    { eapply dequeueFrame_well_nested; eassumption. }
    { lia. }
    rewrite Hr. cbn [bind snd].
    apply (dequeueFrame_weaken _ _ m m) in Hf1; [|lia|lia].
    destruct (IH w1) as (w' & Hgo & Hf').
    { eapply dequeueFrame_well_nested; [exact Hf1|].
      eapply dequeueFrame_well_nested; eassumption. }
    { intros e' He'. apply Hrk. now right. }
    exists w'. split; [exact Hgo|].
    eapply dequeueFrame_trans; [exact Hem|].
    eapply dequeueFrame_trans; eassumption.
Qed.

Lemma dequeueElements_with_frame dq n c d w :
  answers rk dq n -> (rk c <= n)%nat -> well_nested rk w ->
  collection (jobStore w c) = Some d ->
  exists w', dequeueElements_with dq c w = Done w' /\
             dequeueFrame rk (S (rk c)) (rk c) w w'.
Proof.
  intros Hdq Hc Hwn Hd. unfold dequeueElements_with, getPrivate.
  rewrite Hd. cbn [bind].
  destruct (api d) as [a|].
  2:{ eexists. split; [reflexivity | apply dequeueFrame_refl]. }
  destruct (dequeueEach_frame dq n (rk c) (elements d) Hdq Hc w Hwn)
    as (w1 & Hgo & Hf1).
  { intros e He. apply Hwn. unfold elementsOf. now rewrite Hd. }
  rewrite Hgo. cbn [bind].
  assert (Hd1 : collection (jobStore w1 c) = Some d).
  { destruct Hf1 as (_ & _ & _ & _ & _ & Hj & _). rewrite Hj; [exact Hd | lia]. }
  rewrite Hd1. cbn [bind].
  apply (dequeueFrame_weaken _ _ (S (rk c)) (rk c)) in Hf1; [|lia|lia].
  set (w2 := updPrivate c (set_jobCounter 0) w1).
  assert (Hf2 : dequeueFrame rk (S (rk c)) (rk c) w1 w2).
  { apply dequeueFrame_updJob; [|lia]. intro job. now apply static_private. }
  destruct (jobCounter d =? 0).
  - exists w2. split; [reflexivity|]. eapply dequeueFrame_trans; eassumption.
  - destruct (finalCleanup_frame (rk c) c w2 (set_jobCounter 0 d))
      as (w3 & Hfc & Hf3).
    { subst w2. unfold updPrivate. rewrite updJob_same. simpl.
      now rewrite Hd1. }
    exists w3. split; [exact Hfc|].
    eapply dequeueFrame_trans; [exact Hf1|].
    eapply dequeueFrame_trans; eassumption.
Qed.

Lemma aboutToBeDequeued_with_frame dq n j w :
  answers rk dq n -> (rk j <= n)%nat -> well_nested rk w ->
  exists w', aboutToBeDequeued_with dq j w = Done w' /\
             dequeueFrame rk (S (rk j)) (rk j) w w' /\
             exists evs, trace w' = trace w ++ EvAboutToBeDequeued j :: evs.
Proof.
  intros Hdq Hj Hwn. unfold aboutToBeDequeued_with.
  set (w1 := emit (EvAboutToBeDequeued j) w).
  pose proof (dequeueFrame_emit (S (rk j)) (rk j) (EvAboutToBeDequeued j) w)
    as Hem. fold w1 in Hem.
  destruct (collection (jobStore w1 j)) as [d|] eqn:Hd.
  - destruct (dequeueElements_with_frame dq n j d w1 Hdq Hj) as (w2 & Hr & Hf2);
      [eapply dequeueFrame_well_nested; eassumption | exact Hd |].
    rewrite Hr. cbn [bind]. eexists. split; [reflexivity|].
    assert (Hf3 : dequeueFrame rk (S (rk j)) (rk j) w2
                    (updPrivate j (set_api None) w2)).
    { apply dequeueFrame_updJob; [|lia]. intro job. now apply static_private. }
    split.
    + eapply dequeueFrame_trans; [exact Hem|].
      eapply dequeueFrame_trans; eassumption.
    + destruct Hf2 as (_ & _ & _ & _ & _ & _ & _ & (evs & Hev)).
      exists evs. simpl. rewrite Hev. simpl. now rewrite <- app_assoc.
  - eexists. split; [reflexivity|]. split; [exact Hem|].
    exists []. reflexivity.
Qed.

Lemma dequeue_p_answers fuel : answers rk (dequeue_p fuel) fuel.
Proof.
  induction fuel as [|fuel IH]; intros e w Hwn He.
  - destruct e as [j|]; simpl in He; [lia|].
    exists false, w. split; [reflexivity | apply dequeueFrame_refl].
  - destruct e as [j|]; cbn [dequeue_p].
    2:{ exists false, w. split; [reflexivity | apply dequeueFrame_refl]. }
    simpl in He.
    destruct (QList.indexOf (m_assignments w) j) as [position|] eqn:Ei.
    2:{ exists false, w. split; [reflexivity | apply dequeueFrame_refl]. }
    destruct (aboutToBeDequeued_with_frame (dequeue_p fuel) fuel j w IH)
      as (w1 & Hr & Hf1 & _); [lia | exact Hwn |].
    rewrite Hr. cbn [bind].
    assert (Hin : In j (m_assignments w1)).
    { destruct Hf1 as (_ & _ & _ & _ & _ & _ & Hl & _).
      apply Hl; [lia|]. eapply indexOf_In; eassumption. }
    destruct (In_indexOf _ _ Hin) as (newPosition & En).
    rewrite En. eexists true, _. split; [reflexivity|].
    cbn [rankAbove].
    apply (dequeueFrame_weaken _ _ (S (rk j)) (S (rk j))) in Hf1; [|lia|lia].
    eapply dequeueFrame_trans; [exact Hf1|].
    eapply dequeueFrame_trans;
      [apply (dequeueFrame_removeAt _ _ newPosition j);
       [now apply indexOf_Some | lia]|].
    eapply dequeueFrame_trans; [|apply dequeueFrame_emit].
    apply dequeueFrame_updJob; [reflexivity | lia].
Qed.

Lemma dequeue_answers fuel : answers rk (dequeue fuel) fuel.
Proof.
  intros e w Hwn He. unfold dequeue.
  destruct (dequeueAccepted (m_state w)).
  - now apply dequeue_p_answers.
  - exists false, w. split; [reflexivity | apply dequeueFrame_refl].
Qed.

End Dequeue.

(** ** Whatever a dequeue does, the assignments only shrink *)

Section Shrinks.

Context {PS : Type} `{QueuePolicy PS}.

Implicit Types w : World PS.

Lemma shrinks_refl w : shrinks w w.
Proof.
  unfold shrinks. repeat split; auto using sublist_refl.
Qed.

Lemma shrinks_trans w1 w2 w3 : shrinks w1 w2 -> shrinks w2 w3 -> shrinks w1 w3.
Proof.
  intros (Hc & Hi & Ht & Hs & Hk) (Hc' & Hi' & Ht' & Hs' & Hk').
  unfold shrinks. split; [eapply sameControl_trans; eassumption|].
  split; [congruence|]. split; [congruence|].
  split; [eapply sublist_trans; eassumption|].
  eapply keeps_trans; eassumption.
Qed.

Lemma dequeueFrame_shrinks rk bs bl w w' :
  dequeueFrame rk bs bl w w' -> shrinks w w'.
Proof. unfold dequeueFrame, shrinks. tauto. Qed.

Lemma shrinks_emit e w : shrinks w (emit e w).
Proof.
  apply (dequeueFrame_shrinks (fun _ => 0%nat) 0 0), dequeueFrame_emit.
Qed.

Lemma shrinks_updJob (j : JobId) (f : Job -> Job) w :
  (forall job, staticOf (f job) = staticOf job) -> shrinks w (updJob j f w).
Proof.
  intros Hf. apply (dequeueFrame_shrinks (fun _ => 0%nat) 1 0).
  apply dequeueFrame_updJob; [exact Hf | lia].
Qed.

Lemma shrinks_updPrivate (c : JobId) f w :
  (forall d, elements (f d) = elements d) -> shrinks w (updPrivate c f w).
Proof.
  intros Hf. apply shrinks_updJob. intro job. now apply static_private.
Qed.

Lemma finalCleanup_shrinks c w w' : finalCleanup c w = Done w' -> shrinks w w'.
Proof.
  unfold finalCleanup, getPrivate.
  destruct (collection (jobStore w c)) as [d|] eqn:Hd; [|discriminate].
  intros Hr.
  destruct (finalCleanup_frame (fun _ => 0%nat) 0 c w d Hd) as (w2 & Hr2 & Hf).
  unfold finalCleanup, getPrivate in Hr2. rewrite Hd in Hr2.
  cbn [bind] in *. assert (w2 = w') by congruence. subst w2.
  eapply dequeueFrame_shrinks, Hf.
Qed.

Lemma dequeueEach_shrinks dq elems :
  shrinking dq ->
  forall w w', dequeueEach dq elems w = Done w' -> shrinks w w'.
Proof.
  intros Hdq. induction elems as [|e rest IH]; intros w w' Hr; simpl in Hr.
  - inversion Hr; subst. apply shrinks_refl.
  - destruct (dq e (emit (EvApiDequeue e) w)) as [[b w1]| | |] eqn:E;
      try discriminate.
    cbn [bind snd] in Hr.
    eapply shrinks_trans; [apply shrinks_emit|].
    eapply shrinks_trans; [eapply Hdq, E|]. now apply IH.
Qed.

Lemma dequeueElements_with_shrinks dq c w w' :
  shrinking dq -> dequeueElements_with dq c w = Done w' -> shrinks w w'.
Proof.
  intros Hdq. unfold dequeueElements_with, getPrivate.
  destruct (collection (jobStore w c)) as [d|]; [|discriminate].
  cbn [bind]. destruct (api d).
  2:{ intros Hr. inversion Hr; subst. apply shrinks_refl. }
  destruct (dequeueEach dq (elements d) w) as [w1| | |] eqn:E; try discriminate.
  cbn [bind].
  destruct (collection (jobStore w1 c)) as [d1|]; [|discriminate].
  cbn [bind]. intros Hr.
  eapply shrinks_trans; [eapply dequeueEach_shrinks; eassumption|].
  assert (Hu : shrinks w1 (updPrivate c (set_jobCounter 0) w1))
    by now apply shrinks_updPrivate.
  destruct (jobCounter d1 =? 0).
  - inversion Hr; subst. exact Hu.
  - eapply shrinks_trans; [exact Hu|]. eapply finalCleanup_shrinks, Hr.
Qed.

Lemma aboutToBeDequeued_with_shrinks dq j w w' :
  shrinking dq -> aboutToBeDequeued_with dq j w = Done w' -> shrinks w w'.
Proof.
  intros Hdq. unfold aboutToBeDequeued_with.
  set (w1 := emit (EvAboutToBeDequeued j) w).
  assert (Hem : shrinks w w1) by apply shrinks_emit.
  destruct (collection (jobStore w1 j)).
  - destruct (dequeueElements_with dq j w1) as [w2| | |] eqn:E; try discriminate.
    cbn [bind]. intros Hr. inversion Hr; subst.
    eapply shrinks_trans; [exact Hem|].
    eapply shrinks_trans; [eapply dequeueElements_with_shrinks; eassumption|].
    now apply shrinks_updPrivate.
  - intros Hr. inversion Hr; subst. exact Hem.
Qed.

Lemma dequeue_p_shrinking fuel : shrinking (dequeue_p fuel).
Proof.
  induction fuel as [|fuel IH]; intros e w b w' Hr.
  - destruct e as [j|]; simpl in Hr.
    + destruct (QList.indexOf (m_assignments w) j); [discriminate|].
      inversion Hr; subst. apply shrinks_refl.
    + inversion Hr; subst. apply shrinks_refl.
  - destruct e as [j|]; cbn [dequeue_p] in Hr.
    2:{ inversion Hr; subst. apply shrinks_refl. }
    destruct (QList.indexOf (m_assignments w) j).
    2:{ inversion Hr; subst. apply shrinks_refl. }
    destruct (aboutToBeDequeued_with (dequeue_p fuel) j w) as [w1| | |] eqn:E;
      try discriminate.
    cbn [bind] in Hr.
    destruct (QList.indexOf (m_assignments w1) j) as [newPosition|];
      [|discriminate].
    inversion Hr; subst.
    eapply shrinks_trans; [eapply aboutToBeDequeued_with_shrinks; eassumption|].
    eapply shrinks_trans; [|apply shrinks_emit].
    eapply shrinks_trans; [|now apply shrinks_updJob].
    unfold shrinks. simpl. repeat split; auto using removeAt_sublist.
Qed.

Lemma dequeue_shrinking fuel : shrinking (dequeue fuel).
Proof.
  intros e w b w'. unfold dequeue.
  destruct (dequeueAccepted (m_state w)).
  - apply dequeue_p_shrinking.
  - intros Hr. inversion Hr; subst. apply shrinks_refl.
Qed.

Lemma dequeueAll_loop_shrinks fuel n : forall index w w',
  dequeueAll_loop fuel n index w = Done w' -> shrinks w w'.
Proof.
  induction n as [|n IH]; intros index w w' Hr; simpl in Hr.
  - destruct (nth_error (m_assignments w) index); [discriminate|].
    inversion Hr; subst. apply shrinks_refl.
  - destruct (nth_error (m_assignments w) index) as [j|].
    2:{ inversion Hr; subst. apply shrinks_refl. }
    destruct (aboutToBeDequeued fuel j w) as [w1| | |] eqn:E; try discriminate.
    cbn [bind] in Hr.
    eapply shrinks_trans; [|eapply IH, Hr].
    eapply aboutToBeDequeued_with_shrinks; [apply dequeue_p_shrinking | exact E].
Qed.

Lemma dequeue_all_shrinks fuel w w' :
  dequeue_all fuel w = Done w' -> shrinks w w'.
Proof.
  unfold dequeue_all, dequeue_p_all.
  destruct (dequeueAccepted (m_state w)).
  2:{ intros Hr. inversion Hr; subst. apply shrinks_refl. }
  destruct (dequeueAll_loop fuel (length (m_assignments w)) 0 w)
    as [w1| | |] eqn:E; try discriminate.
  cbn [bind]. intros Hr. inversion Hr; subst.
  eapply shrinks_trans; [eapply dequeueAll_loop_shrinks, E|].
  unfold shrinks. simpl. repeat split; auto using sublist_nil_l.
Qed.

Lemma shrinks_absent w w' e :
  shrinks w w' -> ~ In e (m_assignments w) -> ~ In e (m_assignments w').
Proof.
  intros (_ & _ & _ & Hs & _) Hn Hin. apply Hn.
  eapply sublist_In; eassumption.
Qed.

Lemma shrinks_NoDup w w' :
  shrinks w w' -> NoDup (m_assignments w) -> NoDup (m_assignments w').
Proof. intros (_ & _ & _ & Hs & _). now apply sublist_NoDup. Qed.

Lemma shrinks_accepted w w' :
  shrinks w w' -> dequeueAccepted (m_state w') = dequeueAccepted (m_state w).
Proof. intros ((_ & _ & Hst) & _). now rewrite Hst. Qed.

End Shrinks.

(** ** Invariants of the weaver and its workers *)

Section Invariants.

Context {PS : Type} `{QueuePolicy PS}.

Implicit Types w : World PS.
Implicit Types s : Sys PS.

(** *** Sorted assignments *)

Lemma step_prio_sorted capAllowed jobsAllowed s s' :
  step capAllowed jobsAllowed s s' -> prio_sorted (world s) -> prio_sorted (world s').
Proof.
  intros Hstep Hso. destruct Hstep; cbn [world].
  - now apply enqueue_spec.
  - match goal with Hd : dequeue _ _ _ = _ |- _ =>
      apply dequeue_shrinking in Hd; destruct Hd as (_ & _ & _ & Hs & Hk) end.
    eapply prio_sorted_transfer; eassumption.
  - match goal with Hd : dequeue_all _ _ = _ |- _ =>
      apply dequeue_all_shrinks in Hd; destruct Hd as (_ & _ & _ & Hs & Hk) end.
    eapply prio_sorted_transfer; eassumption.
  - exact Hso.
  - take_frame Hf. destruct Hf as (Hs & Hj & _).
    eapply prio_sorted_transfer; [|exact Hs | exact Hso].
    intro j. now rewrite Hj.
  - state_frame Suspending (world s) Hf.
    destruct Hf as (Ha & _ & _ & _ & _ & _ & Hj).
    eapply prio_sorted_transfer; [| |exact Hso].
    + intro j. now rewrite Hj.
    + rewrite Ha. apply sublist_refl.
  - state_frame WorkingHard (world s) Hf.
    destruct Hf as (Ha & _ & _ & _ & _ & _ & Hj).
    eapply prio_sorted_transfer; [| |exact Hso].
    + intro j. now rewrite Hj.
    + rewrite Ha. apply sublist_refl.
  - match goal with He : sameWeaver _ _ |- _ =>
      destruct He as (_ & _ & _ & Ha & _ & _ & Hp & _) end.
    unfold prio_sorted in *. rewrite Ha.
    eapply StronglySorted_ext; [|exact Hso].
    intros a b. simpl. now rewrite !Hp.
Qed.

Lemma reachable_prio_sorted capAllowed jobsAllowed s :
  reachable capAllowed jobsAllowed s -> prio_sorted (world s).
Proof.
  induction 1 as [ideal store0 ps|s s' _ IH Hstep].
  - constructor.
  - eapply step_prio_sorted; eassumption.
Qed.

(** C2: on assignments that are sorted by priority, descending, [enqueue_p]
    puts a job behind every queued job of the same or a higher priority and
    in front of the jobs of lower priority, and leaves the list sorted; a
    null pointer is skipped; a batch is queued job by job, in the order of
    the vector, and leaves the list sorted; the list is sorted in every
    state the weaver reaches; and every call either queues jobs in this way
    or leaves a sublist of the assignments, so that jobs of equal priority
    stay in the order in which they were queued. *)
Theorem enqueue_p_keeps_priority_order :
  (forall w job, prio_sorted w ->
     prio_sorted (enqueue_p [Some job] w) /\
     exists before after,
       m_assignments w = before ++ after /\
       m_assignments (enqueue_p [Some job] w) = before ++ job :: after /\
       Forall (fun x => prio w job <= prio w x) before /\
       Forall (fun x => prio w x < prio w job) after) /\
  (forall w jobs, prio_sorted w ->
     prio_sorted (enqueue_p jobs w) /\
     enqueue_p [None] w = w /\
     forall p, enqueue_p (p :: jobs) w = enqueue_p jobs (enqueue_p [p] w)) /\
  (forall s, reachable anyCap anyJobs s -> prio_sorted (world s)) /\
  (forall s s', step anyCap anyJobs s s' ->
     (exists jobs, world s' = enqueue jobs (world s)) \/
     sublist (m_assignments (world s')) (m_assignments (world s))).
Proof.
  split; [|split; [|split]].
  - intros w job Hso.
    replace (enqueue_p [Some job] w) with (enqueueJob job w) by reflexivity.
    split; [now apply enqueueJob_sorted|].
    pose proof (enqueueJob_spec job w) as Hs. cbv zeta in Hs.
    destruct Hs as ((before & after & Hl & Hl' & Hafter & Hbefore) & _).
    exists before, after. auto.
  - intros w jobs Hso. split; [now apply enqueue_p_spec|].
    split; [reflexivity|].
    intros p. unfold enqueue_p.
    replace (QList.isEmpty (p :: jobs)) with false by reflexivity.
    replace (QList.isEmpty [p]) with false by reflexivity.
    destruct p as [job|]; cbn [enqueue_loop];
      destruct jobs as [|q rest]; reflexivity.
  - intros s. apply reachable_prio_sorted.
  - intros s s' Hstep. destruct Hstep; cbn [world].
    + left. eauto.
    + right. match goal with Hd : dequeue _ _ _ = _ |- _ =>
        apply dequeue_shrinking in Hd; apply Hd end.
    + right. match goal with Hd : dequeue_all _ _ = _ |- _ =>
        apply dequeue_all_shrinks in Hd; apply Hd end.
    + right. apply sublist_refl.
    + right.
      take_frame Hf. apply Hf.
    + right. state_frame Suspending (world s) Hf. destruct Hf as (Ha & _). rewrite Ha. apply sublist_refl.
    + right. state_frame WorkingHard (world s) Hf. destruct Hf as (Ha & _). rewrite Ha. apply sublist_refl.
    + right. match goal with He : sameWeaver _ _ |- _ =>
        destruct He as (_ & _ & _ & Ha & _) end.
      rewrite Ha. apply sublist_refl.
Qed.

(** *** Workers and threads *)

Lemma wasBusy_In th s : wasBusy th s = true <-> In th (busy s).
Proof.
  unfold wasBusy. rewrite existsb_exists. split.
  - intros (x & Hin & Hx). apply Nat.eqb_eq in Hx. now subst.
  - intros Hin. exists th. split; [exact Hin | apply Nat.eqb_refl].
Qed.

Lemma NoDup_remove_any (l : list ThreadId) x :
  NoDup l -> NoDup (remove Nat.eq_dec x l).
Proof.
  induction 1 as [|y l Hy Hnd IH]; simpl; [constructor|].
  destruct (Nat.eq_dec x y); [exact IH|].
  constructor; [|exact IH]. intros Hin. apply in_remove in Hin. tauto.
Qed.

Lemma length_remove_NoDup (l : list ThreadId) x :
  NoDup l ->
  length (remove Nat.eq_dec x l)
  = (length l - if existsb (Nat.eqb x) l then 1 else 0)%nat.
Proof.
  induction 1 as [|y l Hy Hnd IH]; [reflexivity|].
  cbn [remove existsb length].
  destruct (Nat.eq_dec x y) as [->|Hne].
  - rewrite Nat.eqb_refl. cbn [orb]. rewrite notin_remove by exact Hy.
    unfold ThreadId in *. lia.
  - destruct (Nat.eqb_spec x y); [contradiction|]. cbn [orb length].
    rewrite IH.
    destruct (existsb (Nat.eqb x) l) eqn:E; [|lia].
    apply existsb_exists in E. destruct E as (z & Hz & _).
    assert (0 < length l)%nat by (destruct l; [contradiction | simpl; lia]).
    unfold ThreadId in *. lia.
Qed.

Lemma step_workersInv capAllowed jobsAllowed s s' :
  step capAllowed jobsAllowed s s' -> workersInv s -> workersInv s'.
Proof.
  intros Hstep (Hact & Hnd & Hincl). destruct Hstep; unfold workersInv;
    cbn [world busy].
  - destruct (enqueue_spec jobs (world s)) as [((n & Hi & _) & _ & _ & Hc & _) _].
    destruct Hc as (Ha & _). rewrite Ha, Hi.
    repeat split; auto. now apply incl_appl.
  - match goal with Hd : dequeue _ _ _ = _ |- _ =>
      apply dequeue_shrinking in Hd; destruct Hd as ((Ha & _) & Hi & _) end.
    rewrite Ha, Hi. auto.
  - match goal with Hd : dequeue_all _ _ = _ |- _ =>
      apply dequeue_all_shrinks in Hd; destruct Hd as ((Ha & _) & Hi & _) end.
    rewrite Ha, Hi. auto.
  - auto.
  - take_frame Hf. destruct Hf as (_ & _ & Hi & _ & _ & Ha).
    rewrite Ha, Hi, Hact.
    pose proof (length_remove_NoDup (busy s) th Hnd) as Hlen.
    pose proof (NoDup_remove_any (busy s) th Hnd) as Hnd'.
    assert (Hincl' : incl (remove Nat.eq_dec th (busy s)) (m_inventory (world s))).
    { intros x Hx. apply in_remove in Hx. apply Hincl, Hx. }
    fold (wasBusy th s) in Hlen.
    assert (Hpos : wasBusy th s = true -> (0 < length (busy s))%nat).
    { intros Hb. apply wasBusy_In in Hb.
      destruct (busy s); [contradiction | simpl; lia]. }
    destruct job as [j|]; cbn [nextBusy].
    + split; [|split].
      * cbn [length]. unfold ThreadId in *. rewrite Hlen.
        destruct (wasBusy th s); [specialize (Hpos eq_refl)|]; lia.
      * constructor; [apply remove_In | exact Hnd'].
      * intros x [<- | Hx]; [assumption | now apply Hincl'].
    + split; [|split; assumption].
      unfold ThreadId in *. rewrite Hlen.
      destruct (wasBusy th s); [specialize (Hpos eq_refl)|]; lia.
  - state_frame Suspending (world s) Hf.
    destruct Hf as (_ & _ & Ha & Hi & _). rewrite Ha, Hi. auto.
  - state_frame WorkingHard (world s) Hf.
    destruct Hf as (_ & _ & Ha & Hi & _). rewrite Ha, Hi. auto.
  - match goal with He : sameWeaver _ _ |- _ =>
      destruct He as (Ha & _ & Hi & _) end.
    rewrite Ha, Hi. auto.
Qed.

Lemma reachable_workersInv capAllowed jobsAllowed s :
  reachable capAllowed jobsAllowed s -> workersInv s.
Proof.
  induction 1 as [ideal store0 ps|s s' _ IH Hstep].
  - unfold workersInv. simpl. repeat split; [constructor | intros x []].
  - eapply step_workersInv; eassumption.
Qed.

Lemma step_inventory_grows capAllowed jobsAllowed s s' :
  step capAllowed jobsAllowed s s' ->
  exists more, m_inventory (world s') = m_inventory (world s) ++ more.
Proof.
  intros Hstep. destruct Hstep; cbn [world].
  - destruct (enqueue_spec jobs (world s)) as [((n & Hi & _) & _) _]. eauto.
  - match goal with Hd : dequeue _ _ _ = _ |- _ =>
      apply dequeue_shrinking in Hd; destruct Hd as (_ & Hi & _) end.
    exists []. now rewrite app_nil_r.
  - match goal with Hd : dequeue_all _ _ = _ |- _ =>
      apply dequeue_all_shrinks in Hd; destruct Hd as (_ & Hi & _) end.
    exists []. now rewrite app_nil_r.
  - exists []. now rewrite app_nil_r.
  - take_frame Hf. destruct Hf as (_ & _ & Hi & _).
    exists []. now rewrite app_nil_r.
  - state_frame Suspending (world s) Hf.
    destruct Hf as (_ & _ & _ & Hi & _). exists []. now rewrite app_nil_r.
  - state_frame WorkingHard (world s) Hf.
    destruct Hf as (_ & _ & _ & Hi & _). exists []. now rewrite app_nil_r.
  - match goal with He : sameWeaver _ _ |- _ =>
      destruct He as (_ & _ & Hi & _) end.
    exists []. now rewrite app_nil_r.
Qed.

Lemma step_below_cap s s' :
  step capAboveInventory anyJobs s s' ->
  currentNumberOfThreads_p (world s) <= maximumNumberOfThreads_p (world s) ->
  currentNumberOfThreads_p (world s') <= maximumNumberOfThreads_p (world s').
Proof.
  unfold currentNumberOfThreads_p, maximumNumberOfThreads_p.
  intros Hstep Hle. destruct Hstep; cbn [world].
  - destruct (enqueue_spec jobs (world s))
      as [((n & Hi & _ & Hn) & _ & _ & (_ & Hm & _) & _) _].
    rewrite Hi, Hm, length_app, length_seq.
    destruct Hn as [-> | Hn]; lia.
  - match goal with Hd : dequeue _ _ _ = _ |- _ =>
      apply dequeue_shrinking in Hd; destruct Hd as ((_ & Hm & _) & Hi & _) end.
    now rewrite Hi, Hm.
  - match goal with Hd : dequeue_all _ _ = _ |- _ =>
      apply dequeue_all_shrinks in Hd; destruct Hd as ((_ & Hm & _) & Hi & _) end.
    now rewrite Hi, Hm.
  - match goal with Hc : capAboveInventory _ _ |- _ => apply Hc end.
  - take_frame Hf. destruct Hf as (_ & _ & Hi & Hm & _).
    now rewrite Hi, Hm.
  - state_frame Suspending (world s) Hf.
    destruct Hf as (_ & _ & _ & Hi & Hm & _). now rewrite Hi, Hm.
  - state_frame WorkingHard (world s) Hf.
    destruct Hf as (_ & _ & _ & Hi & Hm & _). now rewrite Hi, Hm.
  - match goal with He : sameWeaver _ _ |- _ =>
      destruct He as (_ & Hm & Hi & _) end.
    now rewrite Hi, Hm.
Qed.

(** C8, as the code has it: in every state the weaver reaches, the active
    count is at most the number of threads; the number of threads stays at
    most the cap as long as no call of [setMaximumNumberOfThreads] puts the
    cap below the threads that exist; [adjustInventory] only adds threads,
    and none beyond the cap; and no call shrinks the inventory, not even
    [setMaximumNumberOfThreads] (shutting down is left out). *)
Theorem thread_counts :
  (forall s, reachable anyCap anyJobs s ->
     0 <= m_active (world s) <= currentNumberOfThreads_p (world s)) /\
  (forall s, reachable capAboveInventory anyJobs s ->
     currentNumberOfThreads_p (world s) <= maximumNumberOfThreads_p (world s)) /\
  (forall n w,
     (exists more, m_inventory (adjustInventory n w) = m_inventory w ++ more) /\
     currentNumberOfThreads_p (adjustInventory n w)
     <= Z.max (currentNumberOfThreads_p w) (maximumNumberOfThreads_p w)) /\
  (forall s s', step anyCap anyJobs s s' ->
     exists more, m_inventory (world s') = m_inventory (world s) ++ more).
Proof.
  split; [|split; [|split]].
  - intros s Hr. apply reachable_workersInv in Hr.
    destruct Hr as (Hact & Hnd & Hincl). rewrite Hact.
    unfold currentNumberOfThreads_p.
    pose proof (NoDup_incl_length Hnd Hincl). lia.
  - intros s. induction 1 as [ideal store0 ps|s s' _ IH Hstep].
    + unfold currentNumberOfThreads_p, maximumNumberOfThreads_p. simpl. lia.
    + eapply step_below_cap; eassumption.
  - intros n w. pose proof (adjustInventory_spec n w) as Hs. cbv zeta in Hs.
    destruct Hs as ((k & Hi & _ & Hk) & _). split; [eauto|].
    unfold currentNumberOfThreads_p, maximumNumberOfThreads_p.
    rewrite Hi, length_app, length_seq. destruct Hk as [-> | Hk]; lia.
  - intros s s'. apply step_inventory_grows.
Qed.

End Invariants.

(** ** Every job is queued at most once *)

Section QueueInvariant.

Context {PS : Type} `{QueuePolicy PS}.

Implicit Types w : World PS.
Implicit Types s : Sys PS.

(** What a call of [dequeue_p] that returns has done. *)
Lemma dequeue_p_inv fuel job w b w' :
  dequeue_p fuel job w = Done (b, w') ->
  (b = false /\ w' = w /\ ~ queued job w)
  \/
  (b = true /\
   exists j w1 newPosition,
     job = Some j /\ In j (m_assignments w) /\
     aboutToBeDequeued (pred fuel) j w = Done w1 /\
     QList.indexOf (m_assignments w1) j = Some newPosition /\
     w' = emit EvJobFinishedWakeAll
            (setStatus j Status_New
               (set_assignments
                  (QList.removeAt newPosition (m_assignments w1)) w1))).
Proof.
  intros Hr. destruct job as [j|].
  2:{ left. destruct fuel; simpl in Hr; inversion Hr; subst; simpl; auto. }
  assert (Hstart : forall f, dequeue_p f (Some j) w =
            match QList.indexOf (m_assignments w) j with
            | None => Done (false, w)
            | Some _ =>
                match f with
                | O => OutOfFuel
                | S f' =>
                    w1 <- aboutToBeDequeued_with (dequeue_p f') j w ;;
                    match QList.indexOf (m_assignments w1) j with
                    | None => Undefined
                    | Some newPosition =>
                        Done (true,
                              emit EvJobFinishedWakeAll
                                (setStatus j Status_New
                                   (set_assignments
                                      (QList.removeAt newPosition
                                         (m_assignments w1)) w1)))
                    end
                end
            end) by (intros [|f]; reflexivity).
  rewrite Hstart in Hr. clear Hstart.
  destruct (QList.indexOf (m_assignments w) j) as [position|] eqn:Ei.
  - right. destruct fuel as [|fuel]; [discriminate|].
    destruct (aboutToBeDequeued_with (dequeue_p fuel) j w) as [w1| | |] eqn:E;
      try discriminate.
    cbn [bind] in Hr.
    destruct (QList.indexOf (m_assignments w1) j) as [newPosition|] eqn:En;
      [|discriminate].
    inversion Hr; subst. split; [reflexivity|].
    exists j, w1, newPosition. repeat split; auto.
    eapply indexOf_In; eassumption.
  - left. inversion Hr; subst. repeat split. simpl. now apply indexOf_None.
Qed.

Lemma keepsQueued_refl skip w : keepsQueued skip w w.
Proof. intros x _ _. reflexivity. Qed.

Lemma keepsQueued_trans skip w1 w2 w3 :
  keepsQueued skip w1 w2 -> shrinks w2 w3 -> keepsQueued skip w2 w3 ->
  keepsQueued skip w1 w3.
Proof.
  intros H12 (_ & _ & _ & Hs & _) H23 x Hx Hskip.
  rewrite H23 by assumption. apply H12; [|assumption].
  eapply sublist_In; eassumption.
Qed.

Lemma keepsQueued_skip skip w w' : keepsQueued None w w' -> keepsQueued skip w w'.
Proof. intros Hk x Hx _. apply Hk; [exact Hx | discriminate]. Qed.

Lemma keepsQueued_updJob (j : JobId) (f : Job -> Job) w :
  keepsQueued (Some j) w (updJob j f w).
Proof.
  intros x _ Hx. apply updJob_other. intros ->. now apply Hx.
Qed.

Lemma finalCleanup_keepsQueued c w w' :
  finalCleanup c w = Done w' -> keepsQueued (Some c) w w'.
Proof.
  unfold finalCleanup, getPrivate.
  destruct (collection (jobStore w c)) as [d|]; [|discriminate].
  cbn [bind]. intros Hr. inversion Hr; subst. clear Hr.
  intros x _ Hx. unfold updPrivate, setStatus.
  rewrite !updJob_other by (intros ->; now apply Hx).
  unfold freeQueuePolicyResources. now rewrite freeAll_jobStore.
Qed.

Lemma dequeueEach_keepsQueued dq elems :
  shrinking dq -> sparing dq ->
  forall w w', dequeueEach dq elems w = Done w' ->
  NoDup (m_assignments w) -> keepsQueued None w w'.
Proof.
  intros Hsh Hsp. induction elems as [|e rest IH]; intros w w' Hr Hnd;
    simpl in Hr.
  - inversion Hr; subst. apply keepsQueued_refl.
  - destruct (dq e (emit (EvApiDequeue e) w)) as [[b w1]| | |] eqn:E;
      try discriminate.
    cbn [bind snd] in Hr.
    pose proof (Hsh _ _ _ _ E) as Hs1.
    assert (Hk1 : keepsQueued None w w1) by (apply (Hsp _ _ _ _ E); exact Hnd).
    eapply keepsQueued_trans; [exact Hk1 | |].
    + eapply dequeueEach_shrinks; eassumption.
    + apply IH; [exact Hr|]. eapply shrinks_NoDup; [exact Hs1 | exact Hnd].
Qed.

Lemma dequeueElements_with_keepsQueued dq c w w' :
  shrinking dq -> sparing dq ->
  dequeueElements_with dq c w = Done w' ->
  NoDup (m_assignments w) -> keepsQueued (Some c) w w'.
Proof.
  intros Hsh Hsp. unfold dequeueElements_with, getPrivate.
  destruct (collection (jobStore w c)) as [d|]; [|discriminate].
  cbn [bind]. destruct (api d).
  2:{ intros Hr _. inversion Hr; subst. apply keepsQueued_refl. }
  destruct (dequeueEach dq (elements d) w) as [w1| | |] eqn:E; try discriminate.
  cbn [bind].
  destruct (collection (jobStore w1 c)) as [d1|]; [|discriminate].
  cbn [bind]. intros Hr Hnd.
  assert (Hk1 : keepsQueued (Some c) w w1).
  { apply keepsQueued_skip. eapply dequeueEach_keepsQueued; eassumption. }
  set (w2 := updPrivate c (set_jobCounter 0) w1) in *.
  assert (Hs2 : shrinks w1 w2) by now apply shrinks_updPrivate.
  assert (Hk2 : keepsQueued (Some c) w1 w2) by apply keepsQueued_updJob.
  destruct (jobCounter d1 =? 0).
  - inversion Hr; subst. eapply keepsQueued_trans; eassumption.
  - eapply keepsQueued_trans; [exact Hk1 | |].
    + eapply shrinks_trans; [exact Hs2|]. eapply finalCleanup_shrinks, Hr.
    + eapply keepsQueued_trans; [exact Hk2 | |].
      * eapply finalCleanup_shrinks, Hr.
      * eapply finalCleanup_keepsQueued, Hr.
Qed.

Lemma aboutToBeDequeued_with_keepsQueued dq j w w' :
  shrinking dq -> sparing dq ->
  aboutToBeDequeued_with dq j w = Done w' ->
  NoDup (m_assignments w) -> keepsQueued (Some j) w w'.
Proof.
  intros Hsh Hsp. unfold aboutToBeDequeued_with.
  set (w1 := emit (EvAboutToBeDequeued j) w).
  destruct (collection (jobStore w1 j)).
  - destruct (dequeueElements_with dq j w1) as [w2| | |] eqn:E; try discriminate.
    cbn [bind]. intros Hr Hnd. inversion Hr; subst.
    assert (Hk2 : keepsQueued (Some j) w w2).
    { intros x Hx Hne.
      apply (dequeueElements_with_keepsQueued dq j w1 w2 Hsh Hsp E Hnd x Hx Hne). }
    eapply keepsQueued_trans; [exact Hk2 | |].
    + now apply shrinks_updPrivate.
    + apply keepsQueued_updJob.
  - intros Hr _. inversion Hr; subst. intros x _ _. reflexivity.
Qed.

Lemma dequeue_p_sparing fuel : sparing (dequeue_p fuel).
Proof.
  induction fuel as [|fuel IH]; intros e w b w' Hr Hnd.
  - destruct e as [j|]; simpl in Hr.
    + destruct (QList.indexOf (m_assignments w) j); [discriminate|].
      inversion Hr; subst. apply keepsQueued_refl.
    + inversion Hr; subst. apply keepsQueued_refl.
  - destruct (dequeue_p_inv (S fuel) e w b w' Hr)
      as [(_ & -> & _) | (_ & j & w1 & newPosition & -> & _ & Hcb & Hn & ->)].
    + apply keepsQueued_refl.
    + cbn [pred] in Hcb. unfold aboutToBeDequeued in Hcb.
      pose proof (aboutToBeDequeued_with_shrinks _ _ _ _
                    (dequeue_p_shrinking fuel) Hcb) as Hs1.
      pose proof (aboutToBeDequeued_with_keepsQueued _ _ _ _
                    (dequeue_p_shrinking fuel) IH Hcb Hnd) as Hk1.
      intros x Hx _. simpl in Hx.
      assert (Hxj : x <> j).
      { intros ->. revert Hx. eapply removeAt_first_NoDup; [exact Hn|].
        eapply shrinks_NoDup; eassumption. }
      simpl. destruct (Nat.eqb_spec x j); [contradiction|].
      apply Hk1; [|congruence].
      eapply sublist_In; [apply removeAt_sublist | exact Hx].
Qed.

Lemma dequeue_sparing fuel : sparing (dequeue fuel).
Proof.
  intros e w b w'. unfold dequeue.
  destruct (dequeueAccepted (m_state w)).
  - apply dequeue_p_sparing.
  - intros Hr _. inversion Hr; subst. apply keepsQueued_refl.
Qed.

Lemma enqueueJob_queueInv job w :
  status (jobStore w job) = Status_New -> queueInv w ->
  queueInv (enqueueJob job w).
Proof.
  intros Hnew (Hnd & Hq).
  pose proof (enqueueJob_spec job w) as Hs. cbv zeta in Hs.
  destruct Hs as ((before & after & Hl & Hl' & _) & _ & _ & _ & _ & Hst & Hother).
  assert (Hnin : ~ In job (m_assignments w)).
  { intros Hin. apply Hq in Hin. congruence. }
  split.
  - rewrite Hl'. apply (NoDup_Add (Add_app job before after)).
    rewrite <- Hl. auto.
  - intros j Hj. rewrite Hl' in Hj.
    destruct (Nat.eq_dec j job) as [-> | Hne]; [exact Hst|].
    rewrite Hother by exact Hne. apply Hq. rewrite Hl.
    apply in_app_or in Hj. apply in_or_app.
    destruct Hj as [Hj | [Hj | Hj]]; [now left | congruence | now right].
Qed.

Lemma enqueue_loop_queueInv jobs : forall w,
  assertsHold w jobs -> queueInv w -> queueInv (enqueue_loop jobs w).
Proof.
  induction jobs as [|[job|] rest IH]; intros w Hassert Hinv; simpl in *.
  - exact Hinv.
  - destruct Hassert as [Hnew Hrest].
    apply IH; [exact Hrest | now apply enqueueJob_queueInv].
  - now apply IH.
Qed.

Lemma step_queueInv capAllowed s s' :
  step capAllowed assertsHold s s' ->
  queueInv (world s) -> queueInv (world s').
Proof.
  intros Hstep Hinv. pose proof Hinv as (Hnd & Hq).
  destruct Hstep; cbn [world].
  - unfold enqueue, enqueue_p.
    destruct (enqueueAccepted (m_state (world s))); [|exact Hinv].
    destruct (QList.isEmpty jobs); [exact Hinv|].
    now apply enqueue_loop_queueInv.
  - match goal with Hd : dequeue _ _ _ = _ |- _ =>
      pose proof (dequeue_shrinking _ _ _ _ _ Hd) as Hs;
      pose proof (dequeue_sparing _ _ _ _ _ Hd Hnd) as Hk end.
    split; [eapply shrinks_NoDup; eassumption|].
    intros j Hj. rewrite Hk; [|exact Hj | discriminate].
    apply Hq. destruct Hs as (_ & _ & _ & Hsub & _).
    eapply sublist_In; eassumption.
  - match goal with Hd : dequeue_all _ _ = _ |- _ =>
      unfold dequeue_all, dequeue_p_all in Hd;
      destruct (dequeueAccepted (m_state (world s)));
        [|inversion Hd; subst; exact Hinv];
      destruct (dequeueAll_loop fuel (length (m_assignments (world s))) 0
                  (world s)); try discriminate;
      cbn [bind] in Hd; inversion Hd; subst end.
    split; [constructor | intros j []].
  - exact Hinv.
  - take_frame Hf. destruct Hf as (Hs & Hj & _).
    split; [eapply sublist_NoDup; eassumption|].
    intros j Hin. rewrite Hj. apply Hq. eapply sublist_In; eassumption.
  - state_frame Suspending (world s) Hf.
    destruct Hf as (Ha & _ & _ & _ & _ & _ & Hj).
    unfold queueInv. now rewrite Ha, Hj.
  - state_frame WorkingHard (world s) Hf.
    destruct Hf as (Ha & _ & _ & _ & _ & _ & Hj).
    unfold queueInv. now rewrite Ha, Hj.
  - match goal with He : sameWeaver _ _ |- _ =>
      destruct He as (_ & _ & _ & Ha & _ & _ & _ & Hst) end.
    unfold queueInv. rewrite Ha. split; [exact Hnd|].
    intros j Hj. rewrite Hst by exact Hj. now apply Hq.
Qed.

Lemma reachable_queueInv capAllowed s :
  reachable capAllowed assertsHold s -> queueInv (world s).
Proof.
  induction 1 as [ideal store0 ps|s s' _ IH Hstep].
  - split; [constructor | intros j []].
  - eapply step_queueInv; eassumption.
Qed.

End QueueInvariant.

(** ** Dequeueing one job *)

Section DequeueOne.

Context {PS : Type} `{QueuePolicy PS}.

Implicit Types w : World PS.

(** C6: [dequeue_p] answers for every job pointer; it returns true exactly
    when the job is in the assignments.  When it returns true, the callback
    [aboutToBeDequeued] ran first, on the world in which the job was still
    queued, the job was then taken out of the assignments at the position
    it had after the callback, its status was set to New and [jobFinished]
    was signalled last; if the job was queued once, it is not in the
    assignments any more.  When it returns false, the world is unchanged.
    [dequeue] is [dequeue_p] in the states that accept it. *)
Theorem dequeue_p_single (rk : JobId -> nat) fuel job w :
  well_nested rk w -> (rankAbove rk job <= fuel)%nat ->
  exists b w',
    dequeue_p fuel job w = Done (b, w') /\
    (b = true <-> queued job w) /\
    (b = false -> w' = w) /\
    (b = true ->
     exists j w1 newPosition,
       job = Some j /\
       aboutToBeDequeued (pred fuel) j w = Done w1 /\
       (exists evs, trace w1 = trace w ++ EvAboutToBeDequeued j :: evs) /\
       QList.indexOf (m_assignments w1) j = Some newPosition /\
       m_assignments w' = QList.removeAt newPosition (m_assignments w1) /\
       status (jobStore w' j) = Status_New /\
       trace w' = trace w1 ++ [EvJobFinishedWakeAll] /\
       (NoDup (m_assignments w) -> ~ In j (m_assignments w'))) /\
    (dequeueAccepted (m_state w) = true ->
     dequeue fuel job w = dequeue_p fuel job w).
Proof.
  intros Hwn Hfuel.
  destruct (dequeue_p_answers rk fuel job w Hwn Hfuel) as (b & w' & Hr & _).
  exists b, w'. split; [exact Hr|].
  destruct (dequeue_p_inv fuel job w b w' Hr)
    as [(-> & -> & Hnq) | (-> & j & w1 & newPosition & -> & Hin & Hcb & Hn & ->)].
  - split; [split; [discriminate | contradiction]|].
    split; [reflexivity|]. split; [discriminate|].
    intros Ha. unfold dequeue. now rewrite Ha.
  - split; [split; auto|]. split; [discriminate|]. split.
    + intros _. exists j, w1, newPosition.
      split; [reflexivity|]. split; [exact Hcb|]. split.
      * destruct fuel as [|fuel]; [simpl in Hfuel; lia|].
        destruct (aboutToBeDequeued_with_frame rk (dequeue_p fuel) fuel j w)
          as (w2 & Hr2 & _ & Hev);
          [apply dequeue_p_answers | simpl in Hfuel; lia | exact Hwn |].
        unfold aboutToBeDequeued in Hcb. simpl in Hcb.
        assert (w2 = w1) by congruence. subst w2. exact Hev.
      * split; [exact Hn|]. split; [reflexivity|]. split.
        -- simpl. now rewrite Nat.eqb_refl.
        -- split; [reflexivity|]. intros Hnd. simpl.
           eapply removeAt_first_NoDup; [exact Hn|].
           apply aboutToBeDequeued_with_shrinks in Hcb;
             [|apply dequeue_p_shrinking].
           destruct Hcb as (_ & _ & _ & Hs & _).
           eapply sublist_NoDup; eassumption.
    + intros Ha. unfold dequeue. now rewrite Ha.
Qed.

(** C10: whenever [dequeue_p] returns true for a job that was queued once,
    the job is not in the assignments afterwards, whatever the callback
    removed: the callback leaves a sublist of the assignments, the position
    of the job is looked up in that list, and the job is taken from there.
    And a job is queued at most once in every state that the weaver reaches
    by calls that respect the assertion of [enqueue_p]. *)
Theorem dequeue_p_job_absent :
  (forall fuel j w w',
     NoDup (m_assignments w) ->
     dequeue_p fuel (Some j) w = Done (true, w') ->
     ~ In j (m_assignments w') /\
     exists w1 newPosition,
       aboutToBeDequeued (pred fuel) j w = Done w1 /\
       sublist (m_assignments w1) (m_assignments w) /\
       QList.indexOf (m_assignments w1) j = Some newPosition /\
       m_assignments w' = QList.removeAt newPosition (m_assignments w1)) /\
  (forall s : Sys PS,
     reachable anyCap assertsHold s -> NoDup (m_assignments (world s))).
Proof.
  split.
  - intros fuel j w w' Hnd Hr.
    destruct (dequeue_p_inv fuel (Some j) w true w' Hr)
      as [(Hb & _) | (_ & j' & w1 & newPosition & Hj & Hin & Hcb & Hn & ->)];
      [discriminate|].
    inversion Hj; subst j'.
    assert (Hs : sublist (m_assignments w1) (m_assignments w)).
    { apply aboutToBeDequeued_with_shrinks in Hcb; [|apply dequeue_p_shrinking].
      apply Hcb. }
    split.
    + simpl. eapply removeAt_first_NoDup; [exact Hn|].
      eapply sublist_NoDup; eassumption.
    + exists w1, newPosition. auto.
  - intros s Hr. apply reachable_queueInv in Hr. apply Hr.
Qed.

(** *** Dequeueing all jobs *)

Lemma skipn_nth_error {A : Type} (l : list A) : forall i x,
  nth_error l i = Some x -> skipn i l = x :: skipn (S i) l.
Proof.
  induction l as [|y l IH]; intros [|i] x Hn; simpl in *; try discriminate.
  - congruence.
  - now apply IH.
Qed.

Lemma dequeueAll_loop_plain fuel n : forall index w,
  (forall j, In j (m_assignments w) -> collection (jobStore w j) = None) ->
  (length (m_assignments w) <= index + n)%nat ->
  exists w',
    dequeueAll_loop fuel n index w = Done w' /\
    m_assignments w' = m_assignments w /\
    jobStore w' = jobStore w /\
    trace w' = trace w ++ map EvAboutToBeDequeued (skipn index (m_assignments w)).
Proof.
  induction n as [|n IH]; intros index w Hplain Hlen; simpl.
  - destruct (nth_error (m_assignments w) index) eqn:En.
    + assert (nth_error (m_assignments w) index <> None) by congruence.
      apply nth_error_Some in H0. lia.
    + apply nth_error_None in En. exists w.
      rewrite skipn_all2 by exact En. simpl. rewrite app_nil_r. auto.
  - destruct (nth_error (m_assignments w) index) as [j|] eqn:En.
    + unfold aboutToBeDequeued, aboutToBeDequeued_with. simpl.
      rewrite (Hplain j) by (eapply nth_error_In; eassumption).
      cbn [bind].
      destruct (IH (S index) (emit (EvAboutToBeDequeued j) w))
        as (w' & Hr & Ha & Hj & Ht); [exact Hplain | simpl; lia|].
      exists w'. split; [exact Hr|]. split; [exact Ha|]. split; [exact Hj|].
      rewrite Ht. simpl. rewrite (skipn_nth_error _ _ _ En). simpl.
      now rewrite <- app_assoc.
    + apply nth_error_None in En. exists w.
      rewrite skipn_all2 by exact En. simpl. rewrite app_nil_r. auto.
Qed.

(** What [dequeue_p()] does to a queue of plain jobs: the callback is
    delivered to each, in order, the list is cleared, and that is all; no
    status is written and [jobFinished] is not signalled. *)
Lemma dequeue_p_all_plain fuel w :
  (forall j, In j (m_assignments w) -> collection (jobStore w j) = None) ->
  exists w',
    dequeue_p_all fuel w = Done w' /\
    m_assignments w' = [] /\
    jobStore w' = jobStore w /\
    trace w' = trace w ++ map EvAboutToBeDequeued (m_assignments w).
Proof.
  intros Hplain. unfold dequeue_p_all.
  destruct (dequeueAll_loop_plain fuel (length (m_assignments w)) 0 w Hplain)
    as (w1 & Hr & Ha & Hj & Ht); [lia|].
  rewrite Hr. cbn [bind]. eexists. split; [reflexivity|].
  simpl. auto.
Qed.

End DequeueOne.

(** ** Job collections *)

Section Collections.

Context {PS : Type} `{QueuePolicy PS}.

Implicit Types w : World PS.

(** Queueing leaves the bookkeeping of every collection alone. *)
Lemma kept_private w w' c d :
  keeps staticOf w w' -> keeps countersOf w w' ->
  collection (jobStore w c) = Some d ->
  exists d',
    collection (jobStore w' c) = Some d' /\
    elements d' = elements d /\ jobCounter d' = jobCounter d /\
    self d' = self d /\ selfIsExecuting d' = selfIsExecuting d.
Proof.
  intros Hs Hc Hd. specialize (Hs c). specialize (Hc c).
  unfold staticOf, countersOf in *. rewrite Hd in *.
  destruct (collection (jobStore w' c)) as [d'|]; simpl in *; [|discriminate].
  exists d'. repeat split; congruence.
Qed.

Lemma finalCleanup_spec c w d :
  collection (jobStore w c) = Some d ->
  exists w',
    finalCleanup c w = Done w' /\
    collection (jobStore w' c) = Some (set_api None d) /\
    status (jobStore w' c) = Status_Success /\
    trace w' = trace w ++ map (freed (self d)) (queuePolicies (jobStore w c)).
Proof.
  intros Hd. unfold finalCleanup, getPrivate. rewrite Hd. cbn [bind].
  eexists. split; [reflexivity|].
  unfold freeQueuePolicyResources.
  split; [|split].
  - rewrite updPrivate_collection. unfold setStatus. rewrite updJob_same.
    cbn [collection]. rewrite freeAll_jobStore, Hd. reflexivity.
  - unfold updPrivate, setStatus. rewrite !updJob_same. reflexivity.
  - simpl. apply freeAll_trace.
Qed.

Lemma countDown_spec c thread w d :
  collection (jobStore w c) = Some d ->
  let remaining := jobCounter d - 1 in
  exists w' d',
    countDown c thread w = Done w' /\
    collection (jobStore w' c) = Some d' /\
    jobCounter d' = remaining /\
    elements d' = elements d /\
    selfIsExecuting d' = selfIsExecuting d /\
    trace w' =
      trace w ++
      (if remaining =? 0
       then map (freed (self d)) (queuePolicies (jobStore w c))
            ++ [EvDefaultEnd (self d) thread]
       else []) /\
    (remaining = 0 ->
     status (jobStore w' c) = Status_Success /\ api d' = None /\ self d' = None) /\
    (remaining <> 0 ->
     self d' = self d /\ api d' = api d /\
     status (jobStore w' c) = status (jobStore w c)).
Proof.
  intros Hd remaining. unfold countDown, getPrivate. rewrite Hd. cbn [bind].
  fold remaining.
  set (w2 := updPrivate c (set_jobCounter remaining) w).
  assert (Hd2 : collection (jobStore w2 c) = Some (set_jobCounter remaining d)).
  { subst w2. rewrite updPrivate_collection, Hd. reflexivity. }
  assert (Hq2 : queuePolicies (jobStore w2 c) = queuePolicies (jobStore w c)).
  { subst w2. unfold updPrivate. now rewrite updJob_same. }
  destruct (remaining =? 0) eqn:Er.
  - destruct (finalCleanup_spec c w2 _ Hd2) as (w3 & Hfc & Hd3 & Hst & Htr).
    rewrite Hfc. cbn [bind]. rewrite Hd3. cbn [bind].
    eexists. eexists. split; [reflexivity|].
    split; [rewrite updPrivate_collection; cbn [emit jobStore];
            rewrite Hd3; reflexivity|].
    apply Z.eqb_eq in Er.
    split; [simpl; lia|]. split; [reflexivity|]. split; [reflexivity|].
    split; [|split].
    + cbn [updPrivate updJob set_jobStore emit trace set_api self set_jobCounter].
      rewrite Htr, Hq2. subst w2. simpl. now rewrite <- app_assoc.
    + intros _. split; [|split; reflexivity].
      unfold updPrivate. rewrite updJob_same. cbn [status emit jobStore].
      exact Hst.
    + intros Hne. contradiction.
  - exists w2, (set_jobCounter remaining d). split; [reflexivity|].
    split; [exact Hd2|].
    split; [reflexivity|]. split; [reflexivity|]. split; [reflexivity|].
    split; [subst w2; simpl; now rewrite app_nil_r|]. split.
    + intros H0. apply Z.eqb_neq in Er. contradiction.
    + intros _. split; [reflexivity|]. split; [reflexivity|].
      subst w2. unfold updPrivate. now rewrite updJob_same.
Qed.


End Collections.

(** ** Stopping a collection *)

Section Stop.

Context {PS : Type} `{QueuePolicy PS}.

Implicit Types w : World PS.

Lemma dequeue_p_removing fuel : removing (dequeue_p fuel).
Proof.
  intros e w b w' Hr Hnd _.
  destruct (dequeue_p_inv fuel (Some e) w b w' Hr)
    as [(_ & -> & Hnq) | (_ & j & w1 & newPosition & Hj & _ & Hcb & Hn & ->)].
  - exact Hnq.
  - inversion Hj; subst j. simpl.
    eapply removeAt_first_NoDup; [exact Hn|].
    apply aboutToBeDequeued_with_shrinks in Hcb; [|apply dequeue_p_shrinking].
    destruct Hcb as (_ & _ & _ & Hs & _).
    eapply sublist_NoDup; eassumption.
Qed.

Lemma dequeue_removing fuel : removing (dequeue fuel).
Proof.
  intros e w b w' Hr Hnd Ha. unfold dequeue in Hr. rewrite Ha in Hr.
  eapply dequeue_p_removing; eassumption.
Qed.

Lemma dequeueEach_removes dq elems :
  shrinking dq -> removing dq ->
  forall w w', dequeueEach dq elems w = Done w' ->
  NoDup (m_assignments w) -> dequeueAccepted (m_state w) = true ->
  forall e, In (Some e) elems -> ~ In e (m_assignments w').
Proof.
  intros Hsh Hrm. induction elems as [|x rest IH]; intros w w' Hr Hnd Ha e Hin.
  - contradiction.
  - simpl in Hr.
    destruct (dq x (emit (EvApiDequeue x) w)) as [[b w1]| | |] eqn:E;
      try discriminate.
    cbn [bind snd] in Hr.
    pose proof (Hsh _ _ _ _ E) as Hs1.
    assert (Hnd1 : NoDup (m_assignments w1)) by (eapply shrinks_NoDup; eauto).
    assert (Ha1 : dequeueAccepted (m_state w1) = true).
    { rewrite (shrinks_accepted _ _ Hs1). exact Ha. }
    destruct Hin as [-> | Hin].
    + eapply shrinks_absent; [eapply dequeueEach_shrinks; eassumption|].
      eapply Hrm; [exact E | exact Hnd | exact Ha].
    + eapply IH; eassumption.
Qed.

(** What [dequeueElements] does for a collection that is bound to the
    weaver. *)
Lemma dequeueElements_with_cleanup (rk : JobId -> nat) dq n c d w :
  answers rk dq n -> shrinking dq -> removing dq ->
  (rk c <= n)%nat -> well_nested rk w ->
  collection (jobStore w c) = Some d -> api d <> None ->
  exists w',
    dequeueElements_with dq c w = Done w' /\
    shrinks w w' /\
    (NoDup (m_assignments w) -> dequeueAccepted (m_state w) = true ->
     forall e, In (Some e) (elements d) -> ~ In e (m_assignments w')) /\
    (exists evs, trace w' = trace w ++ evs ++
       if jobCounter d =? 0 then []
       else map (freed (self d)) (queuePolicies (jobStore w c))) /\
    exists d',
      collection (jobStore w' c) = Some d' /\ jobCounter d' = 0 /\
      self d' = self d /\
      (jobCounter d <> 0 ->
       api d' = None /\ status (jobStore w' c) = Status_Success).
Proof.
  intros Hdq Hsh Hrm Hc Hwn Hd Hapi.
  unfold dequeueElements_with, getPrivate. rewrite Hd. cbn [bind].
  destruct (api d) as [a|]; [|contradiction].
  destruct (dequeueEach_frame rk dq n (rk c) (elements d) Hdq Hc w Hwn)
    as (w1 & Hgo & Hf1).
  { intros e He. apply Hwn. unfold elementsOf. now rewrite Hd. }
  rewrite Hgo. cbn [bind].
  pose proof Hf1 as (_ & _ & _ & _ & Hks & Hj & _ & (evs & Hev)).
  assert (Hj1 : jobStore w1 c = jobStore w c) by (apply Hj; lia).
  rewrite Hj1, Hd. cbn [bind].
  set (w2 := updPrivate c (set_jobCounter 0) w1).
  assert (Hd2 : collection (jobStore w2 c) = Some (set_jobCounter 0 d)).
  { subst w2. rewrite updPrivate_collection, Hj1, Hd. reflexivity. }
  assert (Hs1 : shrinks w w1) by (eapply dequeueFrame_shrinks; eassumption).
  assert (Hs2 : shrinks w1 w2) by now apply shrinks_updPrivate.
  assert (Hgone : NoDup (m_assignments w) -> dequeueAccepted (m_state w) = true ->
                  forall e, In (Some e) (elements d) -> ~ In e (m_assignments w1)).
  { intros Hnd Ha. eapply dequeueEach_removes; eassumption. }
  destruct (jobCounter d =? 0) eqn:E0.
  - exists w2. split; [reflexivity|].
    split; [eapply shrinks_trans; eassumption|]. split; [exact Hgone|].
    split; [exists evs; now rewrite app_nil_r|].
    eexists. split; [exact Hd2|]. split; [reflexivity|]. split; [reflexivity|].
    intros Hne. apply Z.eqb_eq in E0. contradiction.
  - destruct (finalCleanup_spec c w2 _ Hd2) as (w3 & Hfc & Hd3 & Hst & Htr).
    exists w3. split; [exact Hfc|].
    assert (Hs3 : shrinks w2 w3) by (eapply finalCleanup_shrinks; eassumption).
    split; [eapply shrinks_trans; [exact Hs1|];
            eapply shrinks_trans; eassumption|].
    split.
    { intros Hnd Ha e He. eapply shrinks_absent; [exact Hs3|].
      apply (Hgone Hnd Ha e He). }
    split.
    { exists evs. rewrite Htr.
      replace (trace w2) with (trace w1) by reflexivity.
      rewrite Hev.
      replace (queuePolicies (jobStore w2 c)) with (queuePolicies (jobStore w c)).
      - cbn [set_jobCounter self]. now rewrite <- app_assoc.
      - subst w2. unfold updPrivate. rewrite updJob_same. cbn [queuePolicies].
        now rewrite Hj1. }
    eexists. split; [exact Hd3|]. split; [reflexivity|]. split; [reflexivity|].
    intros _. split; [reflexivity | exact Hst].
Qed.

Lemma aboutToBeDequeued_with_cleanup (rk : JobId -> nat) dq n c d w :
  answers rk dq n -> shrinking dq -> removing dq ->
  (rk c <= n)%nat -> well_nested rk w ->
  collection (jobStore w c) = Some d -> api d <> None ->
  exists w' d',
    aboutToBeDequeued_with dq c w = Done w' /\
    shrinks w w' /\
    (NoDup (m_assignments w) -> dequeueAccepted (m_state w) = true ->
     forall e, In (Some e) (elements d) -> ~ In e (m_assignments w')) /\
    (exists evs, trace w' = trace w ++ evs ++
       if jobCounter d =? 0 then []
       else map (freed (self d)) (queuePolicies (jobStore w c))) /\
    collection (jobStore w' c) = Some d' /\
    jobCounter d' = 0 /\ api d' = None.
Proof.
  intros Hdq Hsh Hrm Hc Hwn Hd Hapi. unfold aboutToBeDequeued_with.
  set (w1 := emit (EvAboutToBeDequeued c) w).
  replace (jobStore w1 c) with (jobStore w c) by reflexivity. rewrite Hd.
  destruct (dequeueElements_with_cleanup rk dq n c d w1 Hdq Hsh Hrm Hc)
    as (w2 & Hr & Hs & Hgone & (evs & Hev) & d2 & Hd2 & Hc2 & _);
    [intros x e He; apply (Hwn x e He) | exact Hd | exact Hapi |].
  rewrite Hr. cbn [bind].
  eexists. exists (set_api None d2). split; [reflexivity|].
  assert (Hs3 : shrinks w2 (updPrivate c (set_api None) w2))
    by now apply shrinks_updPrivate.
  split; [|split; [|split; [|split; [|split]]]].
  - eapply shrinks_trans; [apply shrinks_emit|].
    eapply shrinks_trans; eassumption.
  - intros Hnd Ha e He. eapply shrinks_absent; [exact Hs3|].
    apply (Hgone Hnd Ha e He).
  - exists (EvAboutToBeDequeued c :: evs).
    replace (trace (updPrivate c (set_api None) w2)) with (trace w2)
      by reflexivity.
    rewrite Hev. subst w1. cbn [emit trace jobStore].
    rewrite <- !app_assoc. reflexivity.
  - rewrite updPrivate_collection, Hd2. reflexivity.
  - exact Hc2.
  - reflexivity.
Qed.

(** *** Calls made with the mutex of the collection held *)

Lemma dequeueEach_ext (dq1 dq2 : JobPointer -> World PS -> Res (bool * World PS))
  elems :
  (forall e w, In e elems -> dq1 e w = dq2 e w) ->
  forall w, dequeueEach dq1 elems w = dequeueEach dq2 elems w.
Proof.
  induction elems as [|x rest IH]; intros Hext w; [reflexivity|].
  cbn [dequeueEach]. rewrite (Hext x _ (or_introl eq_refl)).
  destruct (dq2 x (emit (EvApiDequeue x) w)) as [[b w1]| | |];
    cbn [bind snd]; try reflexivity.
  apply IH. intros e w' He. apply Hext. now right.
Qed.

Lemma dequeueElements_with_ext
  (dq1 dq2 : JobPointer -> World PS -> Res (bool * World PS)) c w d :
  collection (jobStore w c) = Some d ->
  (forall e w', In e (elements d) -> dq1 e w' = dq2 e w') ->
  dequeueElements_with dq1 c w = dequeueElements_with dq2 c w.
Proof.
  intros Hd Hext. unfold dequeueElements_with, getPrivate.
  rewrite Hd. cbn [bind]. destruct (api d); [|reflexivity].
  now rewrite (dequeueEach_ext dq1 dq2 (elements d) Hext w).
Qed.

Lemma dequeue_holding_other holder fuel e w :
  e <> Some holder -> dequeue_holding holder fuel e w = dequeue fuel e w.
Proof.
  intros Hne. unfold dequeue_holding, dequeue.
  destruct (dequeueAccepted (m_state w)); [|reflexivity].
  destruct e as [j|]; [|reflexivity].
  destruct (Nat.eqb_spec j holder) as [-> | _]; [|reflexivity].
  now elim Hne.
Qed.

Lemma dequeue_holding_self holder fuel w :
  dequeue_holding holder fuel (Some holder) w =
  if dequeueAccepted (m_state w)
  then match QList.indexOf (m_assignments w) holder with
       | Some _ => Deadlock
       | None => Done (false, w)
       end
  else Done (false, w).
Proof. unfold dequeue_holding. now rewrite Nat.eqb_refl. Qed.

(** C7: [stop] on a collection that is bound to a weaver asks the weaver to
    dequeue the collection itself, and holds the mutex of the collection
    while it does.  Where the collection is in the assignments and the
    state accepts the call, the weaver comes to the callback
    [aboutToBeDequeued] of the collection, which waits for that mutex:
    [stop] never returns, whatever the fuel, although the same [dequeue]
    succeeds for a caller that does not hold the mutex.  Where the
    collection is not in the assignments, or the state rejects the call,
    [stop] goes on to dequeue every element: no element is left in the
    assignments, [jobCounter] ends at zero, and if it was not zero before,
    the final cleanup ran on the way: the policies of the collection were
    freed for [self] and the binding to the weaver is cleared.  The
    callback on its own, called by the weaver, does the same. *)
Theorem stop_spec (rk : JobId -> nat) fuel c job w d :
  well_nested rk w -> (rk c < fuel)%nat ->
  collection (jobStore w c) = Some d -> api d <> None ->
  let w0 := emit (EvApiDequeue (Some c)) w in
  let cleanup :=
    if jobCounter d =? 0 then []
    else map (freed (self d)) (queuePolicies (jobStore w c)) in
  (In c (m_assignments w) /\ dequeueAccepted (m_state w) = true ->
   (forall fuel', stop fuel' c job w = Deadlock) /\
   exists w',
     dequeue fuel (Some c) w0 = Done (true, w') /\
     status (jobStore w' c) = Status_New /\
     (NoDup (m_assignments w) -> ~ In c (m_assignments w'))) /\
  (~ (In c (m_assignments w) /\ dequeueAccepted (m_state w) = true) ->
   exists w' d',
     stop fuel c job w = Done w' /\
     dequeue_holding c fuel (Some c) w0 = Done (false, w0) /\
     dequeueElements fuel false c w0 = Done w' /\
     (NoDup (m_assignments w) -> dequeueAccepted (m_state w) = true ->
      forall e, In (Some e) (elements d) -> ~ In e (m_assignments w')) /\
     collection (jobStore w' c) = Some d' /\
     jobCounter d' = 0 /\
     (jobCounter d <> 0 -> api d' = None) /\
     exists before after, trace w' = trace w ++ before ++ cleanup ++ after) /\
  (exists w' d',
     aboutToBeDequeued (pred fuel) c w = Done w' /\
     (NoDup (m_assignments w) -> dequeueAccepted (m_state w) = true ->
      forall e, In (Some e) (elements d) -> ~ In e (m_assignments w')) /\
     collection (jobStore w' c) = Some d' /\
     jobCounter d' = 0 /\ api d' = None /\
     exists before, trace w' = trace w ++ before ++ cleanup).
Proof.
  intros Hwn Hfuel Hd Hapi w0 cleanup.
  destruct fuel as [|f]; [lia|]. cbn [pred].
  assert (Hcf : (rk c <= f)%nat) by lia.
  assert (Hwn0 : well_nested rk w0) by (intros x e He; apply (Hwn x e He)).
  assert (Hd0 : collection (jobStore w0 c) = Some d) by exact Hd.
  assert (Hstop : forall fuel',
            stop fuel' c job w =
            r <- dequeue_holding c fuel' (Some c) w0 ;;
            if fst r then Done (snd r)
            else dequeueElements_with (dequeue_holding c fuel') c (snd r)).
  { intros fuel'. unfold stop, getPrivate. rewrite Hd. cbn [bind].
    destruct (api d); [reflexivity | contradiction]. }
  split; [|split].
  - (* the collection is queued: its callback waits for the mutex held *)
    intros [Hin Hacc]. split.
    + intros fuel'. rewrite Hstop, dequeue_holding_self.
      replace (m_state w0) with (m_state w) by reflexivity. rewrite Hacc.
      replace (m_assignments w0) with (m_assignments w) by reflexivity.
      destruct (QList.indexOf (m_assignments w) c) eqn:Ei; [reflexivity|].
      apply (indexOf_None rk) in Ei. contradiction.
    + destruct (dequeue_p_answers rk (S f) (Some c) w0 Hwn0)
        as (b & w' & Hr & _); [simpl; lia|].
      destruct (dequeue_p_inv (S f) (Some c) w0 b w' Hr)
        as [(_ & _ & Hnq)
           | (-> & j & w1 & newPosition & Hj & _ & Hcb & Hn & Hw')];
        [exfalso; apply Hnq; exact Hin|].
      inversion Hj; subst j. cbn [pred] in Hcb.
      pose proof (aboutToBeDequeued_with_shrinks _ _ _ _
                    (dequeue_p_shrinking f) Hcb) as Hs1.
      exists w'. split.
      * unfold dequeue. replace (m_state w0) with (m_state w) by reflexivity.
        now rewrite Hacc.
      * split.
        -- subst w'. simpl. now rewrite Nat.eqb_refl.
        -- intros Hnd. subst w'. simpl.
           eapply removeAt_first_NoDup; [exact Hn|].
           eapply shrinks_NoDup; [exact Hs1 | exact Hnd].
  - (* the collection is not queued, or the state rejects the call: the
       elements are dequeued *)
    intros Hno.
    assert (Hdq : dequeue_holding c (S f) (Some c) w0 = Done (false, w0)).
    { rewrite dequeue_holding_self.
      replace (m_state w0) with (m_state w) by reflexivity.
      destruct (dequeueAccepted (m_state w)) eqn:Eacc; [|reflexivity].
      replace (m_assignments w0) with (m_assignments w) by reflexivity.
      destruct (QList.indexOf (m_assignments w) c) eqn:Ei; [|reflexivity].
      exfalso. apply Hno. split; [|reflexivity].
      exact (indexOf_In _ _ _ Ei). }
    assert (Hsame : dequeueElements_with (dequeue_holding c (S f)) c w0
                    = dequeueElements (S f) false c w0).
    { unfold dequeueElements.
      apply (dequeueElements_with_ext _ _ c w0 d Hd0).
      intros e w' He. apply dequeue_holding_other.
      intros ->.
      assert (Hlt : (rk c < rk c)%nat).
      { apply (Hwn c c). unfold elementsOf. rewrite Hd. exact He. }
      lia. }
    destruct (dequeueElements_with_cleanup rk (dequeue (S f)) (S f) c d w0)
      as (w' & Hr & Hs & Hgone & (evs & Hev) & d' & Hd' & Hc' & _ & Hcl);
      auto using dequeue_answers, dequeue_shrinking, dequeue_removing.
    exists w', d'.
    split.
    { rewrite Hstop, Hdq. cbn [bind fst snd]. rewrite Hsame. exact Hr. }
    split; [exact Hdq|].
    split; [exact Hr|].
    split; [intros Hnd Hacc; apply (Hgone Hnd Hacc)|].
    split; [exact Hd'|].
    split; [exact Hc'|].
    split; [intros Hne; apply (Hcl Hne)|].
    exists (EvApiDequeue (Some c) :: evs), [].
    rewrite Hev. subst w0. cbn [emit trace jobStore]. fold cleanup.
    rewrite app_nil_r, <- !app_assoc. reflexivity.
  - destruct (aboutToBeDequeued_with_cleanup rk (dequeue_p f) f c d w)
      as (w' & d' & Hr & _ & Hgone & Hev & Hd' & Hc' & Ha');
      auto using dequeue_p_answers, dequeue_p_shrinking, dequeue_p_removing.
    exists w', d'. repeat split; assumption.
Qed.

End Stop.

(** * More properties of the code *)

(** ** What the policies are asked *)

Section PolicyEvents.

Context {PS : Type} `{QueuePolicy PS}.

Implicit Types w : World PS.

Lemma canBeExecuted_events job w :
  let r := canBeExecuted job w in
  exists evs,
    trace (snd r) = trace w ++ evs /\
    Forall (policyEventFor (Some job)) evs /\
    (fst r = true -> forall p, ~ In (EvRelease p (Some job)) evs) /\
    (fst r = false -> exists p, In (EvCanRun p (Some job) false) evs) /\
    (queuePolicies (jobStore w job) <> [] ->
     exists p b, In (EvCanRun p (Some job) b) evs).
Proof.
  unfold canBeExecuted.
  destruct (queuePolicies (jobStore w job)) as [|p0 rest] eqn:Ep.
  - exists []. simpl. rewrite app_nil_r.
    repeat split; auto; try discriminate; congruence.
  - replace (QList.isEmpty (p0 :: rest)) with false by reflexivity.
    pose proof (acquire_spec (p0 :: rest) (Some job) [] w) as [_ Hacq].
    destruct (acquire (p0 :: rest) (Some job) [] w) as [[ok acq] w1].
    cbn [fst snd] in Hacq.
    assert (Hg : forall l, Forall (policyEventFor (Some job))
                             (map (granted (Some job)) l)).
    { intros l. apply Forall_forall. intros e He. apply in_map_iff in He.
      destruct He as (p & <- & _). reflexivity. }
    assert (Hrl : forall l, Forall (policyEventFor (Some job))
                              (map (released (Some job)) l)).
    { intros l. apply Forall_forall. intros e He. apply in_map_iff in He.
      destruct He as (p & <- & _). reflexivity. }
    destruct Hacq as [(-> & _ & Htr) | (-> & adm & refu & rs & Hp & Hacq & Htr)];
      cbn [fst snd].
    + exists (map (granted (Some job)) (p0 :: rest)).
      split; [exact Htr|]. split; [apply Hg|]. split; [|split].
      * intros _ p Hin. apply in_map_iff in Hin.
        destruct Hin as (q & Hq & _). discriminate.
      * discriminate.
      * intros _. exists p0, true. now left.
    + destruct (releaseAll_spec acq (Some job) w1) as [_ Hrel].
      exists (map (granted (Some job)) adm ++ [EvCanRun refu (Some job) false]
                ++ map (released (Some job)) acq).
      split; [rewrite Hrel, Htr; now rewrite <- !app_assoc|].
      split.
      { apply Forall_app. split; [apply Hg|]. constructor; [reflexivity|].
        apply Hrl. }
      split; [discriminate|]. split.
      * intros _. exists refu. apply in_or_app. right. now left.
      * intros _. exists refu, false. apply in_or_app. right. now left.
Qed.

Lemma refusedInTurn_events candidates : forall w w',
  refusedInTurn candidates w = Some w' ->
  exists evs,
    trace w' = trace w ++ evs /\ Forall policyEvent evs /\
    forall x, In x candidates -> exists p, In (EvCanRun p (Some x) false) evs.
Proof.
  induction candidates as [|c rest IH]; intros w w' Hr; simpl in Hr.
  - inversion Hr; subst. exists []. rewrite app_nil_r.
    repeat split; auto. intros x [].
  - destruct (canBeExecuted_events c w) as (e1 & Ht1 & Hf1 & _ & Hno & _).
    destruct (canBeExecuted c w) as [ok w1]; cbn [fst snd] in *.
    destruct ok; [discriminate|].
    destruct (IH w1 w' Hr) as (e2 & Ht2 & Hf2 & Hall).
    exists (e1 ++ e2). split; [rewrite Ht2, Ht1; now rewrite app_assoc|].
    split.
    + apply Forall_app. split; [|exact Hf2].
      eapply Forall_impl; [|exact Hf1]. intros [] He; simpl in *; auto.
    + intros x [<- | Hx].
      * destruct (Hno eq_refl) as (p & Hp). exists p.
        apply in_or_app. now left.
      * destruct (Hall x Hx) as (p & Hp). exists p.
        apply in_or_app. now right.
Qed.

End PolicyEvents.

(** ** What a worker's request signals *)

Section WorkerSignals.

Context {PS : Type} `{QueuePolicy PS}.

Implicit Types w : World PS.

Lemma decActiveThreadCount_trace w :
  trace (decActiveThreadCount w) =
  trace w
  ++ (if QList.isEmpty (m_assignments w) && (m_active w - 1 =? 0)
      then [EvFinished] else [])
  ++ [EvJobFinishedWakeAll].
Proof.
  unfold decActiveThreadCount, adjustActiveThreadCount. simpl.
  replace (m_active w + -1) with (m_active w - 1) by lia.
  destruct (QList.isEmpty (m_assignments w) && (m_active w - 1 =? 0));
    simpl; now rewrite <- ?app_assoc.
Qed.

Lemma incActiveThreadCount_trace w :
  0 <= m_active w ->
  trace (incActiveThreadCount w) = trace w.
Proof.
  intros Hpos. unfold incActiveThreadCount, adjustActiveThreadCount. simpl.
  replace (m_active w + 1 =? 0) with false by (symmetry; apply Z.eqb_neq; lia).
  now rewrite andb_false_r.
Qed.

Lemma policyEvent_not_finished evs :
  Forall policyEvent evs -> ~ In EvFinished evs.
Proof.
  intros Hf Hin. rewrite Forall_forall in Hf. apply (Hf _ Hin).
Qed.

(** The events of a request after the decrement for a worker that was
    busy. *)
Lemma takeFirstAvailableJobOrSuspendOrWait_events
  (th : ThreadId) (threadWasBusy suspendIfInactive justReturning : bool) w :
  let w1 := if threadWasBusy then decActiveThreadCount w else w in
  let r := takeFirstAvailableJobOrSuspendOrWait
             th threadWasBusy suspendIfInactive justReturning w in
  exists rest,
    trace (snd r) = trace w1 ++ rest /\
    (0 <= m_active w1 -> ~ In EvFinished rest) /\
    forall next, fst r = Some next ->
      exists refused post,
        m_assignments w = refused ++ next :: post /\
        m_assignments (snd r) = refused ++ post /\
        forall x, In x refused -> exists p, In (EvCanRun p (Some x) false) rest.
Proof.
  intros w1 r. subst r. unfold takeFirstAvailableJobOrSuspendOrWait. fold w1.
  assert (Ha : m_assignments w1 = m_assignments w).
  { subst w1. destruct threadWasBusy; [|reflexivity].
    apply decActiveThreadCount_fields. }
  destruct (suspendIfInactive && (m_active w1 =? 0)
            && StateId_eqb (m_state w1) Suspending).
  { cbn [fst snd]. unfold setState_p.
    destruct (StateId_eqb (m_state w1) Suspended).
    - exists []. simpl. rewrite app_nil_r. repeat split; auto. discriminate.
    - exists [EvActivated Suspended; EvSuspended; EvStateChanged Suspended].
      simpl. rewrite <- !app_assoc. split; [reflexivity|].
      split; [intros _; simpl; intuition discriminate | discriminate]. }
  destruct (negb (StateId_eqb (m_state w1) WorkingHard) || justReturning).
  { exists []. cbn [fst snd]. rewrite app_nil_r. repeat split; auto.
    discriminate. }
  pose proof (firstAvailable_spec (m_assignments w1) 0 w1) as [Hf Hfirst].
  cbv zeta in Hf, Hfirst.
  destruct (firstAvailable (m_assignments w1) 0 w1) as [[[next i]|] w2];
    cbn [fst snd] in *.
  - destruct Hfirst as (refused & post & w0 & Hl & Hr & Hc & Hi).
    destruct (refusedInTurn_events refused w1 w0 Hr) as (e1 & Ht1 & Hf1 & Hall).
    destruct (canBeExecuted_events next w0) as (e2 & Ht2 & Hf2 & _).
    rewrite Hc in Ht2. cbn [fst snd] in Ht2.
    set (w3 := set_assignments (QList.removeAt i (m_assignments w2)) w2).
    destruct Hf as (Hact & _ & _ & Hfa & _).
    assert (Hpe : Forall policyEvent (e1 ++ e2)).
    { apply Forall_app. split; [exact Hf1|].
      eapply Forall_impl; [|exact Hf2]. intros [] He; simpl in *; auto. }
    destruct (Z_le_gt_dec 0 (m_active w1)) as [Hpos | Hneg].
    + exists (e1 ++ e2). split.
      * rewrite incActiveThreadCount_trace by (subst w3; simpl; lia).
        subst w3. cbn [set_assignments trace]. rewrite Ht2, Ht1.
        now rewrite app_assoc.
      * split; [intros _; now apply policyEvent_not_finished|].
        intros n Hn. inversion Hn; subst n. exists refused, post.
        split; [congruence|]. split.
        -- pose proof (incActiveThreadCount_fields w3) as Hinc.
           cbv zeta in Hinc. destruct Hinc as (Hia & _). rewrite Hia.
           subst w3. cbn [set_assignments m_assignments].
           rewrite Hfa, Hl, Hi. simpl. apply removeAt_middle.
        -- intros x Hx. destruct (Hall x Hx) as (p & Hp). exists p.
           apply in_or_app. now left.
    + assert (Hext : exists e3, trace (incActiveThreadCount w3) = trace w3 ++ e3).
      { unfold incActiveThreadCount, adjustActiveThreadCount.
        destruct (QList.isEmpty (m_assignments (set_active (m_active w3 + 1) w3))
                  && (m_active (set_active (m_active w3 + 1) w3) =? 0)).
        - exists [EvFinished]. reflexivity.
        - exists []. simpl. now rewrite app_nil_r. }
      destruct Hext as (e3 & He3).
      exists ((e1 ++ e2) ++ e3). split.
      * rewrite He3. subst w3. cbn [set_assignments trace]. rewrite Ht2, Ht1.
        now rewrite !app_assoc.
      * split; [intros Hpos; lia|].
        intros n Hn. inversion Hn; subst n. exists refused, post.
        split; [congruence|]. split.
        -- pose proof (incActiveThreadCount_fields w3) as Hinc.
           cbv zeta in Hinc. destruct Hinc as (Hia & _). rewrite Hia.
           subst w3. cbn [set_assignments m_assignments].
           rewrite Hfa, Hl, Hi. simpl. apply removeAt_middle.
        -- intros x Hx. destruct (Hall x Hx) as (p & Hp). exists p.
           apply in_or_app. left. apply in_or_app. now left.
  - destruct (refusedInTurn_events _ w1 w2 Hfirst) as (e1 & Ht1 & Hf1 & _).
    exists (e1 ++ [EvThreadSuspended th; EvWaitJobAvailable th]).
    split; [simpl; rewrite Ht1; now rewrite <- !app_assoc|].
    split; [|discriminate].
    intros _ Hin. apply in_app_or in Hin. destruct Hin as [Hin | Hin].
    + now apply (policyEvent_not_finished e1 Hf1).
    + simpl in Hin. intuition discriminate.
Qed.

(** X1: the job that a worker is handed has the highest priority of the
    queue, save for the jobs that a policy refused in this very call: every
    job that stays queued with a higher priority was asked before and was
    refused by one of its policies. *)
Theorem handed_out_job_has_priority
  (th : ThreadId) (threadWasBusy suspendIfInactive justReturning : bool) w next :
  let r := takeFirstAvailableJobOrSuspendOrWait
             th threadWasBusy suspendIfInactive justReturning w in
  prio_sorted w -> fst r = Some next ->
  exists evs,
    trace (snd r) = trace w ++ evs /\
    forall x, In x (m_assignments (snd r)) -> prio w next < prio w x ->
              exists p, In (EvCanRun p (Some x) false) evs.
Proof.
  intros r Hso Hnext.
  destruct (takeFirstAvailableJobOrSuspendOrWait_events
              th threadWasBusy suspendIfInactive justReturning w)
    as (rest & Htr & _ & Hout).
  fold r in Htr, Hout.
  destruct (Hout next Hnext) as (refused & post & Hl & Hl' & Hall).
  assert (Hw1 : exists e0,
            trace (if threadWasBusy then decActiveThreadCount w else w)
            = trace w ++ e0).
  { destruct threadWasBusy.
    - rewrite decActiveThreadCount_trace. eauto.
    - exists []. now rewrite app_nil_r. }
  destruct Hw1 as (e0 & He0).
  exists (e0 ++ rest). split; [rewrite Htr, He0; now rewrite app_assoc|].
  intros x Hx Hlt. rewrite Hl' in Hx. apply in_app_or in Hx.
  destruct Hx as [Hx | Hx].
  - destruct (Hall x Hx) as (p & Hp). exists p. apply in_or_app. now right.
  - exfalso. unfold prio_sorted in Hso. rewrite Hl in Hso.
    assert (Hs2 : StronglySorted (fun a b => prio w b <= prio w a)
                    (next :: post)).
    { eapply sublist_StronglySorted; [|exact Hso].
      clear. induction refused as [|y l IH]; simpl.
      - apply sublist_refl.
      - now apply sublist_skip. }
    apply StronglySorted_inv in Hs2. destruct Hs2 as [_ Hall2].
    rewrite Forall_forall in Hall2. specialize (Hall2 x Hx). lia.
Qed.

(** X2: a request signals [finished] exactly when the worker was busy, was
    the only active one and the queue is empty; the active count is taken
    not to be negative after the decrement, as the code asserts. *)
Theorem finished_signal
  (th : ThreadId) (threadWasBusy suspendIfInactive justReturning : bool) w :
  let r := takeFirstAvailableJobOrSuspendOrWait
             th threadWasBusy suspendIfInactive justReturning w in
  (if threadWasBusy then 1 else 0) <= m_active w ->
  exists evs,
    trace (snd r) = trace w ++ evs /\
    (In EvFinished evs <->
     threadWasBusy = true /\ m_active w = 1 /\ m_assignments w = []).
Proof.
  intros r Hact.
  destruct (takeFirstAvailableJobOrSuspendOrWait_events
              th threadWasBusy suspendIfInactive justReturning w)
    as (rest & Htr & Hnf & _).
  fold r in Htr.
  destruct threadWasBusy.
  - pose proof (decActiveThreadCount_fields w) as Hd. cbv zeta in Hd.
    destruct Hd as (_ & _ & Hda & _).
    specialize (Hnf ltac:(lia)).
    rewrite decActiveThreadCount_trace in Htr.
    eexists. split; [rewrite Htr, <- !app_assoc; reflexivity|].
    split.
    + intros Hin. apply in_app_or in Hin. destruct Hin as [Hin | Hin].
      * destruct (QList.isEmpty (m_assignments w)) eqn:Ee;
          [|simpl in Hin; contradiction].
        destruct (m_active w - 1 =? 0) eqn:E0; [|simpl in Hin; contradiction].
        apply Z.eqb_eq in E0. apply isEmpty_true in Ee.
        repeat split; [lia | exact Ee].
      * simpl in Hin. destruct Hin as [Hin | Hin]; [discriminate|].
        contradiction.
    + intros (_ & H1 & He). apply in_or_app. left.
      rewrite He, H1. simpl. now left.
  - specialize (Hnf Hact). exists rest. split; [exact Htr|].
    split; [intros Hin; contradiction | intros (Hb & _); discriminate].
Qed.


End WorkerSignals.

(** ** What queueing does *)

Section QueueingMore.

Context {PS : Type} `{QueuePolicy PS}.

Implicit Types w : World PS.

Lemma adjustInventory_exact n w :
  let k := Z.to_nat (Z.max 0 (Z.min (m_inventoryMax w
                                     - Z.of_nat (length (m_inventory w))) n)) in
  m_inventory (adjustInventory n w) = m_inventory w ++ seq (m_createdThreads w) k /\
  m_createdThreads (adjustInventory n w) = (m_createdThreads w + k)%nat.
Proof.
  intros k. unfold adjustInventory.
  destruct (0 <? m_inventoryMax w - Z.of_nat (length (m_inventory w))) eqn:Er.
  - pose proof (adjustInventory_loop_spec
                  (Z.to_nat (Z.min (m_inventoryMax w
                                    - Z.of_nat (length (m_inventory w))) n)) w)
      as Hl. cbv zeta in Hl. destruct Hl as (Hi & Hc & _).
    assert (Hk : k = Z.to_nat (Z.min (m_inventoryMax w
                                      - Z.of_nat (length (m_inventory w))) n)).
    { subst k. lia. }
    rewrite Hk. auto.
  - apply Z.ltb_ge in Er.
    assert (Hk : k = 0%nat) by (subst k; lia).
    rewrite Hk. simpl. rewrite app_nil_r, Nat.add_0_r. auto.
Qed.

Lemma enqueueJob_inventory job w :
  m_inventory (enqueueJob job w) = m_inventory (adjustInventory 1 w) /\
  m_createdThreads (enqueueJob job w) = m_createdThreads (adjustInventory 1 w) /\
  m_inventoryMax (enqueueJob job w) = m_inventoryMax w /\
  policyState (enqueueJob job w) = policyState w.
Proof.
  pose proof (adjustInventory_spec 1 w) as Hs. cbv zeta in Hs.
  destruct Hs as (_ & _ & _ & Hp & (_ & Hm & _)).
  unfold enqueueJob.
  destruct (0 <? length (m_assignments (aboutToBeQueued job (adjustInventory 1 w))))%nat;
    simpl; auto.
Qed.

Lemma enqueueJob_threads job w :
  currentNumberOfThreads_p (enqueueJob job w)
  = threadsAfter (currentNumberOfThreads_p w) (m_inventoryMax w) 1.
Proof.
  unfold currentNumberOfThreads_p, threadsAfter.
  destruct (enqueueJob_inventory job w) as (Hi & _).
  destruct (adjustInventory_exact 1 w) as (Hi' & _).
  rewrite Hi, Hi', length_app, length_seq. lia.
Qed.

Lemma threadsAfter_step c cap k :
  0 <= k -> threadsAfter (threadsAfter c cap 1) cap k = threadsAfter c cap (k + 1).
Proof. unfold threadsAfter. lia. Qed.

Lemma enqueue_loop_threads jobs : forall w,
  currentNumberOfThreads_p (enqueue_loop jobs w)
  = threadsAfter (currentNumberOfThreads_p w) (m_inventoryMax w)
                 (Z.of_nat (length (nonNull jobs))) /\
  m_inventoryMax (enqueue_loop jobs w) = m_inventoryMax w.
Proof.
  induction jobs as [|[job|] rest IH]; intros w; simpl.
  - split; [unfold threadsAfter; lia | reflexivity].
  - destruct (IH (enqueueJob job w)) as [Hc Hm].
    destruct (enqueueJob_inventory job w) as (_ & _ & Hm' & _).
    rewrite Hc, Hm, Hm', enqueueJob_threads.
    split; [|reflexivity].
    rewrite threadsAfter_step by lia. f_equal. lia.
  - apply IH.
Qed.

Lemma int_wrap_range x : int_range x -> int_wrap x = x.
Proof.
  unfold int_range, int_wrap, INT_MIN, INT_MAX. intros Hx.
  rewrite Z.mod_small; lia.
Qed.

(** X4: threads are created on demand, where the [int]s of the code do not
    overflow: the cap, the number of threads and their difference are
    within the range of [int].  [adjustInventory] adds as many threads as
    there are new jobs, but not more than the cap leaves room for, and none
    for a number of jobs that is not positive; queueing [k] jobs that are
    not null makes [min cap (c + k)] threads of [c] (and leaves [c] above
    the cap alone); a new weaver has no thread and, after its first batch,
    one per job up to [max 4 (2 * idealThreadCount)], where that product is
    within the range of [int]. *)
Theorem threads_created_on_demand :
  (forall n w,
     int_range n ->
     int_range (maximumNumberOfThreads_p w) ->
     int_range (currentNumberOfThreads_p w) ->
     int_range (maximumNumberOfThreads_p w - currentNumberOfThreads_p w) ->
     currentNumberOfThreads_p (adjustInventory n w)
     = currentNumberOfThreads_p w
       + Z.max 0 (Z.min (maximumNumberOfThreads_p w
                         - currentNumberOfThreads_p w) n)) /\
  (forall jobs w,
     int_range (maximumNumberOfThreads_p w) ->
     int_range (currentNumberOfThreads_p w) ->
     int_range (maximumNumberOfThreads_p w - currentNumberOfThreads_p w) ->
     currentNumberOfThreads_p (enqueue_p jobs w)
     = threadsAfter (currentNumberOfThreads_p w) (maximumNumberOfThreads_p w)
                    (Z.of_nat (length (nonNull jobs)))) /\
  (forall idealThreadCount store (ps : PS) jobs,
     int_range (2 * idealThreadCount) ->
     currentNumberOfThreads_p
       (enqueue_p jobs (WeaverImpl idealThreadCount store ps))
     = Z.min (Z.max 4 (2 * idealThreadCount))
             (Z.of_nat (length (nonNull jobs)))).
Proof.
  assert (Hbatch : forall jobs w,
            currentNumberOfThreads_p (enqueue_p jobs w)
            = threadsAfter (currentNumberOfThreads_p w)
                           (maximumNumberOfThreads_p w)
                           (Z.of_nat (length (nonNull jobs)))).
  { intros jobs w. unfold enqueue_p, maximumNumberOfThreads_p.
    destruct jobs as [|p rest]; [simpl; unfold threadsAfter; lia|].
    replace (QList.isEmpty (p :: rest)) with false by reflexivity.
    apply enqueue_loop_threads. }
  split; [|split].
  - intros n w _ _ _ _.
    unfold currentNumberOfThreads_p, maximumNumberOfThreads_p.
    destruct (adjustInventory_exact n w) as (Hi & _).
    rewrite Hi, length_app, length_seq. lia.
  - intros jobs w _ _ _. apply Hbatch.
  - intros ideal store0 ps jobs Hr. rewrite Hbatch.
    unfold threadsAfter, currentNumberOfThreads_p, maximumNumberOfThreads_p.
    cbn [WeaverImpl m_inventory m_inventoryMax length].
    rewrite (int_wrap_range _ Hr). lia.
Qed.

(** *** Which jobs are queued *)

Lemma sublist_insert {A : Type} (l1 l2 : list A) x :
  sublist (l1 ++ l2) (l1 ++ x :: l2).
Proof.
  induction l1 as [|y l1 IH]; simpl.
  - apply sublist_skip, sublist_refl.
  - now apply sublist_cons.
Qed.

Lemma enqueue_loop_members jobs : forall w,
  Permutation (m_assignments (enqueue_loop jobs w))
              (nonNull jobs ++ m_assignments w) /\
  sublist (m_assignments w) (m_assignments (enqueue_loop jobs w)).
Proof.
  induction jobs as [|[job|] rest IH]; intros w; simpl.
  - split; [apply Permutation_refl | apply sublist_refl].
  - destruct (IH (enqueueJob job w)) as [Hp Hs].
    pose proof (enqueueJob_spec job w) as Hspec. cbv zeta in Hspec.
    destruct Hspec as ((before & after & Hl & Hl' & _) & _).
    split.
    + etransitivity; [exact Hp|]. rewrite Hl', Hl. simpl.
      symmetry. etransitivity; [apply Permutation_middle|].
      apply Permutation_app_head. apply Permutation_middle.
    + eapply sublist_trans; [|exact Hs]. rewrite Hl, Hl'.
      apply sublist_insert.
  - apply IH.
Qed.

(** X5: [enqueue_p] queues every job of the vector that is not null, once
    for each time it is listed, and nothing else: the assignments become a
    permutation of the old ones and those jobs, the old ones keep their
    order, and the queue grows by their number.  A vector of null pointers
    (the empty vector among them) changes nothing at all. *)
Theorem enqueue_p_members jobs w :
  Permutation (m_assignments (enqueue_p jobs w))
              (nonNull jobs ++ m_assignments w) /\
  sublist (m_assignments w) (m_assignments (enqueue_p jobs w)) /\
  queueLength_p (enqueue_p jobs w)
  = queueLength_p w + Z.of_nat (length (nonNull jobs)) /\
  enqueue_p (map (fun _ => None) jobs) w = w.
Proof.
  assert (Hm : Permutation (m_assignments (enqueue_p jobs w))
                           (nonNull jobs ++ m_assignments w) /\
               sublist (m_assignments w) (m_assignments (enqueue_p jobs w))).
  { unfold enqueue_p. destruct jobs as [|p rest].
    - simpl. split; [apply Permutation_refl | apply sublist_refl].
    - replace (QList.isEmpty (p :: rest)) with false by reflexivity.
      apply enqueue_loop_members. }
  destruct Hm as [Hp Hs]. split; [exact Hp|]. split; [exact Hs|]. split.
  - unfold queueLength_p. rewrite (Permutation_length Hp), length_app. lia.
  - unfold enqueue_p. destruct jobs as [|p rest]; [reflexivity|].
    simpl. clear. induction rest as [|q rest IH]; simpl; auto.
Qed.

Lemma enqueueJob_status job w j :
  status (jobStore (enqueueJob job w) j)
  = if Nat.eqb j job then Status_Queued else status (jobStore w j).
Proof.
  pose proof (enqueueJob_spec job w) as Hs. cbv zeta in Hs.
  destruct Hs as (_ & _ & _ & _ & _ & Hst & Hother).
  destruct (Nat.eqb_spec j job) as [-> | Hne]; [exact Hst|].
  now rewrite Hother.
Qed.

(** X6: after [enqueue_p] every job of the vector has the status Queued,
    the jobs that are not in the vector have the record they had, and no
    policy was asked. *)
Theorem enqueue_p_status jobs w :
  (forall j, In (Some j) jobs ->
             status (jobStore (enqueue_p jobs w) j) = Status_Queued) /\
  (forall j, ~ In (Some j) jobs ->
             jobStore (enqueue_p jobs w) j = jobStore w j) /\
  policyState (enqueue_p jobs w) = policyState w.
Proof.
  assert (Hgen : forall jobs w,
            (forall j, In (Some j) jobs ->
                       status (jobStore (enqueue_loop jobs w) j) = Status_Queued) /\
            (forall j, ~ In (Some j) jobs ->
                       jobStore (enqueue_loop jobs w) j = jobStore w j) /\
            (forall j, status (jobStore w j) = Status_Queued ->
                       status (jobStore (enqueue_loop jobs w) j) = Status_Queued) /\
            policyState (enqueue_loop jobs w) = policyState w).
  { clear. induction jobs as [|[job|] rest IH]; intros w; simpl.
    - repeat split; auto. intros j [].
    - destruct (IH (enqueueJob job w)) as (Hq & Ho & Hk & Hp).
      split; [|split; [|split]].
      + intros j [Hj | Hj].
        * inversion Hj; subst j. apply Hk.
          rewrite enqueueJob_status. now rewrite Nat.eqb_refl.
        * now apply Hq.
      + intros j Hj. rewrite Ho by tauto.
        pose proof (enqueueJob_spec job w) as Hs. cbv zeta in Hs.
        destruct Hs as (_ & _ & _ & _ & _ & _ & Hother).
        apply Hother. intros ->. tauto.
      + intros j Hj. apply Hk. rewrite enqueueJob_status.
        destruct (Nat.eqb j job); auto.
      + rewrite Hp. apply enqueueJob_inventory.
    - destruct (IH w) as (Hq & Ho & Hk & Hp).
      split; [intros j [Hj | Hj]; [discriminate | now apply Hq]|].
      split; [intros j Hj; apply Ho; tauto|]. split; assumption. }
  unfold enqueue_p. destruct jobs as [|p rest].
  - simpl. repeat split; auto. intros j [].
  - replace (QList.isEmpty (p :: rest)) with false by reflexivity.
    destruct (Hgen (p :: rest) w) as (Hq & Ho & _ & Hp). auto.
Qed.

(** *** Stable insertion *)

Lemma insertByPriority_split pr job before after :
  Forall (fun x => pr job <= pr x) before ->
  Forall (fun x => pr x < pr job) after ->
  insertByPriority pr job (before ++ after) = before ++ job :: after.
Proof.
  intros Hb Ha. induction Hb as [|x before Hx _ IH]; simpl.
  - destruct Ha as [|y after Hy _]; simpl; [reflexivity|].
    apply Z.ltb_lt in Hy. now rewrite Hy.
  - replace (pr x <? pr job) with false by (symmetry; apply Z.ltb_ge; lia).
    now rewrite IH.
Qed.

Lemma insertByPriority_ext pr pr' job l :
  (forall x, pr' x = pr x) ->
  insertByPriority pr' job l = insertByPriority pr job l.
Proof.
  intros He. induction l as [|x l IH]; simpl; [reflexivity|].
  now rewrite !He, IH.
Qed.

Lemma enqueueJob_insertByPriority job w :
  prio_sorted w ->
  m_assignments (enqueueJob job w)
  = insertByPriority (prio w) job (m_assignments w).
Proof.
  intros Hso. pose proof (enqueueJob_spec job w) as Hs. cbv zeta in Hs.
  destruct Hs as ((before & after & Hl & Hl' & Hafter & Hbefore) & _).
  rewrite Hl', Hl. symmetry. apply insertByPriority_split; auto.
Qed.

(** X7: on a queue that is sorted by priority, [enqueue_p] is stable
    insertion: the loop that walks up from the end of the list puts every
    job where insertion from the front puts it, in front of the first job
    of lower priority; a batch is inserted job by job, in the order of the
    vector. *)
Theorem enqueue_p_is_stable_insertion jobs w :
  prio_sorted w ->
  m_assignments (enqueue_p jobs w)
  = insertAll (prio w) (nonNull jobs) (m_assignments w).
Proof.
  assert (Hgen : forall jobs w, prio_sorted w ->
            m_assignments (enqueue_loop jobs w)
            = insertAll (prio w) (nonNull jobs) (m_assignments w)).
  { clear. induction jobs as [|[job|] rest IH]; intros w Hso; simpl.
    - reflexivity.
    - rewrite IH by now apply enqueueJob_sorted.
      rewrite enqueueJob_insertByPriority by exact Hso.
      pose proof (enqueueJob_spec job w) as Hs. cbv zeta in Hs.
      destruct Hs as (_ & _ & Hk & _).
      unfold insertAll.
      generalize (insertByPriority (prio w) job (m_assignments w)) as l.
      generalize (nonNull rest) as js.
      induction js as [|x js IHjs]; intros l; simpl; [reflexivity|].
      rewrite IHjs. f_equal. apply insertByPriority_ext.
      intros y. apply (keeps_static_prio _ _ _ Hk).
    - now apply IH. }
  intros Hso. unfold enqueue_p. destruct jobs as [|p rest]; [reflexivity|].
  replace (QList.isEmpty (p :: rest)) with false by reflexivity.
  now apply Hgen.
Qed.

(** *** Queue and dequeue *)

Lemma indexOf_app_first before after job :
  ~ In job before ->
  QList.indexOf (before ++ job :: after) job = Some (length before).
Proof.
  induction before as [|x before IH]; simpl; intros Hn.
  - now rewrite Nat.eqb_refl.
  - destruct (Nat.eqb_spec x job) as [-> | Hne]; [exfalso; auto|].
    rewrite IH by tauto. reflexivity.
Qed.

(** X8: queueing a job and dequeueing it at once is a round trip for the
    queue: for a job that is not a collection and was not queued, the
    assignments are the ones before, the job has the status New again, and
    the records of the other jobs, the active count and the policies are
    untouched.  (The threads that queueing created stay.) *)
Theorem enqueue_dequeue_round_trip fuel job w :
  collection (jobStore w job) = None ->
  ~ In job (m_assignments w) ->
  (0 < fuel)%nat ->
  exists w',
    dequeue_p fuel (Some job) (enqueueJob job w) = Done (true, w') /\
    m_assignments w' = m_assignments w /\
    status (jobStore w' job) = Status_New /\
    (forall k, k <> job -> jobStore w' k = jobStore w k) /\
    m_active w' = m_active w /\
    policyState w' = policyState w.
Proof.
  intros Hplain Hnin Hfuel.
  pose proof (enqueueJob_spec job w) as Hs. cbv zeta in Hs.
  destruct Hs as ((before & after & Hl & Hl' & _) & _ & Hk & _ & Hc & _ & Hother).
  destruct (enqueueJob_inventory job w) as (_ & _ & _ & Hp).
  set (w1 := enqueueJob job w) in *.
  assert (Hnb : ~ In job before).
  { intros Hin. apply Hnin. rewrite Hl. apply in_or_app. now left. }
  assert (Hplain1 : collection (jobStore w1 job) = None).
  { now apply (keeps_static_collection w w1 job Hk). }
  destruct fuel as [|fuel]; [lia|].
  cbn [dequeue_p]. rewrite Hl', indexOf_app_first by exact Hnb.
  unfold aboutToBeDequeued_with. cbn [emit jobStore]. rewrite Hplain1.
  cbn [bind emit m_assignments]. rewrite Hl', indexOf_app_first by exact Hnb.
  eexists. split; [reflexivity|].
  cbn [emit setStatus updJob set_jobStore set_assignments m_assignments
       jobStore m_active policyState].
  split; [rewrite removeAt_middle; congruence|].
  split; [now rewrite Nat.eqb_refl|].
  split; [|split; [apply Hc | exact Hp]].
  intros k Hne. destruct (Nat.eqb_spec k job); [contradiction|].
  now apply Hother.
Qed.

End QueueingMore.

(** ** What dequeueing does *)

Section DequeueingMore.

Context {PS : Type} `{QueuePolicy PS}.

Implicit Types w : World PS.

Lemma sublist_length {A : Type} (l1 l2 : list A) :
  sublist l1 l2 -> (length l1 <= length l2)%nat.
Proof. induction 1; simpl; lia. Qed.

Lemma removeAt_length {A : Type} (l : list A) : forall i x,
  nth_error l i = Some x -> S (length (QList.removeAt i l)) = length l.
Proof.
  induction l as [|y l IH]; intros [|i] x Hn; simpl in *; try discriminate.
  - reflexivity.
  - f_equal. eapply IH. eassumption.
Qed.

Lemma dequeueAll_loop_total (rk : JobId -> nat) fuel n : forall index w,
  well_nested rk w ->
  (forall j, In j (m_assignments w) -> (rk j <= fuel)%nat) ->
  (length (m_assignments w) <= index + n)%nat ->
  exists w',
    dequeueAll_loop fuel n index w = Done w' /\
    dequeueFrame rk (S fuel) (S fuel) w w' /\
    forall j, nth_error (m_assignments w) index = Some j ->
              exists evs, trace w' = trace w ++ EvAboutToBeDequeued j :: evs.
Proof.
  induction n as [|n IH]; intros index w Hwn Hrk Hlen; simpl.
  - destruct (nth_error (m_assignments w) index) as [j|] eqn:En.
    + assert (nth_error (m_assignments w) index <> None) by congruence.
      apply nth_error_Some in H0. lia.
    + exists w. split; [reflexivity|]. split; [apply dequeueFrame_refl|].
      discriminate.
  - destruct (nth_error (m_assignments w) index) as [j|] eqn:En.
    2:{ exists w. split; [reflexivity|]. split; [apply dequeueFrame_refl|].
        discriminate. }
    assert (Hj : (rk j <= fuel)%nat).
    { apply Hrk. eapply nth_error_In; eassumption. }
    destruct (aboutToBeDequeued_with_frame rk (dequeue_p fuel) fuel j w)
      as (w1 & Hr & Hf1 & (e1 & He1));
      [apply dequeue_p_answers | exact Hj | exact Hwn |].
    unfold aboutToBeDequeued. rewrite Hr. cbn [bind].
    apply (dequeueFrame_weaken _ _ _ (S fuel) (S fuel)) in Hf1; [|lia|lia].
    pose proof Hf1 as (_ & _ & _ & Hsub & _).
    destruct (IH (S index) w1) as (w' & Hgo & Hf' & _).
    + eapply dequeueFrame_well_nested; eassumption.
    + intros x Hx. apply Hrk. eapply sublist_In; eassumption.
    + apply sublist_length in Hsub. lia.
    + exists w'. split; [exact Hgo|].
      split; [eapply dequeueFrame_trans; eassumption|].
      intros j' Hj'. inversion Hj'; subst j'.
      destruct Hf' as (_ & _ & _ & _ & _ & _ & _ & (e2 & He2)).
      exists (e1 ++ e2). rewrite He2, He1, <- app_assoc. reflexivity.
Qed.

(** X9: [dequeue_p()] comes to an end, although the callbacks of collections
    shrink the list under its loop, and leaves the queue empty; the first
    job of the queue gets its callback first; the active count, the cap,
    the state, the inventory and the priorities, policies and elements of
    all jobs stay as they are.  Collections nest without cycles and the
    fuel covers the depth of the queued jobs. *)
Theorem dequeue_p_all_empties (rk : JobId -> nat) fuel w :
  well_nested rk w ->
  (forall j, In j (m_assignments w) -> (rk j <= fuel)%nat) ->
  exists w',
    dequeue_p_all fuel w = Done w' /\
    isEmpty_p w' = true /\
    sameControl w w' /\
    m_inventory w' = m_inventory w /\
    keeps staticOf w w' /\
    forall j rest, m_assignments w = j :: rest ->
      exists evs, trace w' = trace w ++ EvAboutToBeDequeued j :: evs.
Proof.
  intros Hwn Hrk. unfold dequeue_p_all.
  destruct (dequeueAll_loop_total rk fuel (length (m_assignments w)) 0 w
              Hwn Hrk) as (w1 & Hr & Hf & Hhead); [lia|].
  rewrite Hr. cbn [bind]. eexists. split; [reflexivity|].
  destruct Hf as (Hc & Hi & _ & _ & Hk & _).
  split; [reflexivity|]. split; [exact Hc|]. split; [exact Hi|].
  split; [exact Hk|].
  intros j rest Hl. apply Hhead. now rewrite Hl.
Qed.

(** X10: a call of [dequeue] that returns only removes: the assignments
    left are a sublist of the ones before; the active count, the cap, the
    state, the inventory and the priorities of all jobs are untouched; when
    it answers false nothing at all has changed, and when it answers true
    the queue is shorter. *)
Theorem dequeue_only_removes fuel job w b w' :
  dequeue fuel job w = Done (b, w') ->
  sublist (m_assignments w') (m_assignments w) /\
  m_active w' = m_active w /\
  m_inventoryMax w' = m_inventoryMax w /\
  m_state w' = m_state w /\
  m_inventory w' = m_inventory w /\
  (forall j, prio w' j = prio w j) /\
  (b = false -> w' = w) /\
  (b = true -> (length (m_assignments w') < length (m_assignments w))%nat).
Proof.
  intros Hr.
  pose proof (dequeue_shrinking fuel job w b w' Hr)
    as ((Ha & Hm & Hs) & Hi & _ & Hsub & Hk).
  split; [exact Hsub|]. split; [exact Ha|]. split; [exact Hm|].
  split; [exact Hs|]. split; [exact Hi|].
  split; [intro j; now apply keeps_static_prio|].
  unfold dequeue in Hr. destruct (dequeueAccepted (m_state w)).
  - destruct (dequeue_p_inv fuel job w b w' Hr)
      as [(-> & -> & _) | (-> & j & w1 & newPosition & _ & _ & Hcb & Hn & ->)].
    + split; [reflexivity | discriminate].
    + split; [discriminate|]. intros _. simpl.
      apply aboutToBeDequeued_with_shrinks in Hcb; [|apply dequeue_p_shrinking].
      destruct Hcb as (_ & _ & _ & Hs1 & _). apply sublist_length in Hs1.
      pose proof (removeAt_length _ _ _ (indexOf_Some _ _ _ Hn)). lia.
  - inversion Hr; subst. split; [reflexivity | discriminate].
Qed.

(** X11: the destructor of a collection that is still bound to a weaver
    dequeues the elements: none of them is left in the assignments (where
    the state accepts a dequeue and no job is queued twice), nothing is
    added to the queue, and [jobCounter] ends at zero.  A collection that
    is not bound leaves the world as it is. *)
Theorem JobCollection_dtor_dequeues_elements (rk : JobId -> nat) fuel c w d :
  well_nested rk w -> (rk c <= fuel)%nat ->
  collection (jobStore w c) = Some d ->
  exists w',
    JobCollection_dtor fuel c w = Done w' /\
    shrinks w w' /\
    (api d = None -> w' = w) /\
    (api d <> None ->
     (NoDup (m_assignments w) -> dequeueAccepted (m_state w) = true ->
      forall e, In (Some e) (elements d) -> ~ In e (m_assignments w')) /\
     exists d', collection (jobStore w' c) = Some d' /\ jobCounter d' = 0).
Proof.
  intros Hwn Hc Hd. unfold JobCollection_dtor, getPrivate. rewrite Hd.
  cbn [bind]. destruct (api d) as [a|] eqn:Ea.
  - destruct (dequeueElements_with_cleanup rk (dequeue fuel) fuel c d w)
      as (w' & Hr & Hs & Hgone & _ & d' & Hd' & Hc' & _);
      auto using dequeue_answers, dequeue_shrinking, dequeue_removing;
      [rewrite Ea; discriminate|].
    unfold dequeueElements. rewrite Hr.
    exists w'. split; [reflexivity|]. split; [exact Hs|].
    split; [discriminate|]. intros _. split; [exact Hgone|]. eauto.
  - exists w. split; [reflexivity|]. split; [apply shrinks_refl|].
    split; [reflexivity|]. intros Hne. contradiction.
Qed.

End DequeueingMore.

(** ** What the weaver keeps *)

Section KeptMore.

Context {PS : Type} `{QueuePolicy PS}.

Implicit Types s : Sys PS.

(** X12: in every state that the weaver reaches by calls that respect the
    assertion of [enqueue_p], every job in the assignments has the status
    Queued: queueing sets it, dequeueing resets it as it removes the job,
    and handing a job to a worker removes it without a change. *)
Theorem queued_jobs_have_status_Queued s :
  reachable anyCap assertsHold s ->
  forall j, In j (m_assignments (world s)) ->
            status (jobStore (world s) j) = Status_Queued.
Proof.
  intros Hr. apply reachable_queueInv in Hr. apply Hr.
Qed.

Lemma step_created capAllowed jobsAllowed s s' :
  step capAllowed jobsAllowed s s' ->
  m_createdThreads (world s) = length (m_inventory (world s)) ->
  m_createdThreads (world s') = length (m_inventory (world s')).
Proof.
  intros Hstep Hinv. destruct Hstep; cbn [world].
  - destruct (enqueue_spec jobs (world s)) as [((n & Hi & Hc & _) & _) _].
    rewrite Hi, Hc, length_app, length_seq. lia.
  - match goal with Hd : dequeue _ _ _ = _ |- _ =>
      apply dequeue_shrinking in Hd; destruct Hd as (_ & Hi & Hc & _) end.
    now rewrite Hi, Hc.
  - match goal with Hd : dequeue_all _ _ = _ |- _ =>
      apply dequeue_all_shrinks in Hd; destruct Hd as (_ & Hi & Hc & _) end.
    now rewrite Hi, Hc.
  - exact Hinv.
  - take_frame Hf. destruct Hf as (_ & _ & Hi & _ & Hc & _).
    now rewrite Hi, Hc.
  - state_frame Suspending (world s) Hf.
    destruct Hf as (_ & _ & _ & Hi & _ & Hc & _). now rewrite Hi, Hc.
  - state_frame WorkingHard (world s) Hf.
    destruct Hf as (_ & _ & _ & Hi & _ & Hc & _). now rewrite Hi, Hc.
  - match goal with He : sameWeaver _ _ |- _ =>
      destruct He as (_ & _ & Hi & _ & _ & Hc & _) end.
    now rewrite Hi, Hc.
Qed.

(** X13: [m_createdThreads], which the shutdown uses to wait for the
    workers, counts the threads of the inventory in every state that the
    weaver reaches before it is shut down. *)
Theorem created_threads_are_counted capAllowed jobsAllowed s :
  reachable capAllowed jobsAllowed s ->
  m_createdThreads (world s) = length (m_inventory (world s)).
Proof.
  induction 1 as [ideal store0 ps|s s' _ IH Hstep].
  - reflexivity.
  - eapply step_created; eassumption.
Qed.

End KeptMore.

(** ** The life of a collection *)

Section CollectionLife.

Context {PS : Type} `{QueuePolicy PS}.

Implicit Types w : World PS.

Lemma defaultEnds_app evs1 evs2 :
  defaultEnds (evs1 ++ evs2) = (defaultEnds evs1 + defaultEnds evs2)%nat.
Proof. unfold defaultEnds. now rewrite filter_app, length_app. Qed.

Lemma defaultEnds_freed job policies :
  defaultEnds (map (freed job) policies) = 0%nat.
Proof. induction policies; simpl; auto. Qed.

Lemma defaultEnds_enqueue evs : Forall enqueueEvent evs -> defaultEnds evs = 0%nat.
Proof.
  induction 1 as [|e evs He _ IH]; [reflexivity|].
  unfold defaultEnds in *. simpl. destruct e; simpl in *; auto; contradiction.
Qed.

Lemma countDown_defaultEnds c thread w d :
  collection (jobStore w c) = Some d ->
  exists w' d',
    countDown c thread w = Done w' /\
    collection (jobStore w' c) = Some d' /\
    jobCounter d' = jobCounter d - 1 /\
    elements d' = elements d /\
    selfIsExecuting d' = selfIsExecuting d /\
    defaultEnds (trace w') =
      Nat.add (defaultEnds (trace w))
              (if jobCounter d - 1 =? 0 then 1%nat else 0%nat) /\
    (jobCounter d - 1 <> 0 -> self d' = self d /\ api d' = api d).
Proof.
  intros Hd.
  destruct (countDown_spec c thread w d Hd)
    as (w' & d' & Hr & Hd' & Hc & He & Hx & Htr & _ & Hnz).
  exists w', d'. repeat split; try assumption.
  - rewrite Htr, defaultEnds_app. f_equal.
    destruct (jobCounter d - 1 =? 0); [|reflexivity].
    rewrite defaultEnds_app, defaultEnds_freed. reflexivity.
  - now apply Hnz.
  - now apply Hnz.
Qed.

(** The calls after the elements were queued. *)
Lemma elementsFinished_counting c thread jobs : forall w d,
  collection (jobStore w c) = Some d -> selfIsExecuting d = false ->
  exists w' d',
    elementsFinished c thread jobs w = Done w' /\
    collection (jobStore w' c) = Some d' /\
    jobCounter d' = jobCounter d - Z.of_nat (length jobs) /\
    defaultEnds (trace w') =
      Nat.add (defaultEnds (trace w))
              (if (0 <? jobCounter d) && (jobCounter d <=? Z.of_nat (length jobs))
               then 1%nat else 0%nat) /\
    (Z.of_nat (length jobs) < jobCounter d -> self d' = self d /\ api d' = api d).
Proof.
  induction jobs as [|job rest IH]; intros w d Hd Hx.
  - exists w, d. simpl. split; [reflexivity|]. split; [exact Hd|].
    split; [lia|]. split; [|auto].
    replace ((0 <? jobCounter d) && (jobCounter d <=? 0)) with false; [lia|].
    symmetry. apply andb_false_iff.
    destruct (Z.ltb_spec 0 (jobCounter d)); [right; apply Z.leb_gt; lia | now left].
  - cbn [elementsFinished]. unfold elementFinished, getPrivate.
    rewrite Hd. cbn [bind]. rewrite Hx. cbn [bind].
    destruct (countDown_defaultEnds c thread w d Hd)
      as (w1 & d1 & Hr1 & Hd1 & Hc1 & _ & Hx1 & Hde1 & Hnz1).
    rewrite Hr1. cbn [bind].
    destruct (IH w1 d1 Hd1) as (w' & d' & Hr & Hd' & Hc & Hde & Hnz);
      [congruence|].
    exists w', d'. split; [exact Hr|]. split; [exact Hd'|].
    cbn [length]. split; [lia|]. split.
    + rewrite Hde, Hde1, Hc1.
      destruct (Z.eqb_spec (jobCounter d - 1) 0);
        destruct (Z.ltb_spec 0 (jobCounter d - 1));
        destruct (Z.leb_spec (jobCounter d - 1) (Z.of_nat (length rest)));
        destruct (Z.ltb_spec 0 (jobCounter d));
        destruct (Z.leb_spec (jobCounter d) (Z.of_nat (S (length rest))));
        simpl; lia.
    + intros Hlt. destruct Hnz as [Hs Ha]; [lia|].
      destruct Hnz1 as [Hs1 Ha1]; [lia|]. split; congruence.
Qed.

(** The call for the collection itself, which queues the elements. *)
Lemma elementFinished_first c job thread w d :
  collection (jobStore w c) = Some d ->
  selfIsExecuting d = true -> api d <> None ->
  exists w' d',
    elementFinished c job thread w = Done w' /\
    collection (jobStore w' c) = Some d' /\
    selfIsExecuting d' = false /\
    jobCounter d' = Z.of_nat (length (elements d)) /\
    defaultEnds (trace w') =
      Nat.add (defaultEnds (trace w))
              (if Z.of_nat (length (elements d)) =? 0 then 1%nat else 0%nat) /\
    (Z.of_nat (length (elements d)) <> 0 -> self d' = self d).
Proof.
  intros Hd Hx Hapi. unfold elementFinished, getPrivate.
  rewrite Hd. cbn [bind]. rewrite Hx.
  unfold enqueueElements, getPrivate. rewrite Hd. cbn [bind].
  destruct (api d) as [a|] eqn:Ea; [|contradiction]. cbn [bind].
  set (n := Z.of_nat (length (elements d))).
  set (w0 := emit (EvApiEnqueue (elements d))
               (updPrivate c (set_jobCounter (n + 1)) w)).
  set (w1 := enqueue (elements d) w0).
  assert (Hd0 : collection (jobStore w0 c) = Some (set_jobCounter (n + 1) d)).
  { subst w0. cbn [emit jobStore]. rewrite updPrivate_collection, Hd.
    reflexivity. }
  destruct (enqueue_spec (elements d) w0)
    as [(_ & Hks & Hkc & _ & (evs & Hev & Hfe)) _]. fold w1 in Hks, Hkc, Hev.
  destruct (kept_private w0 w1 c _ Hks Hkc Hd0)
    as (d1 & Hd1 & He1 & Hc1 & Hs1 & Hx1).
  set (wA := updPrivate c (set_selfIsExecuting false) w1).
  assert (HdA : collection (jobStore wA c) = Some (set_selfIsExecuting false d1)).
  { subst wA. rewrite updPrivate_collection, Hd1. reflexivity. }
  destruct (countDown_defaultEnds c thread wA _ HdA)
    as (w' & d' & Hr & Hd' & Hcnt & _ & Hsx & Hde & Hnz).
  cbn [set_selfIsExecuting set_jobCounter jobCounter self api elements
       selfIsExecuting] in *.
  assert (Hrem : jobCounter d1 - 1 = n) by lia. rewrite Hrem in *.
  exists w', d'. split; [exact Hr|]. split; [exact Hd'|].
  split; [exact Hsx|]. split; [exact Hcnt|]. split.
  - rewrite Hde. f_equal.
    replace (trace wA) with (trace w1) by reflexivity.
    rewrite Hev. subst w0. cbn [emit trace].
    replace (trace (updPrivate c (set_jobCounter (n + 1)) w))
      with (trace w) by reflexivity.
    rewrite !defaultEnds_app, (defaultEnds_enqueue evs Hfe).
    unfold defaultEnds at 2. simpl. lia.
  - intros Hne. destruct (Hnz Hne) as [Hs' _]. congruence.
Qed.

(** X14: the barrier of a collection of N elements.  Counting from the call
    of [elementFinished] for the collection itself, which queues the
    elements, and for as many calls as the collection has jobs (itself and
    its N elements), the default end is invoked once, during call number
    N+1, and not before; until then [self] is kept, and [jobCounter] tells
    how many calls are missing. *)
Theorem final_cleanup_exactly_once c thread job jobs w d :
  collection (jobStore w c) = Some d ->
  selfIsExecuting d = true -> api d <> None ->
  (length jobs <= length (elements d))%nat ->
  exists w' d',
    elementsFinished c thread (job :: jobs) w = Done w' /\
    collection (jobStore w' c) = Some d' /\
    jobCounter d' = Z.of_nat (length (elements d) - length jobs) /\
    defaultEnds (trace w') =
      Nat.add (defaultEnds (trace w))
              (if (length jobs =? length (elements d))%nat
               then 1%nat else 0%nat) /\
    ((length jobs < length (elements d))%nat -> self d' = self d).
Proof.
  intros Hd Hx Hapi Hle. cbn [elementsFinished].
  destruct (elementFinished_first c job thread w d Hd Hx Hapi)
    as (w1 & d1 & Hr1 & Hd1 & Hx1 & Hc1 & Hde1 & Hs1).
  rewrite Hr1. cbn [bind].
  destruct (elementsFinished_counting c thread jobs w1 d1 Hd1 Hx1)
    as (w' & d' & Hr & Hd' & Hc & Hde & Hs).
  exists w', d'. split; [exact Hr|]. split; [exact Hd'|].
  split; [lia|]. split.
  - rewrite Hde, Hde1, Hc1.
    destruct (Z.eqb_spec (Z.of_nat (length (elements d))) 0);
      destruct (Z.ltb_spec 0 (Z.of_nat (length (elements d))));
      destruct (Z.leb_spec (Z.of_nat (length (elements d)))
                           (Z.of_nat (length jobs)));
      destruct (Nat.eqb_spec (length jobs) (length (elements d)));
      simpl; lia.
  - intros Hlt. destruct Hs as [Hs _]; [lia|].
    rewrite Hs. apply Hs1. lia.
Qed.

End CollectionLife.

(** ** States and hand-over *)

Section Handover.

Context {PS : Type} `{QueuePolicy PS}.

Implicit Types w : World PS.

(** X15: [setState_p] signals changes only.  The state is the new one in
    any case; [stateChanged] is emitted exactly when the state was another
    one, [suspended] exactly when, in addition, the new state is Suspended;
    a second call with the same state changes nothing at all. *)
Theorem setState_p_signals_changes id w :
  m_state (setState_p id w) = id /\
  (exists evs,
     trace (setState_p id w) = trace w ++ evs /\
     (In (EvStateChanged id) evs <-> m_state w <> id) /\
     (In EvSuspended evs <-> m_state w <> id /\ id = Suspended) /\
     (m_state w = id -> evs = [])) /\
  setState_p id (setState_p id w) = setState_p id w.
Proof.
  split; [apply (setState_p_fields id w)|].
  split.
  - unfold setState_p.
    destruct (StateId_eqb_spec (m_state w) id) as [He | Hne].
    + exists []. cbn [set_state trace]. rewrite app_nil_r.
      split; [reflexivity|].
      split; [split; [intros [] | intros Hn; now elim Hn]|].
      split; [split; [intros [] | intros [Hn _]; now elim Hn]|].
      reflexivity.
    + destruct (StateId_eqb_spec id Suspended) as [Hs | Hns].
      * exists [EvActivated id; EvSuspended; EvStateChanged id].
        cbn [emit set_state trace]. rewrite <- !app_assoc.
        split; [reflexivity|].
        split; [split; [intros _; exact Hne | intros _; simpl; auto]|].
        split; [split; [intros _; split; assumption | intros _; simpl; auto]|].
        intros He. now elim Hne.
      * exists [EvActivated id; EvStateChanged id].
        cbn [emit set_state trace]. rewrite <- !app_assoc.
        split; [reflexivity|].
        split; [split; [intros _; exact Hne | intros _; simpl; auto]|].
        split.
        { split.
          - intros [Hin | [Hin | []]]; [discriminate Hin|].
            inversion Hin.
          - intros [_ Hs]. now elim Hns. }
        intros He. now elim Hne.
  - pose proof (proj1 (proj2 (setState_p_fields id w))) as Hst.
    cbv zeta in Hst.
    unfold setState_p at 1. rewrite Hst.
    destruct (StateId_eqb_spec id id) as [_ | Hn]; [|now elim Hn].
    unfold setState_p.
    destruct (StateId_eqb (m_state w) id); [reflexivity|].
    destruct (StateId_eqb id Suspended); reflexivity.
Qed.

(** X16: queueing and handing over.  On a working weaver whose queue is
    sorted, a job without policies that has a higher priority than every
    queued job goes to the front, and the next worker that asks for a job
    gets it: the assignments are the ones before the job was queued, the
    worker counts as active, and no policy was asked. *)
Theorem top_priority_job_is_handed_out
  (th : ThreadId) (threadWasBusy suspendIfInactive : bool) job w :
  m_state w = WorkingHard -> prio_sorted w ->
  (forall x, In x (m_assignments w) -> prio w x < prio w job) ->
  queuePolicies (jobStore w job) = [] ->
  let r := takeFirstAvailableJobOrSuspendOrWait
             th threadWasBusy suspendIfInactive false
             (enqueue_p [Some job] w) in
  m_assignments (enqueue_p [Some job] w) = job :: m_assignments w /\
  fst r = Some job /\
  m_assignments (snd r) = m_assignments w /\
  m_active (snd r) = m_active w + (if threadWasBusy then 0 else 1) /\
  policyState (snd r) = policyState w.
Proof.
  intros Hst Hso Htop Hpol r.
  assert (Henq : enqueue_p [Some job] w = enqueueJob job w) by reflexivity.
  pose proof (enqueueJob_spec job w) as Hs. cbv zeta in Hs.
  destruct Hs as ((before & after & Hl & Hl' & _ & Hbefore) & _ & Hks & _
                  & (Hact & _ & Hstate) & _ & _).
  assert (Hnil : before = []).
  { destruct before as [|x before']; [reflexivity|]. exfalso.
    pose proof (Forall_inv (Hbefore Hso)) as Hx. cbv beta in Hx.
    assert (Hlt : prio w x < prio w job)
      by (apply Htop; rewrite Hl; simpl; auto).
    lia. }
  subst before. cbn [app] in Hl, Hl'. rewrite <- Hl in Hl'.
  assert (Hp' : queuePolicies (jobStore (enqueueJob job w) job) = []).
  { rewrite (keeps_static_policies _ _ job Hks). exact Hpol. }
  assert (Hps : policyState (enqueueJob job w) = policyState w)
    by apply enqueueJob_inventory.
  split; [rewrite Henq; exact Hl'|].
  subst r. rewrite Henq. set (w0 := enqueueJob job w) in *.
  unfold takeFirstAvailableJobOrSuspendOrWait.
  set (w1 := if threadWasBusy then decActiveThreadCount w0 else w0).
  assert (Hw1 : m_assignments w1 = m_assignments w0 /\ m_state w1 = m_state w0
                /\ m_active w1
                   = (if threadWasBusy then m_active w0 - 1 else m_active w0)
                /\ jobStore w1 = jobStore w0
                /\ policyState w1 = policyState w0).
  { subst w1. destruct threadWasBusy; [|repeat split].
    pose proof (decActiveThreadCount_fields w0) as Hd. cbv zeta in Hd.
    destruct Hd as (Ha & Hs & Hc & _ & _ & _ & Hj).
    repeat split; try assumption.
    unfold decActiveThreadCount, adjustActiveThreadCount.
    match goal with |- context [if ?c then _ else _] => destruct c end;
      reflexivity. }
  destruct Hw1 as (Ha1 & Hs1 & Hc1 & Hj1 & Hp1).
  rewrite Hs1, Hstate, Hst.
  replace (StateId_eqb WorkingHard Suspending) with false by reflexivity.
  rewrite andb_false_r.
  replace (negb (StateId_eqb WorkingHard WorkingHard) || false) with false
    by reflexivity.
  rewrite Ha1, Hl'. cbn [firstAvailable].
  assert (Hcan : canBeExecuted job w1 = (true, w1)).
  { unfold canBeExecuted. rewrite Hj1, Hp'. reflexivity. }
  rewrite Hcan. cbn [fst snd].
  split; [reflexivity|].
  set (w2 := set_assignments (QList.removeAt 0 (m_assignments w1)) w1).
  pose proof (incActiveThreadCount_fields w2) as Hi. cbv zeta in Hi.
  destruct Hi as (Hai & _ & Hci & _).
  split; [rewrite Hai; subst w2; cbn [set_assignments m_assignments];
          rewrite Ha1, Hl'; reflexivity|].
  split.
  - rewrite Hci. subst w2. cbn [set_assignments m_active].
    rewrite Hc1, Hact. destruct threadWasBusy; lia.
  - transitivity (policyState w2); [|subst w2; simpl; congruence].
    unfold incActiveThreadCount, adjustActiveThreadCount.
    match goal with |- context [if ?c then _ else _] => destruct c end;
      reflexivity.
Qed.

End Handover.

(** ** The binding of a collection to the weaver *)

Section Binding.

Context {PS : Type} `{QueuePolicy PS}.

Implicit Types w : World PS.

Lemma aboutToBeDequeued_unbinds fuel c w w1 d :
  collection (jobStore w c) = Some d ->
  aboutToBeDequeued fuel c w = Done w1 ->
  exists d1, collection (jobStore w1 c) = Some d1 /\ api d1 = None.
Proof.
  intros Hd Hr.
  pose proof (aboutToBeDequeued_with_shrinks _ _ _ _
                (dequeue_p_shrinking fuel) Hr) as (_ & _ & _ & _ & Hks).
  unfold aboutToBeDequeued, aboutToBeDequeued_with in Hr.
  replace (jobStore (emit (EvAboutToBeDequeued c) w) c) with (jobStore w c)
    in Hr by reflexivity.
  rewrite Hd in Hr.
  destruct (dequeueElements_with (dequeue_p fuel) c
              (emit (EvAboutToBeDequeued c) w)) as [w2| | |];
    try discriminate.
  cbn [bind] in Hr. inversion Hr; subst w1; clear Hr.
  rewrite updPrivate_collection in *.
  destruct (collection (jobStore w2 c)) as [d2|] eqn:E2.
  - exists (set_api None d2). split; reflexivity.
  - exfalso. apply (keeps_static_collection _ _ c) in Hks.
    rewrite updPrivate_collection, E2 in Hks. simpl in Hks.
    rewrite Hd in Hks. destruct Hks as [Hks _].
    specialize (Hks eq_refl). discriminate.
Qed.

(** X17: a collection that was dequeued is no longer bound to the weaver:
    after [dequeue_p] has answered true for it, its [api] is null and its
    status is New, so that [stop] and the destructor leave the queue and
    everything else as they are. *)
Theorem dequeued_collection_is_unbound fuel c w w' d :
  collection (jobStore w c) = Some d ->
  dequeue_p fuel (Some c) w = Done (true, w') ->
  (exists d', collection (jobStore w' c) = Some d' /\ api d' = None) /\
  status (jobStore w' c) = Status_New /\
  forall fuel' job,
    stop fuel' c job w' = Done w' /\ JobCollection_dtor fuel' c w' = Done w'.
Proof.
  intros Hd Hr.
  destruct (dequeue_p_inv fuel (Some c) w true w' Hr)
    as [(Hb & _) | (_ & j & w1 & newPosition & Hj & _ & Hcb & _ & ->)];
    [discriminate|].
  inversion Hj; subst j; clear Hj.
  destruct (aboutToBeDequeued_unbinds _ _ _ _ _ Hd Hcb) as (d1 & Hd1 & Ha1).
  set (w2 := set_assignments (QList.removeAt newPosition (m_assignments w1)) w1).
  assert (Hd' : collection
                  (jobStore (emit EvJobFinishedWakeAll
                               (setStatus c Status_New w2)) c) = Some d1).
  { cbn [emit jobStore]. unfold setStatus. rewrite updJob_same.
    cbn [collection]. exact Hd1. }
  split; [exists d1; split; assumption|].
  split.
  - cbn [emit jobStore]. unfold setStatus. rewrite updJob_same. reflexivity.
  - intros fuel' job. unfold stop, JobCollection_dtor, getPrivate.
    rewrite Hd'. cbn [bind]. rewrite Ha1. split; reflexivity.
Qed.

End Binding.

(** * The code at concrete inputs *)

(** C3 at a job with the policies 2, 1, 0 and 3: the first two admit it,
    the third refuses, the fourth is not asked, and the first two are
    released, which leaves no grant. *)
Lemma canBeExecuted_policy_order_witness :
  exists ps1 ps2,
    queuePolicies (jobStore MoreExamples.policed 1%nat)
    = [2%nat; 1%nat] ++ 0%nat :: [3%nat] /\
    admitInTurn (Some 1%nat) [2%nat; 1%nat]
                (policyState MoreExamples.policed) = Some ps1 /\
    canRun 0%nat (Some 1%nat) ps1 = (false, ps2) /\
    fst (canBeExecuted 1%nat MoreExamples.policed) = false /\
    policyState (snd (canBeExecuted 1%nat MoreExamples.policed))
    = releaseInTurn (Some 1%nat) [2%nat; 1%nat] ps2 /\
    releaseInTurn (Some 1%nat) [2%nat; 1%nat] ps2 = [] /\
    trace (snd (canBeExecuted 1%nat MoreExamples.policed))
    = [EvCanRun 2%nat (Some 1%nat) true; EvCanRun 1%nat (Some 1%nat) true;
       EvCanRun 0%nat (Some 1%nat) false;
       EvRelease 2%nat (Some 1%nat); EvRelease 1%nat (Some 1%nat)].
Proof.
  destruct (canBeExecuted_policy_order 1%nat MoreExamples.policed)
    as (_ & [(ps' & _ & Hok & _)
            | (adm & refu & rs & ps1 & ps2 & Hp & Hadm & Hrun & Hok & Hps
               & Htr)] & _).
  { vm_compute in Hok. discriminate Hok. }
  change (queuePolicies (jobStore MoreExamples.policed 1%nat))
    with [2%nat; 1%nat; 0%nat; 3%nat] in Hp.
  change (policyState MoreExamples.policed) with (@nil (PolicyId * JobPointer))
    in Hadm.
  destruct adm as [|a [|b [|c [|x adm]]]]; cbn [app] in Hp;
    inversion Hp; subst; clear Hp.
  - vm_compute in Hadm. inversion Hadm; subst.
    vm_compute in Hrun. discriminate Hrun.
  - vm_compute in Hadm. inversion Hadm; subst.
    vm_compute in Hrun. discriminate Hrun.
  - exists ps1, ps2. split; [reflexivity|]. split; [exact Hadm|].
    split; [exact Hrun|]. split; [exact Hok|]. split; [exact Hps|].
    split.
    + vm_compute in Hadm. inversion Hadm; subst.
      vm_compute in Hrun. inversion Hrun; subst. reflexivity.
    + exact Htr.
  - vm_compute in Hadm. discriminate Hadm.
  - destruct adm; discriminate.
Defined.

(** C2 at a queue of priorities 5 and 3 and a new job of priority 5, which
    goes between the two. *)
Lemma enqueue_p_keeps_priority_order_witness :
  prio_sorted Example.sortedQueue /\
  prio_sorted (enqueue_p [Some 3%nat] Example.sortedQueue) /\
  exists before after,
    m_assignments Example.sortedQueue = before ++ after /\
    m_assignments (enqueue_p [Some 3%nat] Example.sortedQueue)
    = before ++ 3%nat :: after /\
    m_assignments (enqueue_p [Some 3%nat] Example.sortedQueue)
    = [1%nat; 3%nat; 2%nat].
Proof.
  assert (Hso : prio_sorted Example.sortedQueue).
  { unfold prio_sorted. simpl. repeat constructor. vm_compute. discriminate. }
  destruct (proj1 enqueue_p_keeps_priority_order Example.sortedQueue 3%nat Hso)
    as (Hso' & before & after & Hl & Hl' & _).
  split; [exact Hso|]. split; [exact Hso'|].
  exists before, after. split; [exact Hl|]. split; [exact Hl'|].
  reflexivity.
Defined.

Lemma twoQueued_reachable capAllowed jobsAllowed :
  jobsAllowed Example.fresh [Some 0%nat; Some 1%nat] ->
  reachable capAllowed jobsAllowed Example.twoQueued.
Proof.
  intros Hjobs.
  eapply reachable_step;
    [apply (reachable_init capAllowed jobsAllowed 1 Example.noJobs [])|].
  apply (step_enqueue capAllowed jobsAllowed (mkSys Example.fresh [])).
  exact Hjobs.
Qed.

(** C8, as it is worded, fails: after two jobs were queued there are two
    threads, and [setMaximumNumberOfThreads(1)] leaves both. *)
Lemma inventory_can_exceed_cap :
  reachable anyCap anyJobs Example.overCap /\
  maximumNumberOfThreads_p (world Example.overCap) = 1 /\
  currentNumberOfThreads_p (world Example.overCap) = 2.
Proof.
  split; [|split; reflexivity].
  eapply reachable_step; [apply twoQueued_reachable; exact I|].
  apply (step_setMaximumNumberOfThreads anyCap anyJobs Example.twoQueued 1).
  reflexivity.
Qed.

(** The amended C8 at the state with two queued jobs. *)
Lemma thread_counts_witness :
  reachable anyCap anyJobs Example.twoQueued /\
  0 <= m_active (world Example.twoQueued)
    <= currentNumberOfThreads_p (world Example.twoQueued).
Proof.
  split; [apply twoQueued_reachable; exact I|].
  apply (proj1 thread_counts Example.twoQueued
           (twoQueued_reachable anyCap anyJobs I)).
Defined.

Lemma nested_well_nested : well_nested Example.nestedRank Example.nested.
Proof.
  intros c e Hin. destruct c as [|[|[|c]]]; simpl in Hin;
    try contradiction.
  destruct Hin as [He | []]. inversion He; subst. simpl. lia.
Qed.

(** C6 at a queued collection whose element is queued as well. *)
Lemma dequeue_p_single_witness :
  well_nested Example.nestedRank Example.nested /\
  (rankAbove Example.nestedRank (Some 0%nat) <= 2)%nat /\
  exists b w',
    dequeue_p 2 (Some 0%nat) Example.nested = Done (b, w') /\
    (b = true <-> queued (Some 0%nat) Example.nested).
Proof.
  split; [exact nested_well_nested|].
  assert (Hf : (rankAbove Example.nestedRank (Some 0%nat) <= 2)%nat)
    by (simpl; lia).
  split; [exact Hf|].
  destruct (dequeue_p_single Example.nestedRank 2 (Some 0%nat) Example.nested
              nested_well_nested Hf) as (b & w' & Hr & Hiff & _).
  exists b, w'. split; assumption.
Defined.

(** C10 at the same world: the callback of the collection removes job 1,
    which stands in front of it; the collection is found again at the new
    position and only job 2 is left. *)
Lemma dequeue_p_job_absent_witness :
  NoDup (m_assignments Example.nested) /\
  exists w',
    dequeue_p 2 (Some 0%nat) Example.nested = Done (true, w') /\
    m_assignments w' = [2%nat] /\
    ~ In 0%nat (m_assignments w').
Proof.
  assert (Hnd : NoDup (m_assignments Example.nested)).
  { simpl. repeat constructor; simpl; intuition discriminate. }
  split; [exact Hnd|].
  eexists. split; [vm_compute; reflexivity|]. split; [reflexivity|].
  refine (proj1 (proj1 dequeue_p_job_absent 2%nat 0%nat Example.nested _ Hnd _)).
  vm_compute. reflexivity.
Defined.

(** C5: [dequeue_p()] on a queue that holds one plain job delivers
    [aboutToBeDequeued] and clears the list, but the job keeps the status
    Queued and [jobFinished] is not signalled, where [dequeue_p(job)] on
    the same world sets the status to New and signals [jobFinished]. *)
Lemma dequeue_all_forgets_status :
  (exists w',
     dequeue_all 1 Example.oneQueued = Done w' /\
     m_assignments w' = [] /\
     status (jobStore w' 7%nat) = Status_Queued /\
     trace w' = [EvAboutToBeDequeued 7%nat]) /\
  (exists w',
     dequeue 1 (Some 7%nat) Example.oneQueued = Done (true, w') /\
     m_assignments w' = [] /\
     status (jobStore w' 7%nat) = Status_New /\
     trace w' = [EvAboutToBeDequeued 7%nat; EvJobFinishedWakeAll]).
Proof.
  split; eexists; (split; [vm_compute; reflexivity|]); repeat split.
Qed.


Lemma elementsQueued_well_nested :
  well_nested Example.nestedRank Example.elementsQueued.
Proof.
  intros c e Hin. destruct c as [|[|[|c]]]; simpl in Hin;
    try contradiction.
  destruct Hin as [He | [He | []]]; inversion He; subst; simpl; lia.
Qed.

(** C7 at a queued collection whose element is queued as well: [stop]
    never returns; and at a running collection whose two elements are
    queued: [stop] dequeues both elements and frees policy 3 for the
    collection. *)
Lemma stop_spec_witness :
  (exists d,
     well_nested Example.nestedRank Example.nested /\
     (Example.nestedRank 0%nat < 2)%nat /\
     collection (jobStore Example.nested 0%nat) = Some d /\
     api d <> None /\
     In 0%nat (m_assignments Example.nested) /\
     dequeueAccepted (m_state Example.nested) = true /\
     forall fuel, stop fuel 0%nat None Example.nested = Deadlock) /\
  (exists d w' d',
     well_nested Example.nestedRank Example.elementsQueued /\
     (Example.nestedRank 0%nat < 2)%nat /\
     collection (jobStore Example.elementsQueued 0%nat) = Some d /\
     api d <> None /\
     ~ (In 0%nat (m_assignments Example.elementsQueued) /\
        dequeueAccepted (m_state Example.elementsQueued) = true) /\
     stop 2 0%nat None Example.elementsQueued = Done w' /\
     collection (jobStore w' 0%nat) = Some d' /\
     jobCounter d' = 0 /\
     m_assignments w' = [] /\
     In (EvFree 3%nat (Some 0%nat)) (trace w')).
Proof.
  assert (Hfuel : (Example.nestedRank 0%nat < 2)%nat) by (simpl; lia).
  split.
  - eexists.
    assert (Hd : collection (jobStore Example.nested 0%nat) = Some _)
      by reflexivity.
    assert (Hapi : api (mkPrivate [Some 1%nat] (Some TheWeaver) 0 0 None false)
                   <> None) by discriminate.
    assert (Hq : In 0%nat (m_assignments Example.nested)
                 /\ dequeueAccepted (m_state Example.nested) = true)
      by (split; [simpl; auto | reflexivity]).
    split; [exact nested_well_nested|]. split; [exact Hfuel|].
    split; [exact Hd|]. split; [exact Hapi|].
    split; [exact (proj1 Hq)|]. split; [exact (proj2 Hq)|].
    exact (proj1 (proj1 (stop_spec Example.nestedRank 2 0%nat None
                           Example.nested _ nested_well_nested Hfuel Hd Hapi)
                        Hq)).
  - eexists.
    assert (Hd : collection (jobStore Example.elementsQueued 0%nat) = Some _)
      by reflexivity.
    assert (Hapi : api (mkPrivate [Some 1%nat; Some 2%nat] (Some TheWeaver) 2 0
                                  (Some 0%nat) false) <> None) by discriminate.
    assert (Hno : ~ (In 0%nat (m_assignments Example.elementsQueued)
                     /\ dequeueAccepted (m_state Example.elementsQueued) = true)).
    { simpl. intros [[Hin | [Hin | []]] _]; discriminate Hin. }
    destruct (proj1 (proj2 (stop_spec Example.nestedRank 2 0%nat None
                              Example.elementsQueued _
                              elementsQueued_well_nested Hfuel Hd Hapi)) Hno)
      as (w' & d' & Hr & _ & _ & _ & Hd' & Hc' & _).
    exists w', d'.
    split; [exact elementsQueued_well_nested|]. split; [exact Hfuel|].
    split; [exact Hd|]. split; [exact Hapi|]. split; [exact Hno|].
    split; [exact Hr|]. split; [exact Hd'|]. split; [exact Hc'|].
    vm_compute in Hr. inversion Hr. split; [reflexivity|].
    simpl. auto 10.
Defined.

(** The loop of [dequeue_p()] also reads the size of the list again at every
    turn: when the callback of a collection has dequeued an element that
    stood in front of it, the jobs at the end get no callback.  Here job 2 is
    dropped from the list without [aboutToBeDequeued]. *)
Lemma dequeue_all_skips_callback :
  exists w',
    dequeue_all 2 Example.nested = Done w' /\
    m_assignments w' = [] /\
    ~ In (EvAboutToBeDequeued 2%nat) (trace w').
Proof.
  eexists. split; [vm_compute; reflexivity|]. split; [reflexivity|].
  simpl. intuition discriminate.
Qed.

(** * More of the code at concrete inputs *)

Lemma refusing_sorted : prio_sorted MoreExamples.refusing.
Proof.
  unfold prio_sorted. simpl. repeat constructor. vm_compute. discriminate.
Qed.

(** X1 at a queue whose first job is refused: the second job is handed out,
    and the first one, of higher priority, was asked and refused. *)
Lemma handed_out_job_has_priority_witness :
  prio_sorted MoreExamples.refusing /\
  fst (takeFirstAvailableJobOrSuspendOrWait 0%nat false false false
         MoreExamples.refusing) = Some 2%nat /\
  exists evs,
    trace (snd (takeFirstAvailableJobOrSuspendOrWait 0%nat false false false
                  MoreExamples.refusing))
    = trace MoreExamples.refusing ++ evs /\
    forall x,
      In x (m_assignments
              (snd (takeFirstAvailableJobOrSuspendOrWait 0%nat false false
                      false MoreExamples.refusing))) ->
      prio MoreExamples.refusing 2%nat < prio MoreExamples.refusing x ->
      exists p, In (EvCanRun p (Some x) false) evs.
Proof.
  split; [exact refusing_sorted|]. split; [reflexivity|].
  apply (handed_out_job_has_priority 0%nat false false false
           MoreExamples.refusing 2%nat refusing_sorted).
  reflexivity.
Defined.

(** X2 at the last busy worker of an empty queue, which signals
    [finished]. *)
Lemma finished_signal_witness :
  1 <= m_active MoreExamples.lastWorker /\
  exists evs,
    trace (snd (takeFirstAvailableJobOrSuspendOrWait 0%nat true false false
                  MoreExamples.lastWorker))
    = trace MoreExamples.lastWorker ++ evs /\
    In EvFinished evs.
Proof.
  assert (Hact : (if true then 1 else 0) <= m_active MoreExamples.lastWorker)
    by (simpl; lia).
  split; [exact Hact|].
  destruct (finished_signal 0%nat true false false MoreExamples.lastWorker Hact)
    as (evs & Htr & Hiff).
  exists evs. split; [exact Htr|].
  apply Hiff. repeat split.
Defined.


(** X6 at a new weaver and two jobs. *)
Lemma enqueue_p_status_witness :
  In (Some 1%nat) [Some 0%nat; Some 1%nat] /\
  status (jobStore (enqueue_p [Some 0%nat; Some 1%nat] Example.fresh) 1%nat)
  = Status_Queued.
Proof.
  assert (Hin : In (Some 1%nat) [Some 0%nat; Some 1%nat]) by (simpl; auto).
  split; [exact Hin|].
  exact (proj1 (enqueue_p_status [Some 0%nat; Some 1%nat] Example.fresh)
           1%nat Hin).
Defined.

(** X7 at a queue of priorities 5 and 3 and a new job of priority 5. *)
Lemma enqueue_p_is_stable_insertion_witness :
  prio_sorted Example.sortedQueue /\
  m_assignments (enqueue_p [Some 3%nat] Example.sortedQueue)
  = insertAll (prio Example.sortedQueue) [3%nat] [1%nat; 2%nat] /\
  insertAll (prio Example.sortedQueue) [3%nat] [1%nat; 2%nat]
  = [1%nat; 3%nat; 2%nat].
Proof.
  assert (Hso : prio_sorted Example.sortedQueue).
  { unfold prio_sorted. simpl. repeat constructor. vm_compute. discriminate. }
  split; [exact Hso|]. split; [|reflexivity].
  exact (enqueue_p_is_stable_insertion [Some 3%nat] Example.sortedQueue Hso).
Defined.

(** X8 at a new weaver. *)
Lemma enqueue_dequeue_round_trip_witness :
  collection (jobStore Example.fresh 0%nat) = None /\
  ~ In 0%nat (m_assignments Example.fresh) /\
  exists w',
    dequeue_p 1 (Some 0%nat) (enqueueJob 0%nat Example.fresh) = Done (true, w') /\
    m_assignments w' = m_assignments Example.fresh /\
    status (jobStore w' 0%nat) = Status_New.
Proof.
  assert (Hc : collection (jobStore Example.fresh 0%nat) = None)
    by reflexivity.
  assert (Hn : ~ In 0%nat (m_assignments Example.fresh))
    by (simpl; intros []).
  split; [exact Hc|]. split; [exact Hn|].
  destruct (enqueue_dequeue_round_trip 1 0%nat Example.fresh Hc Hn
              (Nat.lt_0_succ 0)) as (w' & Hr & Ha & Hs & _).
  exists w'. split; [exact Hr|]. split; assumption.
Defined.

(** X9 at the queue with a collection and its element. *)
Lemma dequeue_p_all_empties_witness :
  well_nested Example.nestedRank Example.nested /\
  (forall j, In j (m_assignments Example.nested) ->
             (Example.nestedRank j <= 2)%nat) /\
  exists w',
    dequeue_p_all 2 Example.nested = Done w' /\
    isEmpty_p w' = true /\
    m_inventory w' = m_inventory Example.nested.
Proof.
  assert (Hf : forall j, In j (m_assignments Example.nested) ->
                         (Example.nestedRank j <= 2)%nat).
  { intros j _. destruct j; simpl; lia. }
  split; [exact nested_well_nested|]. split; [exact Hf|].
  destruct (dequeue_p_all_empties Example.nestedRank 2 Example.nested
              nested_well_nested Hf) as (w' & Hr & He & _ & Hi & _).
  exists w'. split; [exact Hr|]. split; assumption.
Defined.

(** X10 at a queue of one job. *)
Lemma dequeue_only_removes_witness :
  exists w',
    dequeue 1 (Some 7%nat) Example.oneQueued = Done (true, w') /\
    sublist (m_assignments w') (m_assignments Example.oneQueued) /\
    (length (m_assignments w') < length (m_assignments Example.oneQueued))%nat.
Proof.
  eexists.
  assert (Hr : dequeue 1 (Some 7%nat) Example.oneQueued = Done (true, _))
    by (vm_compute; reflexivity).
  split; [exact Hr|].
  destruct (dequeue_only_removes 1 (Some 7%nat) Example.oneQueued true _ Hr)
    as (Hsub & _ & _ & _ & _ & _ & _ & Hlen).
  split; [exact Hsub|]. exact (Hlen eq_refl).
Defined.

(** X11 at a running collection whose two elements are queued. *)
Lemma JobCollection_dtor_dequeues_elements_witness :
  exists d w',
    well_nested Example.nestedRank Example.elementsQueued /\
    (Example.nestedRank 0%nat <= 2)%nat /\
    collection (jobStore Example.elementsQueued 0%nat) = Some d /\
    JobCollection_dtor 2 0%nat Example.elementsQueued = Done w' /\
    shrinks Example.elementsQueued w' /\
    m_assignments w' = [].
Proof.
  eexists.
  assert (Hd : collection (jobStore Example.elementsQueued 0%nat) = Some _)
    by reflexivity.
  assert (Hfuel : (Example.nestedRank 0%nat <= 2)%nat) by (simpl; lia).
  destruct (JobCollection_dtor_dequeues_elements Example.nestedRank 2 0%nat
              Example.elementsQueued _ elementsQueued_well_nested Hfuel Hd)
    as (w' & Hr & Hsh & _).
  exists w'.
  split; [exact elementsQueued_well_nested|]. split; [exact Hfuel|].
  split; [exact Hd|]. split; [exact Hr|]. split; [exact Hsh|].
  vm_compute in Hr. inversion Hr. reflexivity.
Defined.

Lemma twoQueued_asserts :
  assertsHold Example.fresh [Some 0%nat; Some 1%nat].
Proof. simpl. repeat split. Qed.

(** X12 at the state with two queued jobs. *)
Lemma queued_jobs_have_status_Queued_witness :
  reachable anyCap assertsHold Example.twoQueued /\
  In 1%nat (m_assignments (world Example.twoQueued)) /\
  status (jobStore (world Example.twoQueued) 1%nat) = Status_Queued.
Proof.
  assert (Hin : In 1%nat (m_assignments (world Example.twoQueued)))
    by (simpl; auto).
  split; [exact (twoQueued_reachable anyCap assertsHold twoQueued_asserts)|].
  split; [exact Hin|].
  exact (queued_jobs_have_status_Queued Example.twoQueued
           (twoQueued_reachable anyCap assertsHold twoQueued_asserts)
           1%nat Hin).
Defined.

(** X13 at the same state. *)
Lemma created_threads_are_counted_witness :
  reachable anyCap anyJobs Example.twoQueued /\
  m_createdThreads (world Example.twoQueued)
  = length (m_inventory (world Example.twoQueued)).
Proof.
  split; [exact (twoQueued_reachable anyCap anyJobs I)|].
  exact (created_threads_are_counted anyCap anyJobs Example.twoQueued
           (twoQueued_reachable anyCap anyJobs I)).
Defined.

(** X14 at a collection of two elements that was just picked up: the third
    call of [elementFinished] invokes the default end. *)
Lemma final_cleanup_exactly_once_witness :
  exists d w' d',
    collection (jobStore Example.pickedUp 0%nat) = Some d /\
    selfIsExecuting d = true /\ api d <> None /\
    (length [Some 1%nat; Some 2%nat] <= length (elements d))%nat /\
    elementsFinished 0%nat 0%nat [Some 0%nat; Some 1%nat; Some 2%nat]
      Example.pickedUp = Done w' /\
    collection (jobStore w' 0%nat) = Some d' /\
    jobCounter d' = 0 /\
    defaultEnds (trace w') = 1%nat.
Proof.
  eexists.
  assert (Hd : collection (jobStore Example.pickedUp 0%nat) = Some _)
    by reflexivity.
  assert (Hx : selfIsExecuting
                 (mkPrivate [Some 1%nat; Some 2%nat] (Some TheWeaver) 0 0
                            (Some 0%nat) true) = true) by reflexivity.
  assert (Hapi : api (mkPrivate [Some 1%nat; Some 2%nat] (Some TheWeaver) 0 0
                                (Some 0%nat) true) <> None) by discriminate.
  assert (Hle : (length [Some 1%nat; Some 2%nat]
                 <= length (elements
                      (mkPrivate [Some 1%nat; Some 2%nat] (Some TheWeaver) 0 0
                                 (Some 0%nat) true)))%nat) by (simpl; lia).
  destruct (final_cleanup_exactly_once 0%nat 0%nat (Some 0%nat)
              [Some 1%nat; Some 2%nat] Example.pickedUp _ Hd Hx Hapi Hle)
    as (w' & d' & Hr & Hd' & Hc & Hde & _).
  exists w', d'.
  split; [exact Hd|]. split; [exact Hx|]. split; [exact Hapi|].
  split; [exact Hle|]. split; [exact Hr|]. split; [exact Hd'|].
  split; [exact Hc|]. exact Hde.
Defined.

(** X15 at a weaver that is suspended already. *)
Lemma setState_p_signals_changes_witness :
  m_state Example.oneQueued = Suspended /\
  trace (setState_p Suspended Example.oneQueued) = trace Example.oneQueued.
Proof.
  assert (Hst : m_state Example.oneQueued = Suspended) by reflexivity.
  split; [exact Hst|].
  destruct (setState_p_signals_changes Suspended Example.oneQueued)
    as (_ & (evs & Htr & _ & _ & Hnil) & _).
  rewrite Htr, (Hnil Hst). apply app_nil_r.
Defined.

(** X16 at a queue of priorities 5 and 3 and a new job of priority 9. *)
Lemma top_priority_job_is_handed_out_witness :
  m_state MoreExamples.urgent = WorkingHard /\
  prio_sorted MoreExamples.urgent /\
  (forall x, In x (m_assignments MoreExamples.urgent) ->
             prio MoreExamples.urgent x < prio MoreExamples.urgent 3%nat) /\
  queuePolicies (jobStore MoreExamples.urgent 3%nat) = [] /\
  fst (takeFirstAvailableJobOrSuspendOrWait 0%nat false false false
         (enqueue_p [Some 3%nat] MoreExamples.urgent)) = Some 3%nat.
Proof.
  assert (Hst : m_state MoreExamples.urgent = WorkingHard) by reflexivity.
  assert (Hso : prio_sorted MoreExamples.urgent).
  { unfold prio_sorted. simpl. repeat constructor. vm_compute. discriminate. }
  assert (Htop : forall x, In x (m_assignments MoreExamples.urgent) ->
                   prio MoreExamples.urgent x < prio MoreExamples.urgent 3%nat).
  { simpl. intros x [<- | [<- | []]]; vm_compute; reflexivity. }
  assert (Hp : queuePolicies (jobStore MoreExamples.urgent 3%nat) = [])
    by reflexivity.
  split; [exact Hst|]. split; [exact Hso|]. split; [exact Htop|].
  split; [exact Hp|].
  exact (proj1 (proj2 (top_priority_job_is_handed_out 0%nat false false
                         3%nat MoreExamples.urgent Hst Hso Htop Hp))).
Defined.

(** X17 at a queued collection whose element is queued as well. *)
Lemma dequeued_collection_is_unbound_witness :
  exists d w',
    collection (jobStore Example.nested 0%nat) = Some d /\
    dequeue_p 2 (Some 0%nat) Example.nested = Done (true, w') /\
    status (jobStore w' 0%nat) = Status_New /\
    JobCollection_dtor 0 0%nat w' = Done w'.
Proof.
  eexists. eexists.
  assert (Hd : collection (jobStore Example.nested 0%nat) = Some _)
    by reflexivity.
  assert (Hr : dequeue_p 2 (Some 0%nat) Example.nested = Done (true, _))
    by (vm_compute; reflexivity).
  split; [exact Hd|]. split; [exact Hr|].
  destruct (dequeued_collection_is_unbound 2 0%nat Example.nested _ _ Hd Hr)
    as (_ & Hs & Hno).
  split; [exact Hs|]. exact (proj2 (Hno 0%nat None)).
Defined.

(** X4 at a new weaver, whose cap is four: three threads for three new jobs,
    and two for a vector of two jobs and a null pointer. *)
Lemma threads_created_on_demand_witness :
  int_range 3 /\
  int_range (maximumNumberOfThreads_p Example.fresh) /\
  int_range (currentNumberOfThreads_p Example.fresh) /\
  int_range (maximumNumberOfThreads_p Example.fresh
             - currentNumberOfThreads_p Example.fresh) /\
  int_range (2 * 1) /\
  currentNumberOfThreads_p (adjustInventory 3 Example.fresh) = 3 /\
  currentNumberOfThreads_p
    (enqueue_p [Some 0%nat; None; Some 1%nat] Example.fresh) = 2 /\
  currentNumberOfThreads_p
    (enqueue_p [Some 0%nat; None; Some 1%nat]
               (WeaverImpl 1 Example.noJobs ([] : Example.Grants))) = 2.
Proof.
  assert (Hn : int_range 3) by (vm_compute; split; discriminate).
  assert (Hcap : int_range (maximumNumberOfThreads_p Example.fresh))
    by (vm_compute; split; discriminate).
  assert (Hcount : int_range (currentNumberOfThreads_p Example.fresh))
    by (vm_compute; split; discriminate).
  assert (Hdiff : int_range (maximumNumberOfThreads_p Example.fresh
                             - currentNumberOfThreads_p Example.fresh))
    by (vm_compute; split; discriminate).
  assert (Hideal : int_range (2 * 1)) by (vm_compute; split; discriminate).
  split; [exact Hn|]. split; [exact Hcap|]. split; [exact Hcount|].
  split; [exact Hdiff|]. split; [exact Hideal|].
  destruct (@threads_created_on_demand Example.Grants)
    as (Hadjust & Hbatch & Hfirst).
  split; [|split].
  - rewrite (Hadjust 3 Example.fresh Hn Hcap Hcount Hdiff). reflexivity.
  - rewrite (Hbatch [Some 0%nat; None; Some 1%nat] Example.fresh
               Hcap Hcount Hdiff).
    reflexivity.
  - rewrite (Hfirst 1 Example.noJobs ([] : Example.Grants)
               [Some 0%nat; None; Some 1%nat] Hideal).
    reflexivity.
Defined.
